(** * Jigsaw tiles and sea monsters: a shallow embedding of [20/main.py]

    The program reads square bitmaps ("tiles"), finds which tiles can be
    neighbours, assembles them into one bitmap and counts the set pixels that
    do not belong to a "sea monster".  This file embeds the pure core of
    [main.py] and proves the properties stated about it.

    Conventions of the embedding:
    - a numpy array of dtype [int] and two dimensions is a list of rows, each
      a list of [Z]; the arrays the program builds are rectangular, and the
      statements carry a [square n] hypothesis where the shape matters;
    - a Python tuple of ints (an edge) is a [list Z]; a Python [set] of edges
      is a duplicate-free list, and [set.pop], whose choice depends on the
      hash table, is a parameter [pop] constrained only to return a member;
    - integers are in [Z]: Python's are unbounded, and the 64-bit sums of
      numpy are sums of pixels 0 and 1, far from wrapping around; only the
      store of a tile identifier into the grid checks the 64-bit range;
    - exceptions are values of [exn], carried by the error monad [res];
    - in-place mutation of a tile is explicit state passing: a function that
      mutates its tile returns the new tile. *)

From Stdlib Require Import ZArith List Lia Permutation.
From Stdlib Require Import Ascii String.
From stdpp Require Import base decidable option list gmap sets fin_sets.
Import ListNotations.

Local Open Scope Z_scope.

(** ** Exceptions *)

Inductive exn : Type :=
| IndexError
| ValueError
| KeyError
| TypeError
| OverflowError
| UnboundLocalError.

Inductive res (A : Type) : Type :=
| Ok (a : A)
| Raise (e : exn).
Arguments Ok {A} a.
Arguments Raise {A} e.

#[global] Instance res_bind : MBind res := fun A B k r =>
  match r with
  | Ok a => k a
  | Raise e => Raise e
  end.

(** ** numpy arrays of two dimensions *)

Abbreviation array := (list (list Z)) (only parsing).
Abbreviation edge := (list Z) (only parsing).

(** [image.shape[0]] and [image.shape[1]]. *)
Definition shape0 (m : array) : nat := length m.
Definition shape1 (m : array) : nat :=
  match m with
  | [] => 0%nat
  | r :: _ => length r
  end.

Definition square (n : nat) (m : array) : Prop :=
  length m = n /\ Forall (fun r => length r = n) m.

(** [m[i, j]] for indices in range. *)
Definition pixel_at (m : array) (i j : nat) : Z := nth j (nth i m []) 0.

(** [m[:, j]]: column [j], read from top to bottom. *)
Definition column (j : nat) (m : array) : list Z := map (fun r => nth j r 0) m.

(** [m[::-1, :]] and [m[:, ::-1]]. *)
Definition flipud (m : array) : array := rev m.
Definition fliplr (m : array) : array := map (@rev Z) m.

(** [numpy.transpose] of a two-dimensional array: row [j] of the result is
    column [j] of the argument. *)
Definition transpose (m : array) : array :=
  map (fun j => column j m) (seq 0 (shape1 m)).

(** [numpy.rot90(m, k)], as numpy defines it: [k] is reduced modulo 4
    (Python's [%], never negative); 0 returns the array, 2 flips both axes,
    1 is [transpose(flip(m, 1))] and 3 is [flip(transpose(m), 1)]. *)
Definition rot90 (m : array) (k : Z) : array :=
  let k := k mod 4 in
  if k =? 0 then m
  else if k =? 2 then fliplr (flipud m)
  else if k =? 1 then transpose (fliplr m)
  else fliplr (transpose m).

(** [m.sum()]. *)
Definition sumZ (l : list Z) : Z := fold_right Z.add 0 l.
Definition image_sum (m : array) : Z := sumZ (concat m).

(** ** class Tile *)

Module Tile.

Record t : Type := mk { id : Z; image : list (list Z) }.

(** [tuple(self.image[0, :])] and the three other borders.  Indexing row 0
    or column 0 of an array without rows or without columns raises
    [IndexError]. *)
Definition borders (self : t) : res (list edge) :=
  match image self with
  | [] => Raise IndexError
  | first :: _ =>
      match first with
      | [] => Raise IndexError
      | _ :: _ =>
          let first_row := first in
          let last_row := List.last (image self) [] in
          let first_column := column 0 (image self) in
          let last_column :=
            column (shape1 (image self) - 1)%nat (image self) in
          Ok [first_row; last_row; first_column; last_column]
      end
  end.

(** The property [list_edges]: [top, bottom, left, right]. *)
Definition list_edges (self : t) : res (list edge) := borders self.

(** The property [edges]: the same four tuples as a set. *)
Definition edges (self : t) : res (list edge) :=
  l ← borders self; Ok (remove_dups l).

Definition reflect_up_down (self : t) : t :=
  mk (id self) (flipud (image self)).

Definition reflect_left_right (self : t) : t :=
  mk (id self) (fliplr (image self)).

Definition rotate (self : t) (n_turns : Z) : t :=
  mk (id self) (rot90 (image self) n_turns).

End Tile.

(** ** Python sets of edges, dictionaries and ranges *)

(** A [set] of tuples is a duplicate-free list of edges; union, intersection
    and difference are stdpp's [list_union], [list_intersection] and
    [list_difference]. *)
Abbreviation edge_set := (list (list Z)) (only parsing).

(** [{e[::-1] for e in s}]. *)
Definition reversed_edges (s : edge_set) : edge_set :=
  remove_dups (map (@rev Z) s).

(** [l.index(x)]: the first position of [x], or [ValueError]. *)
Fixpoint index (l : list edge) (x : edge) : res nat :=
  match l with
  | [] => Raise ValueError
  | y :: l' =>
      if decide (y = x) then Ok 0%nat
      else i ← index l' x; Ok (S i)
  end.

(** [range(k)] for an integer [k]: empty when [k] is not positive. *)
Definition range (k : Z) : list nat := seq 0 (Z.to_nat k).

(** [itertools.combinations(l, 2)]. *)
Fixpoint combinations2 {A : Type} (l : list A) : list (A * A) :=
  match l with
  | [] => []
  | x :: l' => map (pair x) l' ++ combinations2 l'
  end.

(** The dictionary [tiles], in insertion order; its keys are distinct. *)
Abbreviation tile_dict := (list (Z * Tile.t)) (only parsing).

Definition keys (tiles : tile_dict) : list Z := map fst tiles.

(** [tiles[k]]. *)
Fixpoint getitem (tiles : tile_dict) (k : Z) : res Tile.t :=
  match tiles with
  | [] => Raise KeyError
  | (k', v) :: tiles' => if decide (k' = k) then Ok v else getitem tiles' k
  end.

(** ** find_possible_neighbours *)

(** [tile_to_neighbours[i].add(j)] on a [defaultdict(set)]. *)
Definition add_neighbour (i j : Z) (d : gmap Z (gset Z)) : gmap Z (gset Z) :=
  <[i := default ∅ (d !! i) ∪ {[j]}]> d.

Fixpoint find_pairs (tiles : tile_dict) (pairs : list (Z * Z))
    (tile_to_neighbours : gmap Z (gset Z)) : res (gmap Z (gset Z)) :=
  match pairs with
  | [] => Ok tile_to_neighbours
  | (i, j) :: pairs' =>
      ti ← getitem tiles i;
      ei ← Tile.edges ti;
      let edges_i := list_union ei (reversed_edges ei) in
      tj ← getitem tiles j;
      edges_j ← Tile.edges tj;
      if bool_decide (list_intersection edges_i edges_j <> [])
      then find_pairs tiles pairs'
             (add_neighbour j i (add_neighbour i j tile_to_neighbours))
      else find_pairs tiles pairs' tile_to_neighbours
  end.

(** The result maps a tile to the tuple of its candidate neighbours; a tuple
    made from a set lists its elements once each, in no specified order, so
    the tuple is kept as the set: [len] is [size]. *)
Definition find_possible_neighbours (tiles : tile_dict)
    : res (gmap Z (gset Z)) :=
  find_pairs tiles (combinations2 (keys tiles)) ∅.

(** ** Part one of the main block *)

(** [{tile_id for tile_id, neighbours in tile_to_neighbours.items()
      if len(neighbours) == 2}]. *)
Definition corner_ids (tile_to_neighbours : gmap Z (gset Z)) : gset Z :=
  dom (filter (fun kv => size kv.2 = 2%nat) tile_to_neighbours).

(** [reduce(lambda a, b: a * b, s)] without an initial value: the first
    element starts the accumulation, and an empty [s] raises [TypeError]. *)
Definition reduce_mul (l : list Z) : res Z :=
  match l with
  | [] => Raise TypeError
  | x :: l' => Ok (fold_left Z.mul l' x)
  end.

Definition part_one (tiles : tile_dict) : res Z :=
  tile_to_neighbours ← find_possible_neighbours tiles;
  reduce_mul (elements (corner_ids tile_to_neighbours)).

(** ** match_two_tiles *)

(** The local variable [m] of [match_two_tiles]: not yet assigned, or bound
    to [None] or to a side index. *)
Inductive local : Type :=
| Unbound
| Bound (v : option nat).

(** The four accepted pairs (side of the static tile, side of the other). *)
Definition opposite_sides : list (nat * nat) :=
  [(0, 1); (1, 0); (2, 3); (3, 2)]%nat.

Section Matcher.

(** [pop step s] is the element that [set.pop] removes from the non-empty
    set [s] when called in iteration [step]. *)
Variable pop : nat -> edge_set -> edge.

Definition set_pop (step : nat) (s : edge_set) : res edge :=
  match s with
  | [] => Raise KeyError
  | _ :: _ => Ok (pop step s)
  end.

Definition check_match (step : nat) (static_tile other_tile : Tile.t)
    (matching_edges : edge_set) : res (option nat) :=
  matching_edge ← set_pop step matching_edges;
  ls ← Tile.list_edges static_tile;
  i ← index ls matching_edge;
  lo ← Tile.list_edges other_tile;
  j ← index lo matching_edge;
  if bool_decide ((i, j) ∈ opposite_sides) then Ok (Some i) else Ok None.

(** The [for] loop over the remaining values of [i]; the state is the other
    tile and the local [m].  [break] leaves the loop with the state of that
    iteration. *)
Fixpoint match_loop (static_tile : Tile.t) (steps : list nat)
    (other_tile : Tile.t) (m : local) : res (Tile.t * local) :=
  match steps with
  | [] => Ok (other_tile, m)
  | i :: steps' =>
      let other_tile :=
        if (i =? 4)%nat then Tile.reflect_left_right other_tile
        else other_tile in
      let other_tile := Tile.rotate other_tile 1 in
      oe ← Tile.edges other_tile;
      se ← Tile.edges static_tile;
      let matching_edges := list_intersection oe se in
      if bool_decide (matching_edges <> []) then
        r ← check_match i static_tile other_tile matching_edges;
        match r with
        | Some side => Ok (other_tile, Bound (Some side))
        | None => match_loop static_tile steps' other_tile (Bound None)
        end
      else match_loop static_tile steps' other_tile m
  end.

(** [match_two_tiles static_tile other_tile], for two distinct tile
    objects: the result is the mutated other tile and the returned value
    ([None] or a side); [return m] with [m] unassigned raises
    [UnboundLocalError]. *)
Definition match_two_tiles (static_tile other_tile : Tile.t)
    : res (Tile.t * option nat) :=
  '(other_tile, m) ← match_loop static_tile (range 8) other_tile Unbound;
  match m with
  | Unbound => Raise UnboundLocalError
  | Bound v => Ok (other_tile, v)
  end.

End Matcher.

(** ** build_image: orientation of the first corner and placement *)

Abbreviation grid := (list (list Z)) (only parsing).

(** [np.where(id_grid == v)], first hit: the coordinates of the first cell,
    in row-major order, that holds [v]; [ind[0][0]] raises [IndexError]
    when there is none. *)
Fixpoint find_in_row (v : Z) (r : list Z) : option nat :=
  match r with
  | [] => None
  | x :: r' => if decide (x = v) then Some 0%nat else S <$> find_in_row v r'
  end.

Fixpoint where_from (i : nat) (g : grid) (v : Z) : res (Z * Z) :=
  match g with
  | [] => Raise IndexError
  | r :: g' =>
      match find_in_row v r with
      | Some j => Ok (Z.of_nat i, Z.of_nat j)
      | None => where_from (S i) g' v
      end
  end.

Definition where_first (id_grid : grid) (v : Z) : res (Z * Z) :=
  where_from 0 id_grid v.

(** numpy's treatment of one integer index [k] on an axis of length [n]:
    a negative index counts from the end, and an index outside
    [-n .. n-1] raises [IndexError]. *)
Definition normalize_index (k : Z) (n : nat) : res nat :=
  if (0 <=? k) && (k <? Z.of_nat n) then Ok (Z.to_nat k)
  else if (- Z.of_nat n <=? k) && (k <? 0) then Ok (Z.to_nat (k + Z.of_nat n))
  else Raise IndexError.

(** [id_grid[(i, j)] = v] on an array of 64-bit integers. *)
Definition setitem (id_grid : grid) (ij : Z * Z) (v : Z) : res grid :=
  i ← normalize_index ij.1 (shape0 id_grid);
  j ← normalize_index ij.2 (shape1 id_grid);
  if (- 2 ^ 63 <=? v) && (v <? 2 ^ 63)
  then Ok (alter (fun r => <[j := v]> r) i id_grid)
  else Raise OverflowError.

(** [matched_edge == k] for a value that is [None] or an int. *)
Definition py_eq (matched_edge : option nat) (k : nat) : bool :=
  match matched_edge with
  | Some i => (i =? k)%nat
  | None => false
  end.

(** Lines 155 to 164: the cell of the neighbour, from the matched side. *)
Definition place (id_grid : grid) (current_id neighbour : Z)
    (matched_edge : option nat) : res grid :=
  '(i, j) ← where_first id_grid current_id;
  if py_eq matched_edge 0 then setitem id_grid (i - 1, j) neighbour
  else if py_eq matched_edge 1 then setitem id_grid (i + 1, j) neighbour
  else if py_eq matched_edge 2 then setitem id_grid (i, j - 1) neighbour
  else setitem id_grid (i, j + 1) neighbour.

Section Builder.

(** [pop k s] is the element removed by the call number [k] of [set.pop],
    made on the non-empty set [s]. *)
Variable pop : nat -> edge_set -> edge.

(** Lines 127 to 130: remove from the corner's edges those that a
    neighbour has, in either direction. *)
Fixpoint unmatched_loop (tiles : tile_dict) (neighbour_ids : list Z)
    (unmatched_edges : edge_set) : res edge_set :=
  match neighbour_ids with
  | [] => Ok unmatched_edges
  | n :: rest =>
      neighbour ← getitem tiles n;
      ne ← Tile.edges neighbour;
      let other_edges := list_union ne (reversed_edges ne) in
      unmatched_loop tiles rest
        (list_difference unmatched_edges
           (list_intersection unmatched_edges other_edges))
  end.

(** Lines 132 to 135: the positions of two popped unmatched edges. *)
Definition unmatched_indices (first_corner : Tile.t)
    (unmatched_edges : edge_set) : res (gset nat) :=
  l1 ← Tile.list_edges first_corner;
  e1 ← set_pop pop 0 unmatched_edges;
  i1 ← index l1 e1;
  let unmatched_edges := list_difference unmatched_edges [e1] in
  l2 ← Tile.list_edges first_corner;
  e2 ← set_pop pop 1 unmatched_edges;
  i2 ← index l2 e2;
  Ok ({[i1; i2]} : gset nat).

(** Lines 136 to 143: the corrective transform of the first corner. *)
Definition orient_first_corner (unmatched : gset nat)
    (first_corner : Tile.t) : Tile.t :=
  if decide (unmatched = {[0; 3]}%nat) then Tile.rotate first_corner 1
  else if decide (unmatched = {[1; 3]}%nat) then Tile.rotate first_corner 2
  else if decide (unmatched = {[1; 2]}%nat)
       then Tile.reflect_up_down first_corner
  else first_corner.

(** Lines 126 to 143 together. *)
Definition orient_corner (tiles : tile_dict) (first_corner_id : Z)
    (neighbour_ids : list Z) : res Tile.t :=
  first_corner ← getitem tiles first_corner_id;
  ue ← Tile.edges first_corner;
  ue ← unmatched_loop tiles neighbour_ids ue;
  ui ← unmatched_indices first_corner ue;
  Ok (orient_first_corner ui first_corner).

(** Lines 153 to 164: match the neighbour against the current tile, then
    write its identifier into the grid.  The result is the neighbour tile
    as mutated by the matcher and the new grid. *)
Definition place_neighbour (tiles : tile_dict) (id_grid : grid)
    (current_id neighbour : Z) : res (Tile.t * grid) :=
  static_tile ← getitem tiles current_id;
  other_tile ← getitem tiles neighbour;
  '(other_tile, matched_edge) ← match_two_tiles pop static_tile other_tile;
  id_grid ← place id_grid current_id neighbour matched_edge;
  Ok (other_tile, id_grid).

End Builder.

(** ** build_image: the image from the grid of identifiers *)

(** [l[1:-1]]: a list without its first and its last element. *)
Definition inner {A : Type} (l : list A) : list A :=
  drop 1 (take (length l - 1) l).

(** [tile.image[1:-1, 1:-1]], for a two-dimensional image with at least one
    row: every tile has had its borders read before this point. *)
Definition interior (m : array) : array := map inner (inner m).

(** [np.zeros((h, w), dtype=int)]. *)
Definition zeros (h w : nat) : array := replicate h (replicate w 0).

(** The test of numpy's broadcasting on one axis: a source axis of length
    [p] fits a target axis of length [h] when the lengths are equal or the
    source has length 1, which is then repeated. *)
Definition fits (p h : nat) : bool := (p =? h)%nat || (p =? 1)%nat.

(** [image[r0 : r0 + 8, c0 : c0 + 8] = src] for a source of shape
    [(p, q)].  The slices are cut at the end of the array; a source that
    cannot be broadcast to the shape of the target raises [ValueError]. *)
Definition assign_block (image : array) (r0 c0 : nat)
    (src : array) (p q : nat) : res array :=
  let h := Nat.min 8 (shape0 image - r0) in
  let w := Nat.min 8 (shape1 image - c0) in
  if fits p h && fits q w then
    Ok (imap
          (fun a row =>
             if (r0 <=? a)%nat && (a <? r0 + h)%nat then
               imap
                 (fun b x =>
                    if (c0 <=? b)%nat && (b <? c0 + w)%nat then
                      pixel_at src
                        (if (p =? 1)%nat then 0 else a - r0)
                        (if (q =? 1)%nat then 0 else b - c0)
                    else x)
                 row
             else row)
          image)
  else Raise ValueError.

(** Lines 172 to 175: the loop over [tiles.items()]. *)
Fixpoint composite_loop (id_grid : grid) (items : tile_dict)
    (image : array) : res array :=
  match items with
  | [] => Ok image
  | (tile_id, tile) :: items' =>
      '(i, j) ← where_first id_grid tile_id;
      let src := interior (Tile.image tile) in
      image ← assign_block image (Z.to_nat (i * 8)) (Z.to_nat (j * 8)) src
                (shape0 (Tile.image tile) - 2) (shape1 (Tile.image tile) - 2);
      composite_loop id_grid items' image
  end.

(** Lines 171 to 177, from the grid of identifiers that the construction
    has filled. *)
Definition composite (grid_size : nat) (id_grid : grid) (tiles : tile_dict)
    : res array :=
  composite_loop id_grid tiles (zeros (grid_size * 8) (grid_size * 8)).

(** ** measure_water_roughness *)

(** [s.splitlines()] for a text with line feeds only. *)
Fixpoint splitlines_from (cur : list ascii) (s : list ascii)
    : list (list ascii) :=
  match s with
  | [] => match cur with [] => [] | _ :: _ => [rev cur] end
  | c :: s' =>
      if Ascii.eqb c "010"%char then rev cur :: splitlines_from [] s'
      else splitlines_from (c :: cur) s'
  end.

Definition splitlines (s : string) : list (list ascii) :=
  splitlines_from [] (list_ascii_of_string s).

Definition MONSTER : string := "
                  # 
#    ##    ##    ###
 #  #  #  #  #  #   
".

(** [np.array([[c == "#" for c in row] for row in MONSTER.splitlines()[1:]],
    dtype=int)]. *)
Definition monster : array :=
  map (map (fun c => if Ascii.eqb c "#"%char then 1 else 0))
    (tail (splitlines MONSTER)).

(** [transformed_image[i : i + w, j : j + h]]. *)
Definition sub_image (transformed_image : array) (i j w h : nat) : array :=
  map (fun r => take h (drop j r)) (take w (drop i transformed_image)).

(** [monster * sub_image] for two arrays of one shape. *)
Definition mul_images (a b : array) : array :=
  zip_with (zip_with Z.mul) a b.

Section Scanner.

(** [n = image.shape[0]], [w, h = monster.shape],
    [monster_pixels = monster.sum()]. *)
Variable n : nat.
Let w : nat := shape0 monster.
Let h : nat := shape1 monster.
Let monster_pixels : Z := image_sum monster.

Definition count_monsters (transformed_image : array) : Z :=
  fold_left
    (fun num_monsters i =>
       fold_left
         (fun num_monsters j =>
            let sub := sub_image transformed_image i j w h in
            num_monsters
            + (if image_sum (mul_images monster sub) =? monster_pixels
               then 1 else 0))
         (range (Z.of_nat n - Z.of_nat h + 1)) num_monsters)
    (range (Z.of_nat n - Z.of_nat w + 1)) 0.

(** The [for] loop: the state is the current image and [num_monsters]. *)
Fixpoint scan_loop (steps : list nat) (image : array) (num_monsters : Z)
    : array * Z :=
  match steps with
  | [] => (image, num_monsters)
  | i :: steps' =>
      let image := if (i =? 4)%nat then fliplr image else image in
      let image := rot90 image 1 in
      let num_monsters := count_monsters image in
      if num_monsters >? 0 then (image, num_monsters)
      else scan_loop steps' image num_monsters
  end.

End Scanner.

(** [measure_water_roughness image], for a square [image].  [num_monsters]
    is assigned in the first of the eight iterations, so its value before
    the loop is never read. *)
Definition measure_water_roughness (image : array) : Z :=
  let n := shape0 image in
  let '(image, num_monsters) := scan_loop n (range 8) image 0 in
  image_sum image - num_monsters * image_sum monster.

(** * Vocabulary of the statements *)

(** ** The symmetries of the square, by pixel coordinates *)

Inductive dihedral : Type :=
| Rot0 | Rot1 | Rot2 | Rot3
| Transpose | FlipUD | AntiTranspose | FlipLR.

Definition all_dihedral : list dihedral :=
  [Rot0; Rot1; Rot2; Rot3; Transpose; FlipUD; AntiTranspose; FlipLR].

(** The pixel of the original [n] by [n] bitmap that a symmetry moves to
    row [i], column [j]; [Rot1] is one quarter turn anticlockwise. *)
Definition source_pixel (n : nat) (g : dihedral) (i j : nat) : nat * nat :=
  match g with
  | Rot0 => (i, j)
  | Rot1 => (j, n - 1 - i)
  | Rot2 => (n - 1 - i, n - 1 - j)
  | Rot3 => (n - 1 - j, i)
  | Transpose => (j, i)
  | FlipUD => (n - 1 - i, j)
  | AntiTranspose => (n - 1 - j, n - 1 - i)
  | FlipLR => (i, n - 1 - j)
  end%nat.

Definition act (n : nat) (g : dihedral) (m : array) : array :=
  map (fun i =>
         map (fun j => pixel_at m (source_pixel n g i j).1
                                  (source_pixel n g i j).2)
           (seq 0 n))
    (seq 0 n).

(** The bitmaps that the two eight-step loops look at, in order. *)
Definition step_orientation (i : nat) (m : array) : array :=
  rot90 (if (i =? 4)%nat then fliplr m else m) 1.

Fixpoint orientations_from (steps : list nat) (m : array) : list array :=
  match steps with
  | [] => []
  | i :: steps' =>
      step_orientation i m :: orientations_from steps' (step_orientation i m)
  end.

Definition orientations (m : array) : list array :=
  orientations_from (range 8) m.

Definition step_transforms : list dihedral :=
  [Rot1; Rot2; Rot3; Rot0; Transpose; FlipUD; AntiTranspose; FlipLR].

(** The symmetry reached by one more quarter turn. *)
Definition quarter_turn_after (g : dihedral) : dihedral :=
  match g with
  | Rot0 => Rot1 | Rot1 => Rot2 | Rot2 => Rot3 | Rot3 => Rot0
  | Transpose => FlipUD | FlipUD => AntiTranspose
  | AntiTranspose => FlipLR | FlipLR => Transpose
  end.

(** ** Vocabulary of the transforms *)

(** [b] is a square array with the pixels of [a], possibly moved. *)
Definition same_content (n : nat) (a b : array) : Prop :=
  square n b /\ concat b ≡ₚ concat a /\ image_sum b = image_sum a.

(** A bitmap without any symmetry, to tell the eight transforms apart. *)
Definition probe : array := [[1; 1; 0]; [0; 0; 0]; [0; 0; 0]].

(** ** Vocabulary of the matcher *)

(** The static tile's side [side] and the other tile join: they hold the
    same edge, first found at [side] in the static tile's ordered edges and
    at the opposite position in the other tile's. *)
Definition valid_join (static_tile other_tile : Tile.t) (side : nat) : Prop :=
  exists (e : edge) (ls lo : list edge) (j : nat),
    Tile.list_edges static_tile = Ok ls
    /\ Tile.list_edges other_tile = Ok lo
    /\ index ls e = Ok side
    /\ index lo e = Ok j
    /\ (side, j) ∈ opposite_sides.

(** The choice of [set.pop] used to run the examples: the first element. *)
Definition pop_first (step : nat) (s : edge_set) : edge := hd [] s.

(** Two tiles that share the edge 1 1 0, the top edge of the static tile,
    for which the search finds no valid match: the other tile carries that
    edge on two facing sides at once, and [index] reports the first of them,
    top or left, never the bottom side that the static tile's top needs. *)
Definition static_ex : Tile.t := Tile.mk 1 [[1; 1; 0]; [1; 0; 1]; [1; 0; 0]].
Definition other_ex : Tile.t := Tile.mk 2 [[0; 1; 1]; [0; 0; 0]; [0; 1; 1]].
Definition other_ex_final : Tile.t :=
  Tile.mk 2 [[1; 1; 0]; [0; 0; 0]; [1; 1; 0]].

(** A tile that joins [static_ex]: after one quarter turn its bottom edge is
    the top edge of [static_ex]. *)
Definition upper_ex : Tile.t := Tile.mk 3 [[1; 0; 1]; [1; 0; 0]; [0; 1; 1]].
Definition upper_ex_final : Tile.t :=
  Tile.mk 3 [[1; 0; 1]; [0; 0; 1]; [1; 1; 0]].

(** [set.pop] returns a member of the set. *)
Definition pop_member (pop : nat -> edge_set -> edge) : Prop :=
  forall (step : nat) (s : edge_set), s <> [] -> pop step s ∈ s.

(** The other tile as iteration [i] of the matcher turns it. *)
Definition tile_step (i : nat) (other_tile : Tile.t) : Tile.t :=
  Tile.rotate
    (if (i =? 4)%nat then Tile.reflect_left_right other_tile else other_tile)
    1.

(** The tiles that the iterations [steps] look at, in order. *)
Fixpoint tiles_from (steps : list nat) (other_tile : Tile.t) : list Tile.t :=
  match steps with
  | [] => []
  | i :: steps' =>
      tile_step i other_tile :: tiles_from steps' (tile_step i other_tile)
  end.

Definition searched_tiles (other_tile : Tile.t) : list Tile.t :=
  tiles_from (range 8) other_tile.

(** [other_tile.edges & static_tile.edges]. *)
Definition shared_edges (static_tile other_tile : Tile.t) : res edge_set :=
  oe ← Tile.edges other_tile;
  se ← Tile.edges static_tile;
  Ok (list_intersection oe se).

(** The first positions of an edge in the ordered edges of the two tiles. *)
Definition positions (static_tile other_tile : Tile.t) (e : edge)
    : res (nat * nat) :=
  ls ← Tile.list_edges static_tile;
  i ← index ls e;
  lo ← Tile.list_edges other_tile;
  j ← index lo e;
  Ok (i, j).

(** Iteration [i] of the matcher on the tile [t] ends without a valid match:
    either no edge is shared or [check_match] returns [None]. *)
Definition no_match_at (pop : nat -> edge_set -> edge)
    (static_tile : Tile.t) (i : nat) (t : Tile.t) : Prop :=
  exists s, shared_edges static_tile t = Ok s
            /\ (s = [] \/ check_match pop i static_tile t s = Ok None).

(** ** Vocabulary of the placement step *)

(** The value fits a cell of a 64-bit integer array. *)
Definition int64 (v : Z) : Prop := - 2 ^ 63 <= v < 2 ^ 63.

(** [g'] is [g] with the cell of row [a], column [b] set to [v]. *)
Definition written (n : nat) (g g' : grid) (a b : nat) (v : Z) : Prop :=
  square n g'
  /\ pixel_at g' a b = v
  /\ forall a' b', (a', b') <> (a, b) -> pixel_at g' a' b' = pixel_at g a' b'.

(** ** Vocabulary of the scanner *)

(** A 20 by 20 bitmap with one monster in its first three rows and one more
    set pixel in its last row. *)
Definition monster_image : list (list Z) :=
  monster ++ replicate 16 (replicate 20 0) ++ [replicate 19 0 ++ [1]].

(** ** Vocabulary of the corner orientation *)

(** The list [f 0; ...; f (n-1)]. *)
Definition tabulate (n : nat) (f : nat -> Z) : list Z := map f (seq 0 n).

(** ** Vocabulary of part one *)

(** The product of the elements of a finite set of integers. *)
Definition product (s : gset Z) : Z := set_fold Z.mul 1 s.

(** The candidate neighbours that an adjacency map records for a tile. *)
Definition neighbours (d : gmap Z (gset Z)) (t : Z) : gset Z :=
  default ∅ (d !! t).

(** Two edge sets match when an edge of one is an edge of the other, read in
    either direction. *)
Definition edges_match (ei ej : list (list Z)) : Prop :=
  exists e, e ∈ ej /\ (e ∈ ei \/ rev e ∈ ei).

(** The edge sets of the tiles [t] and [u] of the dictionary match. *)
Definition tiles_match (tiles : list (Z * Tile.t)) (t u : Z) : Prop :=
  exists tt tu et eu,
    getitem tiles t = Ok tt /\ getitem tiles u = Ok tu
    /\ Tile.edges tt = Ok et /\ Tile.edges tu = Ok eu
    /\ edges_match et eu.

(** Tiles [t] and [u] of the dictionary are candidate neighbours: they are
    two different tiles whose edge sets match. *)
Definition candidate (tiles : list (Z * Tile.t)) (t u : Z) : Prop :=
  t <> u /\ tiles_match tiles t u.

(** Three tiles that are candidate neighbours of one another. *)
Definition three_tiles : list (Z * Tile.t) :=
  [(2, Tile.mk 2 [[0; 0]; [0; 0]]);
   (3, Tile.mk 3 [[0; 0]; [0; 1]]);
   (5, Tile.mk 5 [[1; 0]; [0; 0]])].

(** ** Vocabulary of the algebra of the transforms *)

(** The symmetry [act n g ∘ act n h]: its source pixel is the source by [h]
    of the source by [g].  It is looked up among the eight symmetries by its
    effect on a 3 by 3 grid; [source_pixel_compose] shows that the choice is
    right for every size. *)
Definition compose (g h : dihedral) : dihedral :=
  hd Rot0
    (filter
       (fun k =>
          forallb
            (fun ij : nat * nat =>
               bool_decide
                 (source_pixel 3 k ij.1 ij.2
                  = source_pixel 3 h (source_pixel 3 g ij.1 ij.2).1
                                     (source_pixel 3 g ij.1 ij.2).2))
            (list_prod [0; 1; 2] [0; 1; 2])%nat)
       all_dihedral).

(** The rotation by [k] quarter turns. *)
Definition rot_of (k : Z) : dihedral :=
  match Z.to_nat (k mod 4) with
  | 0%nat => Rot0
  | 1%nat => Rot1
  | 2%nat => Rot2
  | _ => Rot3
  end.

(** The ordered edges of a tile after a symmetry, from the ordered edges
    [top; bottom; left; right] before it. *)
Definition edges_after (g : dihedral) (l : list (list Z)) : list (list Z) :=
  match l with
  | [t; b; l; r] =>
      match g with
      | Rot0 => [t; b; l; r]
      | Rot1 => [r; l; rev t; rev b]
      | Rot2 => [rev b; rev t; rev r; rev l]
      | Rot3 => [rev l; rev r; b; t]
      | Transpose => [l; r; t; b]
      | FlipUD => [b; t; rev l; rev r]
      | AntiTranspose => [rev r; rev l; rev b; rev t]
      | FlipLR => [rev t; rev b; r; l]
      end
  | _ => l
  end.

(** Two sets of edges hold the same borders when reading direction is
    ignored. *)
Definition same_borders (es es' : list (list Z)) : Prop :=
  forall e, (e ∈ es' \/ rev e ∈ es') <-> (e ∈ es \/ rev e ∈ es).

(** ** Vocabulary of the adjacency finder *)

(** The image has a first row with a first pixel, so that the four borders
    can be read. *)
Definition has_pixel (t : Tile.t) : Prop :=
  match Tile.image t with
  | (_ :: _) :: _ => True
  | _ => False
  end.

(** [t'] is [t] after any sequence of calls of its transforms. *)
Inductive oriented_as (t : Tile.t) : Tile.t -> Prop :=
| oriented_refl : oriented_as t t
| oriented_rotate t' k :
    oriented_as t t' -> oriented_as t (Tile.rotate t' k)
| oriented_reflect_up_down t' :
    oriented_as t t' -> oriented_as t (Tile.reflect_up_down t')
| oriented_reflect_left_right t' :
    oriented_as t t' -> oriented_as t (Tile.reflect_left_right t').

(** The same dictionary with every tile in some other orientation. *)
Definition reoriented (tiles tiles' : list (Z * Tile.t)) : Prop :=
  Forall2 (fun kt kt' => kt.1 = kt'.1 /\ oriented_as kt.2 kt'.2) tiles tiles'.

(** [three_tiles] with the second tile rotated and the third reflected. *)
Definition three_tiles_turned : list (Z * Tile.t) :=
  [(2, Tile.mk 2 [[0; 0]; [0; 0]]);
   (3, Tile.rotate (Tile.mk 3 [[0; 0]; [0; 1]]) 1);
   (5, Tile.reflect_up_down (Tile.mk 5 [[1; 0]; [0; 0]]))].

(** A dictionary whose second tile has no pixel. *)
Definition tiles_with_blank : list (Z * Tile.t) :=
  [(2, Tile.mk 2 [[0; 0]; [0; 0]]); (3, Tile.mk 3 [])].

(** ** Vocabulary of the search for a join *)

(** The ordered edges [ls] and [lo] of two tiles have one border in common
    when reading direction is ignored: side [i] of the first and side [j] of
    the second, and no other pair of sides. *)
Definition only_shared_border (ls lo : list (list Z)) (i j : nat) : Prop :=
  forall i' j' a b,
    ls !! i' = Some a -> lo !! j' = Some b -> a = b \/ a = rev b ->
    i' = i /\ j' = j.

(** Two 4 by 4 tiles with one common border: the right edge 1 1 0 0 of the
    first is the top edge of the second. *)
Definition left_ex : Tile.t :=
  Tile.mk 7 [[0; 1; 1; 1]; [1; 0; 0; 1]; [0; 1; 0; 0]; [1; 1; 1; 0]].
Definition right_ex : Tile.t :=
  Tile.mk 9 [[1; 1; 0; 0]; [0; 1; 1; 1]; [1; 1; 1; 1]; [1; 0; 0; 0]].

(** ** Vocabulary of the placement *)

(** The cell that line 157 to 164 assign for a matched side, from the cell
    [(a, b)] of the current tile: above for 0, below for 1, to the left
    for 2, and to the right for 3. *)
Definition side_cell (side : nat) (a b : Z) : Z * Z :=
  match side with
  | 0%nat => (a - 1, b)
  | 1%nat => (a + 1, b)
  | 2%nat => (a, b - 1)
  | _ => (a, b + 1)
  end.

(** The cell of row [a], column [b], when there is one. *)
Definition cell (g : list (list Z)) (a b : nat) : option Z :=
  r ← g !! a; r !! b.

(** [(a', b')] comes before [(a, b)] in row-major order. *)
Definition row_major_before (a' b' a b : nat) : Prop :=
  (a' < a)%nat \/ (a' = a /\ (b' < b)%nat).

(** A grid with the current tile 5 in its last row and last column. *)
Definition grid_ex : list (list Z) := [[1; 2; 3]; [4; 6; 8]; [9; 7; 5]].

(** A dictionary with the tiles [left_ex] and [right_ex], and a grid that
    holds the first of them. *)
Definition pair_ex : list (Z * Tile.t) := [(7, left_ex); (9, right_ex)].
Definition pair_grid_ex : list (list Z) := [[7; 0]; [0; 0]].

(** ** Vocabulary of the count of monsters *)

(** Every pixel of the array is 0 or 1. *)
Definition bitmap (m : list (list Z)) : Prop :=
  Forall (Forall (fun x => x = 0 \/ x = 1)) m.

(** The cells of the pattern that hold a [#], as (row, column). *)
Definition monster_cells : list (nat * nat) :=
  List.filter (fun ab : nat * nat => pixel_at monster ab.1 ab.2 =? 1)
    (list_prod (seq 0 (shape0 monster)) (seq 0 (shape1 monster))).

(** Every [#] of the pattern, laid with its corner on row [i] and column
    [j], covers a pixel that is set. *)
Definition monster_at (m : list (list Z)) (i j : nat) : bool :=
  forallb (fun ab : nat * nat => pixel_at m (i + ab.1) (j + ab.2) =? 1)
    monster_cells.

(** The corners of the 3 by 20 windows of an [n] by [n] image. *)
Definition windows (n : nat) : list (nat * nat) :=
  list_prod (seq 0 (n - 2)) (seq 0 (n - 19)).

(** The test of the scan on the window with corner [(i, j)]:
    [(monster * sub_image).sum() == monster_pixels]. *)
Definition window_matches (m : list (list Z)) (i j : nat) : bool :=
  image_sum (mul_images monster
               (sub_image m i j (shape0 monster) (shape1 monster)))
  =? image_sum monster.

(** The windows of an [n] by [n] bitmap on which the pattern lies. *)
Definition monsters_found (n : nat) (m : list (list Z)) : list (nat * nat) :=
  List.filter (fun ij : nat * nat => monster_at m ij.1 ij.2) (windows n).

(** ** Vocabulary of the first corner *)

(** Some tile of [neighbour_ids] carries the edge [e], in either reading
    direction. *)
Definition matched_by (tiles : list (Z * Tile.t)) (neighbour_ids : list Z)
    (e : list Z) : Prop :=
  exists k t es,
    k ∈ neighbour_ids /\ getitem tiles k = Ok t /\ Tile.edges t = Ok es
    /\ (e ∈ es \/ rev e ∈ es).

(** The pairs of adjacent sides, as positions in [top; bottom; left;
    right]. *)
Definition corner_sides : list (nat * nat) :=
  [(0, 3); (1, 3); (1, 2); (0, 2)]%nat.

(** A corner and two tiles that carry its bottom and left edges. *)
Definition corner_ex : list (Z * Tile.t) :=
  [(1, static_ex);
   (4, Tile.mk 4 [[1; 0; 0]; [0; 0; 0]; [0; 0; 0]]);
   (6, Tile.mk 6 [[1; 1; 1]; [0; 0; 0]; [0; 0; 0]])].

(** A tile whose top and left edges are equal, with two tiles that carry
    the edge of its two other sides. *)
Definition flat_corner_ex : list (Z * Tile.t) :=
  [(1, Tile.mk 1 [[1; 0; 1]; [0; 0; 1]; [1; 1; 0]]);
   (4, Tile.mk 4 [[1; 1; 0]; [0; 0; 0]; [0; 0; 0]]);
   (6, Tile.mk 6 [[0; 1; 1]; [0; 0; 0]; [0; 0; 0]])].

(** ** Vocabulary: borders in common *)

(** Some border of the first tile is a border of the second, read in the
    same direction or backwards. *)
Definition common_border (ls lo : list (list Z)) : Prop :=
  exists a b, a ∈ ls /\ b ∈ lo /\ (a = b \/ a = rev b).

(** ** Vocabulary of the composite image *)

(** The pixel [(x, y)] lies in the 8 by 8 block of the grid cell
    [(i, j)]. *)
Definition in_block (i j x y : nat) : Prop :=
  (i * 8 <= x < i * 8 + 8)%nat /\ (j * 8 <= y < j * 8 + 8)%nat.

(** The identifier occurs in the grid. *)
Definition placed (id_grid : list (list Z)) (tile_id : Z) : Prop :=
  exists r, r ∈ id_grid /\ tile_id ∈ r.

(** A tile of 10 by 10 pixels, numbered by row and column, and a grid that
    holds its identifier in the second column. *)
Definition numbered_tile : Tile.t :=
  Tile.mk 3 (map (fun i => map (fun j => Z.of_nat (10 * i + j)) (seq 0 10))
               (seq 0 10)).
Definition numbered_grid : list (list Z) := [[0; 3]; [0; 0]].

(** ** Vocabulary of the pixel totals *)

(** The sum of [f x y] over the cells of an [n] by [n] array. *)
Definition sum_pixels (n : nat) (f : nat -> nat -> Z) : Z :=
  sumZ (map (fun x => sumZ (map (f x) (seq 0 n))) (seq 0 n)).

(** The number of set pixels inside the tiles of a dictionary. *)
Definition interior_total (tiles : list (Z * Tile.t)) : Z :=
  sumZ (map (fun kt : Z * Tile.t => image_sum (interior (Tile.image kt.2)))
          tiles).

(** A 10 by 10 bitmap tile with a set border and a set diagonal. *)
Definition framed_tile : Tile.t :=
  Tile.mk 3
    (map (fun i =>
            map (fun j =>
                   if (i =? 0)%nat || (i =? 9)%nat || (j =? 0)%nat
                      || (j =? 9)%nat || (i =? j)%nat
                   then 1 else 0)
              (seq 0 10))
       (seq 0 10)).

(** * Proofs *)

(** ** Arrays: shape, pixels and pixel content under the flips *)
Section Arrays.

Local Open Scope nat_scope.

Lemma square_row n m i :
  square n m -> i < n -> length (nth i m []) = n.
Proof.
  intros [Hlen Hrows] Hi.
  apply (proj1 (List.Forall_nth _ m) Hrows). lia.
Qed.

Lemma square_shape1 n m : square n m -> shape1 m = n.
Proof.
  intros [Hlen Hrows]. destruct m as [|r m]; simpl in *; [done|].
  by inversion Hrows.
Qed.

(** Two square arrays with the same pixels are the same array. *)
Lemma square_ext n a b :
  square n a -> square n b ->
  (forall i j, i < n -> j < n -> pixel_at a i j = pixel_at b i j) ->
  a = b.
Proof.
  intros Ha Hb Hpix.
  apply (nth_ext a b [] []).
  - destruct Ha, Hb. congruence.
  - intros i Hi. assert (i < n) by (destruct Ha; lia).
    apply (nth_ext _ _ 0%Z 0%Z).
    + rewrite !(square_row n) by done. done.
    + intros j Hj. rewrite (square_row n) in Hj by done.
      by apply Hpix.
Qed.

Lemma square_flipud n m : square n m -> square n (flipud m).
Proof.
  intros [Hlen Hrows]. split.
  - unfold flipud. by rewrite length_rev.
  - by apply Forall_rev.
Qed.

Lemma square_fliplr n m : square n m -> square n (fliplr m).
Proof.
  intros [Hlen Hrows]. split.
  - unfold fliplr. by rewrite length_map.
  - unfold fliplr. apply List.Forall_map.
    eapply Forall_impl; [exact Hrows|].
    intros r Hr. simpl. by rewrite length_rev.
Qed.

Lemma square_transpose n m : square n m -> square n (transpose m).
Proof.
  intros Hsq. unfold transpose. rewrite (square_shape1 n) by done.
  destruct Hsq as [Hlen Hrows]. split.
  - by rewrite length_map, length_seq.
  - apply List.Forall_map, List.Forall_forall. intros j _.
    unfold column. by rewrite length_map.
Qed.

Lemma pixel_at_flipud n m i j :
  square n m -> i < n ->
  pixel_at (flipud m) i j = pixel_at m (n - 1 - i) j.
Proof.
  intros [Hlen Hrows] Hi. unfold pixel_at, flipud.
  rewrite rev_nth by lia.
  by replace (length m - S i) with (n - 1 - i) by lia.
Qed.

Lemma pixel_at_fliplr n m i j :
  square n m -> i < n -> j < n ->
  pixel_at (fliplr m) i j = pixel_at m i (n - 1 - j).
Proof.
  intros Hsq Hi Hj. unfold pixel_at, fliplr.
  change (@nil Z) with (rev (@nil Z)) at 1. rewrite map_nth.
  pose proof (square_row n m i Hsq Hi) as Hrow.
  rewrite rev_nth by lia.
  by replace (length (nth i m []) - S j) with (n - 1 - j) by lia.
Qed.

Lemma pixel_at_transpose n m i j :
  square n m -> i < n -> j < n ->
  pixel_at (transpose m) i j = pixel_at m j i.
Proof.
  intros Hsq Hi Hj. unfold pixel_at, transpose.
  rewrite (square_shape1 n) by done.
  rewrite (nth_indep _ _ (column 0 m))
    by (by rewrite length_map, length_seq).
  rewrite (map_nth (fun j => column j m)), seq_nth by done. simpl.
  unfold column.
  rewrite (nth_indep _ _ ((fun r : list Z => nth i r 0%Z) []))
    by (destruct Hsq; rewrite length_map; lia).
  by rewrite (map_nth (fun r : list Z => nth i r 0%Z)).
Qed.

(** The flips and the transposition only move pixels. *)
Lemma concat_flipud m : concat (flipud m) ≡ₚ concat m.
Proof.
  unfold flipud. induction m as [|r m IH]; simpl; [done|].
  rewrite concat_app. simpl. rewrite app_nil_r, IH.
  apply Permutation_app_comm.
Qed.

Lemma concat_fliplr m : concat (fliplr m) ≡ₚ concat m.
Proof.
  unfold fliplr. induction m as [|r m IH]; simpl; [done|].
  rewrite IH. apply Permutation_app; [|done].
  symmetry. apply Permutation_rev.
Qed.

Lemma concat_cons_columns (f : nat -> Z) (g : nat -> list Z) js :
  concat (map (fun j => f j :: g j) js) ≡ₚ map f js ++ concat (map g js).
Proof.
  induction js as [|j js IH]; simpl; [done|].
  constructor. rewrite IH.
  rewrite !app_assoc. apply Permutation_app; [|done].
  apply Permutation_app_comm.
Qed.

Lemma map_nth_seq (r : list Z) :
  map (fun j => nth j r 0%Z) (seq 0 (length r)) = r.
Proof.
  apply (nth_ext _ _ 0%Z 0%Z).
  - by rewrite length_map, length_seq.
  - intros i Hi. rewrite length_map, length_seq in Hi.
    rewrite (nth_indep _ _ (nth 0 r 0%Z))
      by (by rewrite length_map, length_seq).
    rewrite (map_nth (fun j => nth j r 0%Z)), seq_nth by done. done.
Qed.

Lemma concat_columns w m :
  Forall (fun r => length r = w) m ->
  concat (map (fun j => column j m) (seq 0 w)) ≡ₚ concat m.
Proof.
  induction 1 as [|r m Hr Hrows IH]; simpl.
  - induction (seq 0 w); simpl; done.
  - unfold column in *. simpl.
    rewrite (concat_cons_columns (fun j => nth j r 0%Z)), IH.
    apply Permutation_app; [|done]. subst w. by rewrite map_nth_seq.
Qed.

Lemma concat_transpose n m :
  square n m -> concat (transpose m) ≡ₚ concat m.
Proof.
  intros Hsq. unfold transpose. rewrite (square_shape1 n) by done.
  apply concat_columns. by destruct Hsq.
Qed.

Lemma sumZ_Permutation l1 l2 : l1 ≡ₚ l2 -> sumZ l1 = sumZ l2.
Proof. induction 1; simpl in *; lia. Qed.

Lemma last_cons_default {A : Type} (x : A) l d :
  List.last (x :: l) d = List.last l x.
Proof.
  revert x d. induction l as [|y l IH]; intros x d; [done|].
  change (List.last (x :: y :: l) d) with (List.last (y :: l) d).
  by rewrite !IH.
Qed.

End Arrays.

(** ** The transforms of the program as symmetries *)
Section Dihedral.

Local Open Scope nat_scope.

Lemma square_act n g m : square n (act n g m).
Proof.
  split.
  - unfold act. by rewrite length_map, length_seq.
  - unfold act. apply List.Forall_map, List.Forall_forall. intros i _.
    by rewrite length_map, length_seq.
Qed.

Lemma pixel_at_act n g m i j :
  i < n -> j < n ->
  pixel_at (act n g m) i j
  = pixel_at m (source_pixel n g i j).1 (source_pixel n g i j).2.
Proof.
  intros Hi Hj. unfold act.
  set (f := fun i j => pixel_at m (source_pixel n g i j).1
                                   (source_pixel n g i j).2).
  unfold pixel_at at 1.
  rewrite (nth_indep _ _ ((fun i => map (f i) (seq 0 n)) 0))
    by (by rewrite length_map, length_seq).
  rewrite (map_nth (fun i => map (f i) (seq 0 n))), seq_nth by done.
  rewrite (nth_indep _ _ (f (0 + i) 0))
    by (by rewrite length_map, length_seq).
  by rewrite (map_nth (f (0 + i))), seq_nth by done.
Qed.

Lemma source_pixel_lt n g i j :
  i < n -> j < n ->
  (source_pixel n g i j).1 < n /\ (source_pixel n g i j).2 < n.
Proof. intros Hi Hj. destruct g; simpl; lia. Qed.

Ltac by_pixels n :=
  apply (square_ext n);
  [ eauto using square_act, square_flipud, square_fliplr, square_transpose
  | eauto using square_act, square_flipud, square_fliplr, square_transpose
  | intros i j Hi Hj ].

Lemma act_Rot0 n m : square n m -> act n Rot0 m = m.
Proof. intros Hsq. by_pixels n. by rewrite pixel_at_act. Qed.

Lemma fliplr_act n m : square n m -> fliplr m = act n FlipLR m.
Proof.
  intros Hsq. by_pixels n.
  rewrite pixel_at_act by done. simpl. by apply (pixel_at_fliplr n).
Qed.

Lemma flipud_act n m : square n m -> flipud m = act n FlipUD m.
Proof.
  intros Hsq. by_pixels n.
  rewrite pixel_at_act by done. simpl. by apply (pixel_at_flipud n).
Qed.

Lemma transpose_act n m : square n m -> transpose m = act n Transpose m.
Proof.
  intros Hsq. by_pixels n.
  rewrite pixel_at_act by done. simpl. by apply (pixel_at_transpose n).
Qed.

Lemma rot90_1_act n m : square n m -> rot90 m 1 = act n Rot1 m.
Proof.
  intros Hsq. unfold rot90. simpl. by_pixels n.
  rewrite pixel_at_act by done. simpl.
  rewrite (pixel_at_transpose n) by eauto using square_fliplr.
  rewrite (pixel_at_fliplr n) by done. done.
Qed.

Lemma rot90_2_act n m : square n m -> rot90 m 2 = act n Rot2 m.
Proof.
  intros Hsq. unfold rot90. simpl. by_pixels n.
  rewrite pixel_at_act by done. simpl.
  rewrite (pixel_at_fliplr n) by eauto using square_flipud.
  rewrite (pixel_at_flipud n) by done. done.
Qed.

Lemma rot90_3_act n m : square n m -> rot90 m 3 = act n Rot3 m.
Proof.
  intros Hsq. unfold rot90. simpl. by_pixels n.
  rewrite pixel_at_act by done. simpl.
  rewrite (pixel_at_fliplr n) by eauto using square_transpose.
  rewrite (pixel_at_transpose n) by (done || lia). done.
Qed.

Lemma quarter_turn_act n g m :
  act n Rot1 (act n g m) = act n (quarter_turn_after g) m.
Proof.
  by_pixels n.
  rewrite (pixel_at_act n Rot1) by done. simpl.
  rewrite (pixel_at_act n g) by lia.
  rewrite (pixel_at_act n (quarter_turn_after g)) by done.
  destruct g; simpl; try done.
  all: by replace (n - 1 - (n - 1 - i)) with i by lia.
Qed.

Lemma step_orientation_act n g i m :
  square n m -> i <> 4 ->
  step_orientation i (act n g m) = act n (quarter_turn_after g) m.
Proof.
  intros Hsq Hi. unfold step_orientation.
  destruct (Nat.eqb_spec i 4); [done|].
  rewrite (rot90_1_act n) by apply square_act.
  apply quarter_turn_act.
Qed.

Lemma step_orientation_4 n m :
  square n m -> step_orientation 4 m = act n Transpose m.
Proof.
  intros Hsq. unfold step_orientation. simpl.
  rewrite (fliplr_act n), (rot90_1_act n) by (done || apply square_act).
  apply quarter_turn_act.
Qed.

Lemma orientations_act n m :
  square n m -> orientations m = map (fun g => act n g m) step_transforms.
Proof.
  intros Hsq. unfold orientations, range. simpl.
  assert (Hstart : step_orientation 0 m = act n Rot1 m).
  { rewrite <- (act_Rot0 n m) at 1 by done.
    by rewrite (step_orientation_act n) by (done || lia). }
  rewrite Hstart.
  rewrite !(step_orientation_act n _ _ m) by (done || lia). simpl.
  rewrite (act_Rot0 n m) by done.
  rewrite (step_orientation_4 n) by done.
  rewrite !(step_orientation_act n _ _ m) by (done || lia). simpl.
  done.
Qed.

End Dihedral.

(** ** Pixel content under the tile transforms *)
Section Content.

Lemma same_content_refl n m : square n m -> same_content n m m.
Proof. by intros Hsq. Qed.

Lemma same_content_trans n a b c :
  same_content n a b -> same_content n b c -> same_content n a c.
Proof.
  intros (_ & Hp1 & Hs1) (Hsq & Hp2 & Hs2).
  split; [done|]. split; [by rewrite Hp2|congruence].
Qed.

Lemma same_content_of_perm n a b :
  square n b -> concat b ≡ₚ concat a -> same_content n a b.
Proof.
  intros Hsq Hp. split; [done|]. split; [done|].
  by apply sumZ_Permutation.
Qed.

Lemma flipud_content n m : square n m -> same_content n m (flipud m).
Proof.
  intros Hsq. apply same_content_of_perm;
    [by apply square_flipud | apply concat_flipud].
Qed.

Lemma fliplr_content n m : square n m -> same_content n m (fliplr m).
Proof.
  intros Hsq. apply same_content_of_perm;
    [by apply square_fliplr | apply concat_fliplr].
Qed.

Lemma transpose_content n m : square n m -> same_content n m (transpose m).
Proof.
  intros Hsq. apply same_content_of_perm;
    [by apply square_transpose | by apply (concat_transpose n)].
Qed.

Lemma rot90_content n m k : square n m -> same_content n m (rot90 m k).
Proof.
  intros Hsq. unfold rot90.
  destruct (Z.eqb_spec (k mod 4) 0); [by apply same_content_refl|].
  destruct (Z.eqb_spec (k mod 4) 2).
  { eapply same_content_trans; [by apply flipud_content|].
    apply fliplr_content. by apply square_flipud. }
  destruct (Z.eqb_spec (k mod 4) 1).
  { eapply same_content_trans; [by apply fliplr_content|].
    apply transpose_content. by apply square_fliplr. }
  eapply same_content_trans; [by apply transpose_content|].
  apply fliplr_content. by apply square_transpose.
Qed.

Lemma step_orientation_content n i m :
  square n m -> same_content n m (step_orientation i m).
Proof.
  intros Hsq. unfold step_orientation. destruct (i =? 4)%nat.
  - eapply same_content_trans; [by apply fliplr_content|].
    apply rot90_content. by apply square_fliplr.
  - by apply rot90_content.
Qed.

End Content.

(** C8.  Every tile transform preserves the square shape of the image and
    its pixel content: [rotate] by any number of quarter turns,
    [reflect_up_down] and [reflect_left_right] leave an [n] by [n] image
    [n] by [n], the pixels of the result are a permutation of the pixels of
    the original (the same multiset of values), and hence the sum of the
    pixels, the number of set pixels of a bitmap, is unchanged.  The
    identifier of the tile is not touched. *)
Theorem tile_transforms_preserve_content (n : nat) (t : Tile.t) :
  square n (Tile.image t) ->
  (forall n_turns : Z,
      same_content n (Tile.image t) (Tile.image (Tile.rotate t n_turns))
      /\ Tile.id (Tile.rotate t n_turns) = Tile.id t)
  /\ (same_content n (Tile.image t) (Tile.image (Tile.reflect_up_down t))
      /\ Tile.id (Tile.reflect_up_down t) = Tile.id t)
  /\ (same_content n (Tile.image t) (Tile.image (Tile.reflect_left_right t))
      /\ Tile.id (Tile.reflect_left_right t) = Tile.id t).
Proof.
  intros Hsq. split; [|split].
  - intros k. split; [|done]. simpl. by apply rot90_content.
  - split; [|done]. simpl. by apply flipud_content.
  - split; [|done]. simpl. by apply fliplr_content.
Qed.

Lemma tile_transforms_preserve_content_witness :
  square 2 [[1; 0]; [1; 1]]
  /\ same_content 2 [[1; 0]; [1; 1]]
       (Tile.image (Tile.rotate (Tile.mk 7 [[1; 0]; [1; 1]]) (-3))).
Proof.
  assert (Hsq : square 2 [[1; 0]; [1; 1]]).
  { split; [reflexivity|]. repeat constructor. }
  split; [exact Hsq|].
  exact (proj1 (proj1
    (tile_transforms_preserve_content 2 (Tile.mk 7 [[1; 0]; [1; 1]]) Hsq)
    (-3))).
Defined.

Lemma dihedral_complete (g : dihedral) : In g all_dihedral.
Proof. destruct g; simpl; tauto. Qed.

Lemma dihedral_NoDup : List.NoDup all_dihedral.
Proof.
  unfold all_dihedral.
  repeat (constructor; [simpl; intuition discriminate|]). constructor.
Qed.

(** The eight transforms are eight different maps: they already differ on
    [probe]. *)
Lemma act_faithful (g h : dihedral) :
  act 3 g probe = act 3 h probe -> g = h.
Proof. destruct g, h; vm_compute; intros H; done. Qed.

(** ** The error monad and [list.index] *)
Section Monad.

Context {A B : Type}.

Lemma bind_Ok (r : res A) (k : A -> res B) (b : B) :
  r ≫= k = Ok b -> exists a, r = Ok a /\ k a = Ok b.
Proof. destruct r as [a|e]; simpl; [eauto|done]. Qed.

Lemma bind_Ok_l (a : A) (k : A -> res B) : Ok a ≫= k = k a.
Proof. done. Qed.

Lemma bind_Raise (r : res A) (k : A -> res B) (e : exn) :
  r = Raise e -> r ≫= k = Raise e.
Proof. by intros ->. Qed.

End Monad.

Ltac inv_bind H :=
  let a := fresh "a" in
  let Ha := fresh "Ha" in
  apply bind_Ok in H as (a & Ha & H).

Section Index.

Lemma index_lookup (l : list edge) x i :
  index l x = Ok i -> l !! i = Some x.
Proof.
  revert i. induction l as [|y l IH]; intros i H; simpl in H; [done|].
  destruct (decide (y = x)) as [->|Hne].
  - by inversion H.
  - inv_bind H. inversion H; subst. simpl. by apply IH.
Qed.

Lemma index_first (l : list edge) x i i' :
  index l x = Ok i -> (i' < i)%nat -> l !! i' <> Some x.
Proof.
  revert i i'. induction l as [|y l IH]; intros i i' H Hlt; simpl in H;
    [done|].
  destruct (decide (y = x)) as [->|Hne].
  - inversion H; subst. lia.
  - inv_bind H. inversion H; subst.
    destruct i' as [|i']; simpl; [congruence|].
    eapply IH; [done|lia].
Qed.

Lemma index_member (l : list edge) x :
  x ∈ l -> exists i, index l x = Ok i.
Proof.
  induction 1 as [x l|x y l Hin [i IH]]; simpl.
  - destruct (decide (x = x)); [eauto|done].
  - destruct (decide (y = x)); [eauto|]. rewrite IH. simpl. eauto.
Qed.

End Index.

(** ** The search of [match_two_tiles] *)
Section MatcherFacts.

Variable pop : nat -> edge_set -> edge.

Lemma check_match_side step static_tile other_tile matching_edges side :
  check_match pop step static_tile other_tile matching_edges
  = Ok (Some side) ->
  valid_join static_tile other_tile side.
Proof.
  unfold check_match. intros H.
  inv_bind H. inv_bind H. inv_bind H. inv_bind H. inv_bind H.
  case_bool_decide; [|done]. inversion H; subst.
  by repeat eexists.
Qed.

(** The tile that iteration [i] looks at. *)
Lemma match_loop_side static_tile steps other_tile m other' side :
  match_loop pop static_tile steps other_tile m
  = Ok (other', Bound (Some side)) ->
  m = Bound (Some side)
  \/ exists k,
      (k < length steps)%nat
      /\ Tile.image other'
         = nth k (orientations_from steps (Tile.image other_tile)) []
      /\ Tile.id other' = Tile.id other_tile
      /\ valid_join static_tile other' side.
Proof.
  revert other_tile m.
  induction steps as [|i steps IH]; intros other_tile m H; simpl in H.
  - inversion H; subst. by left.
  - inv_bind H. inv_bind H.
    set (t1 := Tile.rotate
                 (if (i =? 4)%nat then Tile.reflect_left_right other_tile
                  else other_tile) 1) in *.
    assert (Himg : Tile.image t1 = step_orientation i (Tile.image other_tile)).
    { unfold t1, step_orientation. by destruct (i =? 4)%nat. }
    assert (Hid : Tile.id t1 = Tile.id other_tile).
    { unfold t1. by destruct (i =? 4)%nat. }
    assert (Hlater : forall m',
      match_loop pop static_tile steps t1 m' = Ok (other', Bound (Some side)) ->
      m' = Bound (Some side)
      \/ exists k,
          (k < length (i :: steps))%nat
          /\ Tile.image other'
             = nth k (orientations_from (i :: steps) (Tile.image other_tile)) []
          /\ Tile.id other' = Tile.id other_tile
          /\ valid_join static_tile other' side).
    { intros m' H'. apply IH in H' as [?|(k & Hk & Hi & Hd & Hv)]; [by left|].
      right. exists (S k). simpl. split; [lia|]. rewrite <- Himg.
      split; [done|]. split; [congruence|done]. }
    case_bool_decide.
    + inv_bind H. destruct a1 as [s|].
      * inversion H; subst. right. exists 0%nat. simpl.
        split; [lia|]. split; [done|]. split; [done|].
        by eapply check_match_side.
      * by apply Hlater in H as [?|?]; [|right].
    + by apply Hlater in H.
Qed.

Lemma match_two_tiles_Ok static_tile other_tile other' v :
  match_two_tiles pop static_tile other_tile = Ok (other', v) ->
  match_loop pop static_tile (range 8) other_tile Unbound
  = Ok (other', Bound v).
Proof.
  unfold match_two_tiles. intros H. inv_bind H.
  destruct a as [t [|v']]; [done|]. by inversion H; subst.
Qed.

End MatcherFacts.

(** C1.  Whenever [match_two_tiles] returns a side index [side], the other
    tile has been left in one of the eight orientations of the search, and in
    that orientation the two tiles hold a common edge [e] whose first
    position in the static tile's ordered edges [top, bottom, left, right] is
    [side] and whose first position [j] in the other tile's ordered edges is
    the opposite side: [(side, j)] is one of (top, bottom), (bottom, top),
    (left, right), (right, left).  This holds whatever element [set.pop]
    picks. *)
Theorem match_two_tiles_opposite_sides
    (pop : nat -> edge_set -> edge) (static_tile other_tile other' : Tile.t)
    (side : nat) :
  match_two_tiles pop static_tile other_tile = Ok (other', Some side) ->
  (exists k : nat,
      (k < 8)%nat
      /\ Tile.image other' = nth k (orientations (Tile.image other_tile)) [])
  /\ Tile.id other' = Tile.id other_tile
  /\ exists (e : edge) (ls lo : list edge) (j : nat),
      Tile.list_edges static_tile = Ok ls
      /\ Tile.list_edges other' = Ok lo
      /\ index ls e = Ok side /\ ls !! side = Some e
      /\ index lo e = Ok j /\ lo !! j = Some e
      /\ (side, j) ∈ opposite_sides.
Proof.
  intros H. apply match_two_tiles_Ok, match_loop_side in H
    as [?|(k & Hk & Hi & Hd & (e & ls & lo & j & Hls & Hlo & Hi1 & Hi2 & Hop))];
    [done|].
  split; [by exists k|]. split; [done|].
  exists e, ls, lo, j. eauto 10 using index_lookup.
Qed.

Lemma match_two_tiles_opposite_sides_witness :
  match_two_tiles pop_first static_ex upper_ex
  = Ok (upper_ex_final, Some 0%nat)
  /\ exists (e : edge) (ls lo : list edge) (j : nat),
      Tile.list_edges static_ex = Ok ls
      /\ Tile.list_edges upper_ex_final = Ok lo
      /\ index ls e = Ok 0%nat /\ ls !! 0%nat = Some e
      /\ index lo e = Ok j /\ lo !! j = Some e
      /\ (0%nat, j) ∈ opposite_sides.
Proof.
  assert (Hrun : match_two_tiles pop_first static_ex upper_ex
                 = Ok (upper_ex_final, Some 0%nat))
    by (vm_compute; reflexivity).
  split; [exact Hrun|].
  exact (proj2 (proj2
    (match_two_tiles_opposite_sides pop_first static_ex upper_ex
       upper_ex_final 0 Hrun))).
Defined.

(** ** One iteration of the search, when no valid match is found *)
Section MatcherRun.

Variable pop : nat -> edge_set -> edge.
Hypothesis pop_in : pop_member pop.

Lemma set_pop_singleton step e : set_pop pop step [e] = Ok e.
Proof.
  simpl. f_equal. specialize (pop_in step [e]).
  assert (H : pop step [e] ∈ [e]) by (by apply pop_in).
  by apply list_elem_of_singleton in H.
Qed.

Lemma match_loop_skip static_tile i steps other_tile m :
  shared_edges static_tile (tile_step i other_tile) = Ok [] ->
  match_loop pop static_tile (i :: steps) other_tile m
  = match_loop pop static_tile steps (tile_step i other_tile) m.
Proof.
  unfold shared_edges. intros H. simpl. fold (tile_step i other_tile).
  inv_bind H. inv_bind H. inversion H as [Hnil]. rewrite Ha, Ha0. simpl.
  by rewrite Hnil.
Qed.

Lemma match_loop_reject static_tile i steps other_tile m e a b :
  shared_edges static_tile (tile_step i other_tile) = Ok [e] ->
  positions static_tile (tile_step i other_tile) e = Ok (a, b) ->
  bool_decide ((a, b) ∈ opposite_sides) = false ->
  match_loop pop static_tile (i :: steps) other_tile m
  = match_loop pop static_tile steps (tile_step i other_tile) (Bound None).
Proof.
  unfold shared_edges, positions. intros H Hpos Hnot.
  simpl. fold (tile_step i other_tile).
  inv_bind H. inv_bind H. inversion H as [Hone]. rewrite Ha, Ha0. simpl.
  rewrite Hone. simpl bool_decide. cbv iota.
  unfold check_match. rewrite set_pop_singleton. simpl.
  inv_bind Hpos. inv_bind Hpos. inv_bind Hpos. inv_bind Hpos.
  inversion Hpos; subst. rewrite Ha1. simpl. rewrite Ha2. simpl.
  rewrite Ha3. simpl. rewrite Ha4. simpl.
  by rewrite Hnot.
Qed.

Lemma match_loop_continue static_tile i steps other_tile m s :
  shared_edges static_tile (tile_step i other_tile) = Ok s ->
  s <> [] ->
  check_match pop i static_tile (tile_step i other_tile) s = Ok None ->
  match_loop pop static_tile (i :: steps) other_tile m
  = match_loop pop static_tile steps (tile_step i other_tile) (Bound None).
Proof.
  unfold shared_edges. intros H Hne Hcheck.
  simpl. fold (tile_step i other_tile).
  inv_bind H. inv_bind H. inversion H as [Hs]. rewrite Ha, Ha0. simpl.
  rewrite Hs, bool_decide_eq_true_2 by done.
  by rewrite Hcheck.
Qed.

End MatcherRun.

(** ** The placement step *)
Section Placement.

Lemma find_in_row_Some v r j :
  find_in_row v r = Some j -> (j < length r)%nat.
Proof.
  revert j. induction r as [|x r IH]; intros j H; simpl in *; [done|].
  destruct (decide (x = v)).
  - inversion H. lia.
  - destruct (find_in_row v r) as [j'|]; [|done].
    inversion H. specialize (IH j' eq_refl). lia.
Qed.

Lemma where_from_Ok k g v i j :
  where_from k g v = Ok (i, j) ->
  exists i' j' : nat,
    i = Z.of_nat (k + i') /\ j = Z.of_nat j'
    /\ (i' < length g)%nat /\ (j' < length (nth i' g []))%nat.
Proof.
  revert k. induction g as [|r g IH]; intros k H; simpl in H; [done|].
  destruct (find_in_row v r) as [j'|] eqn:Hr.
  - inversion H; subst. exists 0%nat, j'. simpl.
    split; [f_equal; lia|]. split; [done|]. split; [lia|].
    by eapply find_in_row_Some.
  - apply IH in H as (i' & j' & -> & -> & Hi & Hj).
    exists (S i'), j'. simpl. split; [f_equal; lia|]. split; [done|].
    split; [lia|done].
Qed.

Lemma where_first_Ok n g v i j :
  square n g -> where_first g v = Ok (i, j) ->
  0 <= i < Z.of_nat n /\ 0 <= j < Z.of_nat n.
Proof.
  intros Hsq H. apply where_from_Ok in H as (i' & j' & -> & -> & Hi & Hj).
  assert (i' < n)%nat by (destruct Hsq; lia).
  rewrite (square_row n) in Hj by done. lia.
Qed.

Lemma normalize_index_nonneg k n :
  0 <= k < Z.of_nat n -> normalize_index k n = Ok (Z.to_nat k).
Proof.
  intros Hk. unfold normalize_index.
  destruct (Z.leb_spec 0 k), (Z.ltb_spec k (Z.of_nat n)); simpl; done || lia.
Qed.

Lemma normalize_index_negative k n :
  - Z.of_nat n <= k < 0 ->
  normalize_index k n = Ok (Z.to_nat (k + Z.of_nat n)).
Proof.
  intros Hk. unfold normalize_index.
  destruct (Z.leb_spec 0 k); [lia|]. simpl.
  destruct (Z.leb_spec (- Z.of_nat n) k), (Z.ltb_spec k 0); simpl;
    done || lia.
Qed.

Lemma setitem_written n g i j a b v :
  square n g -> int64 v ->
  normalize_index i n = Ok a -> normalize_index j n = Ok b ->
  (a < n)%nat -> (b < n)%nat ->
  exists g', setitem g (i, j) v = Ok g' /\ written n g g' a b v.
Proof.
  intros Hsq Hv Hi Hj Ha Hb. unfold setitem. cbn [fst snd].
  unfold shape0. rewrite (square_shape1 n) by done.
  destruct Hsq as [Hlen Hrows].
  rewrite Hlen, Hi, bind_Ok_l, Hj, bind_Ok_l.
  destruct Hv as [Hlo Hhi].
  destruct (Z.leb_spec (- 2 ^ 63) v); [|lia].
  destruct (Z.ltb_spec v (2 ^ 63)); [|lia]. cbn [andb].
  eexists. split; [done|].
  assert (Hrow : forall a', (a' < n)%nat -> length (nth a' g []) = n).
  { intros a' Ha'. by apply (square_row n). }
  split; [|split].
  - split; [by rewrite length_alter|].
    apply List.Forall_nth. intros a' d Ha'. rewrite length_alter in Ha'.
    rewrite (nth_indep _ _ []) by (rewrite length_alter; lia).
    rewrite nth_lookup, list_lookup_alter.
    destruct (decide (a = a')) as [->|Hne].
    + rewrite <- (Hrow a') by lia. rewrite nth_lookup.
      destruct (g !! a'); simpl; [by rewrite length_insert|done].
    + rewrite <- nth_lookup. apply Hrow. lia.
  - unfold pixel_at. rewrite (nth_lookup _ a), list_lookup_alter.
    destruct (decide (a = a)); [|done].
    pose proof (Hrow a Ha) as Hra. rewrite nth_lookup in Hra.
    destruct (g !! a) as [r|]; simpl in *; [|lia].
    by rewrite nth_lookup, list_lookup_insert_eq by lia.
  - intros a' b' Hne. unfold pixel_at.
    rewrite !(nth_lookup _ a'), list_lookup_alter.
    destruct (decide (a = a')) as [->|Hne']; [|done].
    destruct (g !! a') as [r|]; simpl; [|done].
    rewrite !nth_lookup, list_lookup_insert_ne; [done|congruence].
Qed.

Lemma place_other id_grid current_id neighbour i j v :
  where_first id_grid current_id = Ok (i, j) ->
  v <> Some 0%nat -> v <> Some 1%nat -> v <> Some 2%nat ->
  place id_grid current_id neighbour v
  = setitem id_grid (i, j + 1) neighbour.
Proof.
  intros Hw H0 H1 H2. unfold place. rewrite Hw. simpl.
  destruct v as [[|[|[|s]]]|]; simpl; done.
Qed.

End Placement.

(** C10.  In the placement step on an [n] by [n] grid, when the matcher
    reports side top (0) and the current tile is in row 0, the assignment to
    [id_grid[(i - 1, j)]] does not fail: the index -1 wraps around and the
    neighbour's identifier is written into the last row, same column, all
    other cells unchanged.  In the same way side left (2) with the current
    tile in column 0 writes into the last column of the same row. *)
Theorem place_wraps_around (n : nat) (id_grid : grid)
    (current_id neighbour : Z) (i j : Z) :
  square n id_grid -> int64 neighbour ->
  where_first id_grid current_id = Ok (i, j) ->
  (i = 0 ->
   exists g', place id_grid current_id neighbour (Some 0%nat) = Ok g'
              /\ written n id_grid g' (n - 1) (Z.to_nat j) neighbour)
  /\ (j = 0 ->
      exists g', place id_grid current_id neighbour (Some 2%nat) = Ok g'
                 /\ written n id_grid g' (Z.to_nat i) (n - 1) neighbour).
Proof.
  intros Hsq Hv Hw.
  destruct (where_first_Ok n _ _ _ _ Hsq Hw) as [Hi Hj].
  split; intros ->; unfold place; rewrite Hw; simpl.
  - apply (setitem_written n); try done; try lia.
    + rewrite normalize_index_negative by lia. f_equal. lia.
    + by apply normalize_index_nonneg.
  - apply (setitem_written n); try done; try lia.
    + by apply normalize_index_nonneg.
    + rewrite normalize_index_negative by lia. f_equal. lia.
Qed.

Lemma place_wraps_around_witness :
  place [[5; 0; 0]; [0; 0; 0]; [0; 0; 0]] 5 7 (Some 0%nat)
  = Ok [[5; 0; 0]; [0; 0; 0]; [7; 0; 0]]
  /\ exists g',
      place [[5; 0; 0]; [0; 0; 0]; [0; 0; 0]] 5 7 (Some 2%nat) = Ok g'
      /\ written 3 [[5; 0; 0]; [0; 0; 0]; [0; 0; 0]] g' 0 2 7.
Proof.
  split; [reflexivity|].
  refine (proj2 (place_wraps_around 3 [[5; 0; 0]; [0; 0; 0]; [0; 0; 0]]
                   5 7 0 0 _ _ _) _).
  - split; [reflexivity|]. repeat constructor.
  - unfold int64. lia.
  - reflexivity.
  - reflexivity.
Defined.

Lemma pop_first_member : pop_member pop_first.
Proof.
  intros step [|e s] Hne; [done|]. unfold pop_first. simpl. by left.
Qed.

Section ExampleRun.

Variable pop : nat -> edge_set -> edge.
Hypothesis pop_in : pop_member pop.

(** The whole search on the example pair: the shared edge is seen at steps
    0, 1, 6 and 7, each time on adjacent or equal sides. *)
Lemma match_loop_example :
  match_loop pop static_ex (range 8) other_ex Unbound
  = Ok (other_ex_final, Bound None).
Proof.
  change (range 8) with [0; 1; 2; 3; 4; 5; 6; 7]%nat.
  rewrite (match_loop_reject pop pop_in _ _ _ _ _ [1; 1; 0] 0%nat 2%nat)
    by (vm_compute; reflexivity).
  rewrite (match_loop_reject pop pop_in _ _ _ _ _ [1; 1; 0] 0%nat 0%nat)
    by (vm_compute; reflexivity).
  do 4 rewrite match_loop_skip by (vm_compute; reflexivity).
  rewrite (match_loop_reject pop pop_in _ _ _ _ _ [1; 1; 0] 0%nat 2%nat)
    by (vm_compute; reflexivity).
  rewrite (match_loop_reject pop pop_in _ _ _ _ _ [1; 1; 0] 0%nat 0%nat)
    by (vm_compute; reflexivity).
  vm_compute. reflexivity.
Qed.

Lemma match_two_tiles_example :
  match_two_tiles pop static_ex other_ex = Ok (other_ex_final, None).
Proof. unfold match_two_tiles. by rewrite match_loop_example. Qed.

End ExampleRun.

(** ** A search that finds no valid match *)
Section Exhausted.

Variable pop : nat -> edge_set -> edge.
Variable static_tile : Tile.t.

Lemma match_loop_exhausted steps other_tile m :
  (forall k i t, steps !! k = Some i ->
                 tiles_from steps other_tile !! k = Some t ->
                 no_match_at pop static_tile i t) ->
  exists m',
    match_loop pop static_tile steps other_tile m
    = Ok (List.last (tiles_from steps other_tile) other_tile, m')
    /\ (m' = m \/ m' = Bound None)
    /\ ((forall k t, tiles_from steps other_tile !! k = Some t ->
                     shared_edges static_tile t = Ok []) -> m' = m)
    /\ ((exists k t, tiles_from steps other_tile !! k = Some t
                     /\ shared_edges static_tile t <> Ok []) ->
        m' = Bound None).
Proof.
  revert other_tile m.
  induction steps as [|i steps IH]; intros other_tile m Hex.
  - exists m. split; [done|]. split; [by left|]. split; [done|].
    by intros (k & t & Hk & _).
  - destruct (Hex 0%nat i (tile_step i other_tile) eq_refl eq_refl)
      as (s & Hs & Hcase).
    assert (Hex' : forall k i' t, steps !! k = Some i' ->
              tiles_from steps (tile_step i other_tile) !! k = Some t ->
              no_match_at pop static_tile i' t).
    { intros k i' t Hk Ht. by apply (Hex (S k)). }
    change (tiles_from (i :: steps) other_tile)
      with (tile_step i other_tile
              :: tiles_from steps (tile_step i other_tile)).
    rewrite last_cons_default.
    destruct (decide (s = [])) as [->|Hne].
    + rewrite match_loop_skip by done.
      destruct (IH (tile_step i other_tile) m Hex')
        as (m' & Hrun & Hm' & Hnone & Hsome).
      exists m'. split; [done|]. split; [done|]. split.
      * intros Hall. apply Hnone. intros k t Ht. by apply (Hall (S k)).
      * intros (k & t & Ht & Hshared). destruct k as [|k].
        { injection Ht as <-. by rewrite Hs in Hshared. }
        apply Hsome. by exists k, t.
    + destruct Hcase as [?|Hcheck]; [done|].
      rewrite (match_loop_continue pop _ _ _ _ _ s) by done.
      destruct (IH (tile_step i other_tile) (Bound None) Hex')
        as (m' & Hrun & Hm' & Hnone & Hsome).
      assert (m' = Bound None) as -> by (by destruct Hm').
      exists (Bound None). split; [done|]. split; [by right|]. split.
      * intros Hall. specialize (Hall 0%nat _ eq_refl).
        rewrite Hs in Hall. by injection Hall.
      * done.
Qed.

End Exhausted.

(** C5.  When the search of [match_two_tiles] goes through its eight
    orientations and none of them gives a valid opposite-side match (at each
    step either no edge is shared or [check_match] returns [None]), the call
    does not return a side value: it raises [UnboundLocalError] at
    [return m] when no orientation shared any edge, and otherwise it returns
    [None], leaving the other tile in the eighth orientation. *)
Theorem match_two_tiles_exhausted (pop : nat -> edge_set -> edge)
    (static_tile other_tile : Tile.t) :
  (forall k t, searched_tiles other_tile !! k = Some t ->
               no_match_at pop static_tile k t) ->
  (forall other' side,
      match_two_tiles pop static_tile other_tile <> Ok (other', Some side))
  /\ ((forall k t, searched_tiles other_tile !! k = Some t ->
                   shared_edges static_tile t = Ok []) ->
      match_two_tiles pop static_tile other_tile = Raise UnboundLocalError)
  /\ ((exists k t, searched_tiles other_tile !! k = Some t
                   /\ shared_edges static_tile t <> Ok []) ->
      match_two_tiles pop static_tile other_tile
      = Ok (List.last (searched_tiles other_tile) other_tile, None)).
Proof.
  intros Hex. unfold searched_tiles in *.
  destruct (match_loop_exhausted pop static_tile (range 8) other_tile Unbound)
    as (m' & Hrun & Hm' & Hnone & Hsome).
  { intros k i t Hi Ht. apply lookup_seq in Hi as [-> _]. by apply Hex. }
  unfold match_two_tiles. rewrite Hrun, bind_Ok_l. split; [|split].
  - intros other' side. by destruct Hm' as [->| ->].
  - intros Hall. by rewrite (Hnone Hall).
  - intros Hone. by rewrite (Hsome Hone).
Qed.

Lemma match_two_tiles_exhausted_witness :
  match_two_tiles pop_first static_ex other_ex = Ok (other_ex_final, None)
  /\ forall other' side,
      match_two_tiles pop_first static_ex other_ex <> Ok (other', Some side).
Proof.
  split; [vm_compute; reflexivity|].
  refine (proj1 (match_two_tiles_exhausted pop_first static_ex other_ex _)).
  intros k t Hk.
  do 8 (destruct k as [|k];
        [vm_compute in Hk; injection Hk as <-; eexists;
         split; [vm_compute; reflexivity|];
         first [left; reflexivity | right; vm_compute; reflexivity]|]).
  vm_compute in Hk. discriminate Hk.
Defined.

(** C9.  There is a pair of tiles, [static_ex] and [other_ex], for which the
    eighth orientation of the other tile shares exactly one edge with the
    static tile, that edge is first found at position 0 in both ordered edge
    lists, which is not an opposite-side pair, and [match_two_tiles] returns
    [None].  The placement step then takes the last branch: for [None], as
    for every result other than 0, 1 and 2, the neighbour is written at
    (row, column + 1) of the current tile; run on the example with the
    current tile at (0, 0), the neighbour lands at (0, 1). *)
Theorem none_is_placed_right (pop : nat -> edge_set -> edge) :
  pop_member pop ->
  (Tile.image other_ex_final = nth 7 (orientations (Tile.image other_ex)) []
   /\ shared_edges static_ex other_ex_final = Ok [[1; 1; 0]]
   /\ positions static_ex other_ex_final [1; 1; 0] = Ok (0%nat, 0%nat)
   /\ (0%nat, 0%nat) ∉ opposite_sides)
  /\ match_two_tiles pop static_ex other_ex = Ok (other_ex_final, None)
  /\ (forall (id_grid : grid) (current_id neighbour i j : Z)
             (matched_edge : option nat),
         where_first id_grid current_id = Ok (i, j) ->
         matched_edge <> Some 0%nat -> matched_edge <> Some 1%nat ->
         matched_edge <> Some 2%nat ->
         place id_grid current_id neighbour matched_edge
         = setitem id_grid (i, j + 1) neighbour)
  /\ place_neighbour pop [(1, static_ex); (2, other_ex)]
       [[1; 0]; [0; 0]] 1 2
     = Ok (other_ex_final, [[1; 2]; [0; 0]]).
Proof.
  intros Hpop. split; [|split; [|split]].
  - split; [reflexivity|]. split; [reflexivity|]. split; [reflexivity|].
    apply (bool_decide_eq_false_1 _). reflexivity.
  - by apply match_two_tiles_example.
  - intros. by apply place_other.
  - unfold place_neighbour.
    change (getitem [(1, static_ex); (2, other_ex)] 1) with (Ok static_ex).
    change (getitem [(1, static_ex); (2, other_ex)] 2) with (Ok other_ex).
    rewrite !bind_Ok_l, match_two_tiles_example by done.
    reflexivity.
Qed.

Lemma none_is_placed_right_witness :
  pop_member pop_first
  /\ place_neighbour pop_first [(1, static_ex); (2, other_ex)]
       [[1; 0]; [0; 0]] 1 2
     = Ok (other_ex_final, [[1; 2]; [0; 0]]).
Proof.
  split; [exact pop_first_member|].
  exact (proj2 (proj2 (proj2
    (none_is_placed_right pop_first pop_first_member)))).
Defined.

(** ** The scan for monsters *)
#[local] Opaque monster.

Section ScannerFacts.

Variable n : nat.

Lemma fold_left_count_nonneg {A : Type} (f : A -> bool) (l : list A) acc :
  0 <= acc ->
  0 <= fold_left (fun num x => num + (if f x then 1 else 0)) l acc.
Proof.
  revert acc. induction l as [|x l IH]; intros acc Hacc; simpl; [done|].
  apply IH. destruct (f x); lia.
Qed.

Lemma fold_left_nonneg {A : Type} (f : Z -> A -> Z) (l : list A) acc :
  (forall a x, 0 <= a -> 0 <= f a x) -> 0 <= acc -> 0 <= fold_left f l acc.
Proof.
  intros Hf. revert acc.
  induction l as [|x l IH]; intros acc Hacc; simpl; [done|].
  by apply IH, Hf.
Qed.

Lemma count_monsters_nonneg transformed_image :
  0 <= count_monsters n transformed_image.
Proof.
  unfold count_monsters. apply fold_left_nonneg; [|done].
  intros a i Ha.
  by apply (fold_left_count_nonneg
              (fun j => image_sum
                          (mul_images monster
                             (sub_image transformed_image i j
                                (shape0 monster) (shape1 monster)))
                        =? image_sum monster)).
Qed.

(** The loop stops at the first orientation with a monster, or runs
    through all of them. *)
Lemma scan_loop_cases steps image num :
  let os := orientations_from steps image in
  (exists k,
      (k < length steps)%nat
      /\ count_monsters n (nth k os []) > 0
      /\ (forall k', (k' < k)%nat -> count_monsters n (nth k' os []) = 0)
      /\ scan_loop n steps image num
         = (nth k os [], count_monsters n (nth k os [])))
  \/ ((forall k, (k < length steps)%nat ->
                 count_monsters n (nth k os []) = 0)
      /\ scan_loop n steps image num
         = (List.last os image,
            match steps with
            | [] => num
            | _ :: _ => count_monsters n (List.last os image)
            end)).
Proof.
  revert image num.
  induction steps as [|i steps IH]; intros image num os.
  - right. split; [simpl; lia|done].
  - subst os.
    change (orientations_from (i :: steps) image)
      with (step_orientation i image
              :: orientations_from steps (step_orientation i image)).
    change (scan_loop n (i :: steps) image num)
      with (if count_monsters n (step_orientation i image) >? 0
            then (step_orientation i image,
                  count_monsters n (step_orientation i image))
            else scan_loop n steps (step_orientation i image)
                   (count_monsters n (step_orientation i image))).
    pose proof (count_monsters_nonneg (step_orientation i image)) as Hnn.
    specialize (IH (step_orientation i image)
                  (count_monsters n (step_orientation i image))).
    cbv zeta in IH.
    set (image1 := step_orientation i image) in *.
    set (os := orientations_from steps image1) in *.
    set (count := count_monsters n) in *.
    destruct (Z.gtb_spec (count image1) 0) as [Hpos|Hzero].
    + left. exists 0%nat. cbn [nth length].
      split; [lia|]. split; [lia|]. split; [intros; lia|done].
    + destruct IH as [(k & Hk & Hc & Hbefore & Hres)|[Hall Hres]].
      * left. exists (S k). cbn [nth length].
        split; [lia|]. split; [done|]. split; [|done].
        intros [|k'] Hk'; cbn [nth]; [lia|]. apply Hbefore. lia.
      * right. split.
        { intros [|k] Hk; cbn [nth length] in *; [lia|]. apply Hall. lia. }
        rewrite Hres, last_cons_default.
        by destruct steps.
Qed.

End ScannerFacts.

Lemma orientations_from_content n steps m k :
  square n m -> (k < length steps)%nat ->
  same_content n m (nth k (orientations_from steps m) []).
Proof.
  revert m k. induction steps as [|i steps IH]; intros m k Hsq Hk;
    simpl in *; [lia|].
  destruct k as [|k]; [by apply step_orientation_content|].
  eapply same_content_trans; [by apply (step_orientation_content n i)|].
  apply IH; [|lia]. by apply step_orientation_content.
Qed.

Lemma monster_weight :
  shape0 monster = 3%nat /\ shape1 monster = 20%nat /\ image_sum monster = 15.
Proof. by vm_compute. Qed.

(** C2.  When at least one of the eight orientations of a square bitmap has a
    monster match, [measure_water_roughness] stops at the first such
    orientation and returns the sum of the pixels of that oriented bitmap
    minus the number of matches there times the number of set pixels of the
    monster pattern; so the result plus matches times pattern weight is the
    pixel total of the matched orientation. *)
Theorem roughness_subtracts_monsters (n : nat) (image : array) :
  square n image ->
  (exists k, (k < 8)%nat
             /\ count_monsters n (nth k (orientations image) []) > 0) ->
  exists k,
    (k < 8)%nat
    /\ (forall k', (k' < k)%nat ->
                   count_monsters n (nth k' (orientations image) []) = 0)
    /\ count_monsters n (nth k (orientations image) []) > 0
    /\ measure_water_roughness image
       = image_sum (nth k (orientations image) [])
         - count_monsters n (nth k (orientations image) [])
           * image_sum monster
    /\ measure_water_roughness image
       + count_monsters n (nth k (orientations image) []) * image_sum monster
       = image_sum (nth k (orientations image) []).
Proof.
  intros Hsq (k0 & Hk0 & Hpos).
  unfold measure_water_roughness, orientations in *.
  replace (shape0 image) with n by (by destruct Hsq).
  change (range 8) with [0; 1; 2; 3; 4; 5; 6; 7]%nat in *.
  destruct (scan_loop_cases n [0; 1; 2; 3; 4; 5; 6; 7]%nat image 0)
    as [(k & Hk & Hc & Hbefore & Hres)|[Hall Hres]].
  - exists k. rewrite Hres. cbv beta iota.
    split; [exact Hk|]. split; [done|]. split; [done|].
    split; [reflexivity|ring].
  - exfalso. specialize (Hall k0 Hk0). cbv zeta in Hall. lia.
Qed.

(** C7.  When none of the eight orientations of a square bitmap has a
    monster match, [measure_water_roughness] returns the sum of the pixels
    of the input bitmap: nothing is subtracted, and the bitmap summed at the
    end, the eighth orientation, has the pixels of the input. *)
Theorem roughness_without_monsters (n : nat) (image : array) :
  square n image ->
  (forall k, (k < 8)%nat ->
             count_monsters n (nth k (orientations image) []) = 0) ->
  measure_water_roughness image = image_sum image.
Proof.
  intros Hsq Hnone.
  unfold measure_water_roughness, orientations in *.
  replace (shape0 image) with n by (by destruct Hsq).
  change (range 8) with [0; 1; 2; 3; 4; 5; 6; 7]%nat in *.
  destruct (scan_loop_cases n [0; 1; 2; 3; 4; 5; 6; 7]%nat image 0)
    as [(k & Hk & Hc & Hbefore & Hres)|[Hall Hres]].
  - exfalso. specialize (Hnone k Hk). lia.
  - rewrite Hres. cbv beta iota.
    change (List.last (orientations_from [0; 1; 2; 3; 4; 5; 6; 7]%nat image)
              image)
      with (nth 7 (orientations_from [0; 1; 2; 3; 4; 5; 6; 7]%nat image) []).
    rewrite (Hnone 7%nat) by lia.
    destruct (orientations_from_content n [0; 1; 2; 3; 4; 5; 6; 7]%nat
                image 7 Hsq) as (_ & _ & Hs); [simpl; lia|].
    rewrite Hs. ring.
Qed.

#[local] Transparent monster.

Lemma square_20_monster_image : square 20 monster_image.
Proof. split; [reflexivity|]. vm_compute. repeat constructor. Qed.

Lemma roughness_subtracts_monsters_witness :
  square 20 monster_image
  /\ exists k,
      (k < 8)%nat
      /\ (forall k', (k' < k)%nat ->
                     count_monsters 20
                       (nth k' (orientations monster_image) []) = 0)
      /\ count_monsters 20 (nth k (orientations monster_image) []) > 0
      /\ measure_water_roughness monster_image
         = image_sum (nth k (orientations monster_image) [])
           - count_monsters 20 (nth k (orientations monster_image) [])
             * image_sum monster
      /\ measure_water_roughness monster_image
         + count_monsters 20 (nth k (orientations monster_image) [])
           * image_sum monster
         = image_sum (nth k (orientations monster_image) []).
Proof.
  split; [exact square_20_monster_image|].
  apply (roughness_subtracts_monsters 20 monster_image
           square_20_monster_image).
  exists 3%nat. split; [lia|]. vm_compute. reflexivity.
Defined.

Lemma roughness_without_monsters_witness :
  square 2 [[1; 0]; [1; 1]]
  /\ measure_water_roughness [[1; 0]; [1; 1]] = image_sum [[1; 0]; [1; 1]].
Proof.
  assert (Hsq : square 2 [[1; 0]; [1; 1]]).
  { split; [reflexivity|]. repeat constructor. }
  split; [exact Hsq|].
  apply (roughness_without_monsters 2 [[1; 0]; [1; 1]] Hsq).
  intros k Hk.
  do 8 (destruct k as [|k]; [vm_compute; reflexivity|]). lia.
Defined.

(** ** The eight orientations of the two loops *)
Section Loops.

(** The matcher looks at the orientations of the other tile's image. *)
Lemma tiles_from_orientations steps (t : Tile.t) :
  map Tile.image (tiles_from steps t)
  = orientations_from steps (Tile.image t).
Proof.
  revert t. induction steps as [|i steps IH]; intros t; [done|].
  simpl. rewrite IH. f_equal.
  - unfold tile_step, step_orientation. by destruct (i =? 4)%nat.
  - f_equal. unfold tile_step, step_orientation. by destruct (i =? 4)%nat.
Qed.

(** The scanner stops on one of the orientations of its argument. *)
Lemma scan_loop_orientation n (m : list (list Z)) num :
  exists k, (k < 8)%nat
            /\ (scan_loop n (range 8) m num).1 = nth k (orientations m) [].
Proof.
  unfold orientations.
  change (range 8) with [0; 1; 2; 3; 4; 5; 6; 7]%nat.
  destruct (scan_loop_cases n [0; 1; 2; 3; 4; 5; 6; 7]%nat m num)
    as [(k & Hk & _ & _ & Hres)|[_ Hres]].
  - exists k. split; [exact Hk|]. by rewrite Hres.
  - exists 7%nat. split; [lia|]. by rewrite Hres.
Qed.

End Loops.

(** C3.  From any square bitmap, the eight steps of the loop shared by
    [match_two_tiles] and [measure_water_roughness] (one quarter turn
    anticlockwise at every step, after one horizontal reflection at step 4)
    produce, in this order, a quarter turn, a half turn, three quarter
    turns, the bitmap itself, its transpose, its vertical flip, its
    anti-transpose and its horizontal flip: the eight symmetries of the
    square, each exactly once.  In particular four quarter turns give the
    bitmap back.  Both loops walk this sequence: the tiles that the matcher
    looks at carry these eight bitmaps, and the scanner stops on one of
    them. *)
Theorem orientations_enumerate_dihedral (n : nat) (m : array) :
  square n m ->
  orientations m = map (fun g => act n g m) step_transforms
  /\ step_transforms ≡ₚ all_dihedral
  /\ (forall g : dihedral, In g all_dihedral)
  /\ List.NoDup all_dihedral
  /\ rot90 (rot90 (rot90 (rot90 m 1) 1) 1) 1 = m
  /\ (forall t : Tile.t,
        Tile.image t = m ->
        map Tile.image (searched_tiles t) = orientations m)
  /\ (forall num : Z,
        exists k, (k < 8)%nat
                  /\ (scan_loop n (range 8) m num).1
                     = nth k (orientations m) []).
Proof.
  intros Hsq. split; [by apply orientations_act|].
  split.
  { unfold step_transforms, all_dihedral.
    change [Rot1; Rot2; Rot3; Rot0; Transpose; FlipUD; AntiTranspose; FlipLR]
      with ([Rot1; Rot2; Rot3] ++ Rot0
              :: [Transpose; FlipUD; AntiTranspose; FlipLR]).
    symmetry.
    apply (Permutation_middle [Rot1; Rot2; Rot3]
             [Transpose; FlipUD; AntiTranspose; FlipLR] Rot0). }
  split; [apply dihedral_complete|]. split; [apply dihedral_NoDup|].
  split.
  { pose proof (orientations_act n m Hsq) as Ho.
    apply (f_equal (fun l => nth 3 l [])) in Ho.
    change (nth 3 (orientations m) [])
      with (rot90 (rot90 (rot90 (rot90 m 1) 1) 1) 1) in Ho.
    rewrite Ho. simpl. by apply act_Rot0. }
  split.
  - intros t <-. apply tiles_from_orientations.
  - intros num. apply scan_loop_orientation.
Qed.

Lemma orientations_enumerate_dihedral_witness :
  square 3 probe
  /\ orientations probe = map (fun g => act 3 g probe) step_transforms.
Proof.
  assert (Hsq : square 3 probe).
  { split; [reflexivity|]. repeat constructor. }
  split; [exact Hsq|].
  exact (proj1 (orientations_enumerate_dihedral 3 probe Hsq)).
Defined.

(** ** The borders of a transformed tile *)
Section Borders.

Local Open Scope nat_scope.

Lemma tabulate_ext n f g :
  (forall i, i < n -> f i = g i) -> tabulate n f = tabulate n g.
Proof.
  intros H. unfold tabulate. apply map_ext_in. intros i Hi.
  apply in_seq in Hi. apply H. lia.
Qed.

Lemma tabulate_nth n (l : list Z) :
  length l = n -> tabulate n (fun i => nth i l 0%Z) = l.
Proof. intros <-. apply map_nth_seq. Qed.

Lemma nth_tabulate n f i : i < n -> nth i (tabulate n f) 0%Z = f i.
Proof.
  intros Hi. unfold tabulate.
  rewrite (nth_indep _ _ (f 0)) by (by rewrite length_map, length_seq).
  by rewrite (map_nth f), seq_nth by done.
Qed.

Lemma length_tabulate n f : length (tabulate n f) = n.
Proof. unfold tabulate. by rewrite length_map, length_seq. Qed.

Lemma rev_tabulate n f :
  rev (tabulate n f) = tabulate n (fun i => f (n - 1 - i)).
Proof.
  apply (nth_ext _ _ 0%Z 0%Z).
  - by rewrite length_rev, !length_tabulate.
  - intros i Hi. rewrite length_rev, length_tabulate in Hi.
    rewrite rev_nth by (rewrite length_tabulate; lia).
    rewrite length_tabulate, !nth_tabulate by lia. f_equal. lia.
Qed.

Lemma last_nth (m : list (list Z)) :
  List.last m [] = nth (length m - 1) m [].
Proof.
  induction m as [|r m IH]; [done|].
  destruct m as [|r' m]; [done|].
  change (List.last (r :: r' :: m) []) with (List.last (r' :: m) []).
  rewrite IH. simpl. by rewrite Nat.sub_0_r.
Qed.

(** The four borders of a square image, pixel by pixel. *)
Lemma list_edges_pixels n (t : Tile.t) :
  square n (Tile.image t) -> 0 < n ->
  Tile.list_edges t
  = Ok [tabulate n (fun j => pixel_at (Tile.image t) 0 j);
        tabulate n (fun j => pixel_at (Tile.image t) (n - 1) j);
        tabulate n (fun i => pixel_at (Tile.image t) i 0);
        tabulate n (fun i => pixel_at (Tile.image t) i (n - 1))].
Proof.
  intros Hsq Hn. unfold Tile.list_edges, Tile.borders.
  destruct t as [id m]. simpl Tile.image in *.
  pose proof (fun i => square_row n m i Hsq) as Hrow.
  pose proof (square_shape1 n m Hsq) as Hw.
  destruct Hsq as [Hlen Hrows].
  destruct m as [|r m]; [simpl in *; lia|].
  destruct r as [|x r]; [specialize (Hrow 0); simpl in *; lia|].
  rewrite Hw, last_nth, Hlen. f_equal.
  assert (Hcol : forall j, column j ((x :: r) :: m)
                           = tabulate n (fun i =>
                               pixel_at ((x :: r) :: m) i j)).
  { intros j. apply (nth_ext _ _ 0%Z 0%Z).
    - unfold column. by rewrite length_map, length_tabulate.
    - intros i Hi. unfold column in Hi. rewrite length_map in Hi.
      rewrite nth_tabulate by lia. unfold column, pixel_at.
      rewrite (nth_indep _ _ ((fun r => nth j r 0%Z) [])) by
        (by rewrite length_map).
      by rewrite (map_nth (fun r => nth j r 0%Z)). }
  rewrite !Hcol.
  rewrite <- (tabulate_nth n (x :: r)) at 1 by (apply (Hrow 0); lia).
  rewrite <- (tabulate_nth n (nth (n - 1) ((x :: r) :: m) [])) at 1
    by (apply Hrow; lia).
  done.
Qed.

End Borders.

Section Corner.

Local Open Scope nat_scope.

Lemma unmatched_sets_differ :
  ({[1; 3]} : gset nat) <> {[0; 3]}
  /\ ({[1; 2]} : gset nat) <> {[0; 3]}
  /\ ({[1; 2]} : gset nat) <> {[1; 3]}
  /\ ({[0; 2]} : gset nat) <> {[0; 3]}
  /\ ({[0; 2]} : gset nat) <> {[1; 3]}
  /\ ({[0; 2]} : gset nat) <> {[1; 2]}.
Proof. repeat split; intros H; set_solver. Qed.

Lemma edges4_eq (a b c d a' b' c' d' : list Z) :
  a = a' -> b = b' -> c = c' -> d = d' ->
  @Ok (list (list Z)) [a; b; c; d] = Ok [a'; b'; c'; d'].
Proof. by intros -> -> -> ->. Qed.

Lemma list_edges_image n (t t' : Tile.t) g :
  square n (Tile.image t) -> 0 < n ->
  Tile.image t' = act n g (Tile.image t) ->
  Tile.list_edges t'
  = Ok [tabulate n (fun j =>
          pixel_at (Tile.image t) (source_pixel n g 0 j).1
                                  (source_pixel n g 0 j).2);
        tabulate n (fun j =>
          pixel_at (Tile.image t) (source_pixel n g (n - 1) j).1
                                  (source_pixel n g (n - 1) j).2);
        tabulate n (fun i =>
          pixel_at (Tile.image t) (source_pixel n g i 0).1
                                  (source_pixel n g i 0).2);
        tabulate n (fun i =>
          pixel_at (Tile.image t) (source_pixel n g i (n - 1)).1
                                  (source_pixel n g i (n - 1)).2)].
Proof.
  intros Hsq Hn Himg.
  rewrite (list_edges_pixels n t')
    by (done || (rewrite Himg; apply square_act)).
  rewrite Himg.
  apply edges4_eq; apply tabulate_ext; intros i Hi; apply pixel_at_act;
    lia.
Qed.

End Corner.

(** C4.  For each of the four sets of unmatched ordered-edge indices that a
    corner can have, the transform that [build_image] applies to the first
    corner puts the two unmatched edges on top (index 0) and on the left
    (index 2).  With [top; bottom; left; right] the ordered edges before the
    transform (indices 0 to 3), the ordered edges after it are:
    - unmatched {0, 3}, one quarter turn: the old right edge on top and the
      old top edge, read backwards, on the left;
    - unmatched {1, 3}, half a turn: the old bottom edge on top and the old
      right edge on the left, both read backwards;
    - unmatched {1, 2}, vertical reflection: the old bottom edge on top and
      the old left edge, read backwards, on the left;
    - unmatched {0, 2}: nothing changes. *)
Theorem first_corner_unmatched_edges_top_left (n : nat)
    (first_corner : Tile.t) (top bottom left right : edge) :
  square n (Tile.image first_corner) -> (0 < n)%nat ->
  Tile.list_edges first_corner = Ok [top; bottom; left; right] ->
  Tile.list_edges (orient_first_corner {[0; 3]}%nat first_corner)
  = Ok [right; left; rev top; rev bottom]
  /\ Tile.list_edges (orient_first_corner {[1; 3]}%nat first_corner)
     = Ok [rev bottom; rev top; rev right; rev left]
  /\ Tile.list_edges (orient_first_corner {[1; 2]}%nat first_corner)
     = Ok [bottom; top; rev left; rev right]
  /\ Tile.list_edges (orient_first_corner {[0; 2]}%nat first_corner)
     = Ok [top; bottom; left; right].
Proof.
  intros Hsq Hn Hold.
  destruct unmatched_sets_differ as (H1 & H2 & H3 & H4 & H5 & H6).
  rewrite (list_edges_pixels n) in Hold by done.
  injection Hold as <- <- <- <-.
  rewrite !rev_tabulate.
  unfold orient_first_corner. repeat case_decide; try done.
  split; [|split; [|split]].
  - rewrite (list_edges_image n first_corner _ Rot1) by
      (done || by apply rot90_1_act).
    simpl. apply edges4_eq; apply tabulate_ext; intros i Hi; f_equal; lia.
  - rewrite (list_edges_image n first_corner _ Rot2) by
      (done || by apply rot90_2_act).
    simpl. apply edges4_eq; apply tabulate_ext; intros i Hi; f_equal; lia.
  - rewrite (list_edges_image n first_corner _ FlipUD) by
      (done || by apply flipud_act).
    simpl. apply edges4_eq; apply tabulate_ext; intros i Hi; f_equal; lia.
  - by rewrite (list_edges_pixels n).
Qed.

Lemma first_corner_unmatched_edges_top_left_witness :
  square 3 (Tile.image static_ex)
  /\ Tile.list_edges static_ex
     = Ok [[1; 1; 0]; [1; 0; 0]; [1; 1; 1]; [0; 1; 0]]
  /\ Tile.list_edges (orient_first_corner {[0; 3]}%nat static_ex)
     = Ok [[0; 1; 0]; [1; 1; 1]; rev [1; 1; 0]; rev [1; 0; 0]].
Proof.
  assert (Hsq : square 3 (Tile.image static_ex)).
  { split; [reflexivity|]. repeat constructor. }
  split; [exact Hsq|]. split; [reflexivity|].
  refine (proj1 (first_corner_unmatched_edges_top_left 3 static_ex
                   [1; 1; 0] [1; 0; 0] [1; 1; 1] [0; 1; 0] Hsq _ _)).
  - lia.
  - reflexivity.
Defined.

(** ** Part one: the product of the corner identifiers *)
Section PartOne.

Lemma fold_left_mul (l : list Z) (a : Z) :
  fold_left Z.mul l a = a * foldr Z.mul 1 l.
Proof.
  revert a. induction l as [|x l IH]; intros a; simpl; [lia|].
  rewrite IH. lia.
Qed.

Lemma reduce_mul_nonempty (l : list Z) :
  l <> [] -> reduce_mul l = Ok (foldr Z.mul 1 l).
Proof.
  destruct l as [|x l]; [done|]. intros _. simpl.
  by rewrite fold_left_mul.
Qed.

Lemma elem_of_corner_ids (d : gmap Z (gset Z)) (t : Z) :
  t ∈ corner_ids d <-> exists ns, d !! t = Some ns /\ size ns = 2%nat.
Proof.
  unfold corner_ids. rewrite elem_of_dom. split.
  - intros [ns Hns]. apply map_lookup_filter_Some in Hns as [? ?]. eauto.
  - intros (ns & Hns & Hsize). exists ns.
    by apply map_lookup_filter_Some.
Qed.

End PartOne.

(** ** The adjacency map *)
Section Adjacency.

Lemma edges_match_sym ei ej : edges_match ei ej -> edges_match ej ei.
Proof.
  intros (e & Hj & [Hi|Hi]).
  - exists e. auto.
  - exists (rev e). split; [done|]. right. by rewrite rev_involutive.
Qed.

Lemma elem_of_reversed_edges (s : list (list Z)) e :
  e ∈ reversed_edges s <-> rev e ∈ s.
Proof.
  unfold reversed_edges. rewrite elem_of_remove_dups, list_elem_of_fmap.
  split.
  - intros (e' & -> & He'). by rewrite rev_involutive.
  - intros He. exists (rev e). by rewrite rev_involutive.
Qed.

(** The test of [find_possible_neighbours] on one pair. *)
Lemma intersection_nonempty_match (ei ej : list (list Z)) :
  list_intersection (list_union ei (reversed_edges ei)) ej <> []
  <-> edges_match ei ej.
Proof.
  split.
  - intros Hne.
    destruct (list_intersection (list_union ei (reversed_edges ei)) ej)
      as [|e l] eqn:Hl; [done|].
    assert (He : e ∈ list_intersection
                       (list_union ei (reversed_edges ei)) ej)
      by (rewrite Hl; by left).
    apply list_elem_of_intersection in He as [Hu Hj].
    apply list_elem_of_union in Hu as [Hi|Hr].
    + exists e. auto.
    + exists e. apply elem_of_reversed_edges in Hr. auto.
  - intros (e & Hj & Hi) Hnil.
    assert (He : e ∈ list_intersection
                       (list_union ei (reversed_edges ei)) ej).
    { apply list_elem_of_intersection. split; [|done].
      apply list_elem_of_union. destruct Hi as [Hi|Hi]; [by left|].
      right. by apply elem_of_reversed_edges. }
    rewrite Hnil in He. by apply elem_of_nil in He.
Qed.

Lemma neighbours_add i j d t :
  neighbours (add_neighbour i j d) t
  = if decide (t = i) then neighbours d i ∪ {[j]} else neighbours d t.
Proof.
  unfold neighbours, add_neighbour. destruct (decide (t = i)) as [->|Hne].
  - by rewrite lookup_insert_eq.
  - by rewrite lookup_insert_ne.
Qed.

Lemma elem_of_combinations2 {A : Type} (l : list A) (a b : A) :
  (a, b) ∈ combinations2 l
  <-> exists l1 l2 l3, l = l1 ++ a :: l2 ++ b :: l3.
Proof.
  induction l as [|x l IH]; simpl.
  - split; [by intros ?%elem_of_nil|]. intros (l1 & l2 & l3 & H).
    by destruct l1.
  - rewrite elem_of_app, list_elem_of_fmap, IH. split.
    + intros [(b' & [= -> ->] & Hb)|(l1 & l2 & l3 & ->)].
      * apply list_elem_of_split in Hb as (l2 & l3 & ->).
        by exists [], l2, l3.
      * by exists (x :: l1), l2, l3.
    + intros (l1 & l2 & l3 & H). destruct l1 as [|y l1]; simpl in H.
      * injection H as -> ->. left. exists b. split; [done|].
        apply elem_of_app. right. by left.
      * injection H as -> ->. right. by exists l1, l2, l3.
Qed.

Lemma combinations2_pair {A : Type} (l : list A) (a b : A) :
  NoDup l ->
  ((a, b) ∈ combinations2 l \/ (b, a) ∈ combinations2 l)
  <-> a ∈ l /\ b ∈ l /\ a <> b.
Proof.
  intros Hnd. rewrite !elem_of_combinations2. split.
  - intros [(l1 & l2 & l3 & ->)|(l1 & l2 & l3 & ->)].
    + split; [set_solver|]. split; [set_solver|].
      intros ->. apply NoDup_app in Hnd as (_ & _ & Hnd).
      apply NoDup_cons in Hnd as [Hnin _]. set_solver.
    + split; [set_solver|]. split; [set_solver|].
      intros ->. apply NoDup_app in Hnd as (_ & _ & Hnd).
      apply NoDup_cons in Hnd as [Hnin _]. set_solver.
  - intros (Ha & Hb & Hne).
    apply list_elem_of_split in Ha as (l1 & l2 & ->).
    apply elem_of_app in Hb as [Hb|Hb].
    + right. apply list_elem_of_split in Hb as (k1 & k2 & ->).
      exists k1, k2, l2. by rewrite <- !app_assoc.
    + apply elem_of_cons in Hb as [->|Hb]; [done|].
      left. apply list_elem_of_split in Hb as (k1 & k2 & ->).
      by exists l1, k1, k2.
Qed.

Lemma neighbours_add_pair i j d t u :
  u ∈ neighbours (add_neighbour j i (add_neighbour i j d)) t
  <-> u ∈ neighbours d t \/ (t = i /\ u = j) \/ (t = j /\ u = i).
Proof.
  rewrite neighbours_add. destruct (decide (t = j)) as [->|Hj].
  - rewrite elem_of_union, elem_of_singleton, neighbours_add.
    destruct (decide (j = i)) as [->|Hi].
    + rewrite elem_of_union, elem_of_singleton. intuition congruence.
    + intuition congruence.
  - rewrite neighbours_add. destruct (decide (t = i)) as [->|Hi].
    + rewrite elem_of_union, elem_of_singleton. intuition congruence.
    + intuition congruence.
Qed.

Lemma tiles_match_sym tiles t u :
  tiles_match tiles t u -> tiles_match tiles u t.
Proof.
  intros (tt & tu & et & eu & ? & ? & ? & ? & Hm).
  exists tu, tt, eu, et. eauto 10 using edges_match_sym.
Qed.

(** What the loop over the pairs adds to the map. *)
Lemma find_pairs_neighbours tiles pairs d d' :
  find_pairs tiles pairs d = Ok d' ->
  forall t u,
    u ∈ neighbours d' t
    <-> u ∈ neighbours d t
        \/ (((t, u) ∈ pairs \/ (u, t) ∈ pairs) /\ tiles_match tiles t u).
Proof.
  revert d. induction pairs as [|[i j] pairs IH]; intros d H t u.
  - simpl in H. injection H as ->. split; [auto|].
    intros [?|[[?%elem_of_nil|?%elem_of_nil] _]]; done.
  - simpl in H. inv_bind H. inv_bind H. inv_bind H. inv_bind H.
    rename a into ti, a0 into ei, a1 into tj, a2 into ej.
    assert (Hpair :
              ((t, u) ∈ (i, j) :: pairs \/ (u, t) ∈ (i, j) :: pairs)
              <-> ((t = i /\ u = j) \/ (t = j /\ u = i))
                  \/ ((t, u) ∈ pairs \/ (u, t) ∈ pairs)).
    { rewrite !elem_of_cons. intuition congruence. }
    rewrite Hpair. clear Hpair.
    assert (Hij : tiles_match tiles i j <-> edges_match ei ej).
    { split.
      - intros (tt & tu & et & eu & H1 & H2 & H3 & H4 & Hm).
        rewrite Ha in H1. injection H1 as <-.
        rewrite Ha1 in H2. injection H2 as <-.
        rewrite Ha0 in H3. injection H3 as <-.
        rewrite Ha2 in H4. by injection H4 as <-.
      - intros Hm. exists ti, tj, ei, ej. auto. }
    case_bool_decide as Htest.
    + apply intersection_nonempty_match, Hij in Htest.
      pose proof (tiles_match_sym _ _ _ Htest) as Htest'.
      rewrite (IH _ H t u), neighbours_add_pair.
      intuition (subst; auto).
    + assert (Hno : ~ tiles_match tiles i j).
      { intros Hm%Hij%intersection_nonempty_match. by apply Hm. }
      assert (Hno' : ~ tiles_match tiles j i)
        by (intros Hm%tiles_match_sym; apply Hno, Hm).
      rewrite (IH _ H t u). intuition (subst; auto || done).
Qed.

End Adjacency.

Section AdjacencyMap.

Lemma getitem_keys tiles k v : getitem tiles k = Ok v -> k ∈ keys tiles.
Proof.
  induction tiles as [|[k' v'] tiles IH]; simpl; [done|].
  destruct (decide (k' = k)) as [->|Hne]; intros H.
  - by left.
  - right. by apply IH.
Qed.

Lemma neighbours_empty t : neighbours ∅ t = ∅.
Proof. unfold neighbours. by rewrite lookup_empty. Qed.

(** The adjacency map records exactly the candidate neighbours. *)
Lemma find_possible_neighbours_candidates tiles d :
  NoDup (keys tiles) ->
  find_possible_neighbours tiles = Ok d ->
  forall t u, u ∈ neighbours d t <-> candidate tiles t u.
Proof.
  intros Hnd Hfind t u. unfold find_possible_neighbours in Hfind.
  rewrite (find_pairs_neighbours _ _ _ _ Hfind), neighbours_empty.
  rewrite (combinations2_pair _ t u Hnd). unfold candidate. split.
  - intros [?%elem_of_empty|[(_ & _ & Hne) Hm]]; [done|].
    split; [done|]. exact Hm.
  - intros (Hne & Hm). right. split; [|done].
    destruct Hm as (tt & tu & et & eu & Ht & Hu & _).
    split; [by eapply getitem_keys|].
    split; [by eapply getitem_keys|done].
Qed.

Lemma corner_ids_size d t :
  t ∈ corner_ids d <-> size (neighbours d t) = 2%nat.
Proof.
  rewrite elem_of_corner_ids. unfold neighbours. split.
  - by intros (ns & -> & Hsize).
  - destruct (d !! t) as [ns|]; [eauto|].
    intros Hsize. change (size (∅ : gset Z) = 2%nat) in Hsize.
    by rewrite size_empty in Hsize.
Qed.

End AdjacencyMap.

(** C6.  The first printed integer is the product of the identifiers of
    exactly the tiles that have exactly two candidate neighbours in the
    adjacency map of [find_possible_neighbours].  For a dictionary [tiles]
    (distinct keys) on which [find_possible_neighbours] returns the map
    [tile_to_neighbours]: the map lists [u] for [t] exactly when [t] and [u]
    are two different tiles whose edge sets match in either direction; an
    identifier is in the set that part one multiplies exactly when the map
    gives it two neighbours; and the printed integer is the product of that
    set.  It is printed whenever the set is not empty; when no tile has two
    candidate neighbours [reduce] raises [TypeError] and nothing is
    printed. *)
Theorem part_one_is_corner_product (tiles : tile_dict)
    (tile_to_neighbours : gmap Z (gset Z)) :
  NoDup (keys tiles) ->
  find_possible_neighbours tiles = Ok tile_to_neighbours ->
  (forall t u : Z,
      u ∈ neighbours tile_to_neighbours t <-> candidate tiles t u)
  /\ (forall t : Z,
        t ∈ corner_ids tile_to_neighbours
        <-> size (neighbours tile_to_neighbours t) = 2%nat)
  /\ (corner_ids tile_to_neighbours <> ∅ ->
      part_one tiles = Ok (product (corner_ids tile_to_neighbours)))
  /\ (corner_ids tile_to_neighbours = ∅ -> part_one tiles = Raise TypeError).
Proof.
  intros Hnd Hfind.
  split; [by apply find_possible_neighbours_candidates|].
  split; [apply corner_ids_size|].
  unfold part_one. rewrite Hfind, bind_Ok_l. split.
  - intros Hne. rewrite reduce_mul_nonempty; [done|].
    intros Hnil. by apply elements_empty_inv, leibniz_equiv in Hnil.
  - intros ->. by rewrite elements_empty.
Qed.

Lemma part_one_is_corner_product_witness :
  NoDup (keys three_tiles)
  /\ part_one three_tiles = Ok 30
  /\ exists d,
      find_possible_neighbours three_tiles = Ok d
      /\ (corner_ids d <> ∅ ->
          part_one three_tiles = Ok (product (corner_ids d))).
Proof.
  assert (Hnd : NoDup (keys three_tiles)).
  { apply (bool_decide_unpack _). vm_compute. reflexivity. }
  split; [exact Hnd|]. split; [vm_compute; reflexivity|].
  destruct (find_possible_neighbours three_tiles) as [d|e] eqn:Hfind.
  - exists d. split; [reflexivity|].
    exact (proj1 (proj2 (proj2
      (part_one_is_corner_product three_tiles d Hnd Hfind)))).
  - exfalso. vm_compute in Hfind. discriminate Hfind.
Defined.

(** ** The algebra of the tile transforms *)
Section Algebra.

Local Open Scope nat_scope.

Ltac pixelwise n :=
  apply (square_ext n);
  [ eauto using square_act, square_flipud, square_fliplr, square_transpose
  | eauto using square_act, square_flipud, square_fliplr, square_transpose
  | intros i j Hi Hj ].

Lemma source_pixel_compose n g h i j :
  i < n -> j < n ->
  source_pixel n (compose g h) i j
  = source_pixel n h (source_pixel n g i j).1 (source_pixel n g i j).2.
Proof.
  intros Hi Hj.
  destruct g, h;
    match goal with
    | |- context [compose ?a ?b] =>
        let c := eval vm_compute in (compose a b) in
        change (compose a b) with c
    end; simpl; f_equal; lia.
Qed.

Lemma act_compose n g h m :
  act n g (act n h m) = act n (compose g h) m.
Proof.
  pixelwise n.
  destruct (source_pixel_lt n g i j Hi Hj) as [Hi' Hj'].
  rewrite (pixel_at_act n g) by done.
  rewrite (pixel_at_act n h) by done.
  rewrite (pixel_at_act n (compose g h)) by done.
  by rewrite source_pixel_compose.
Qed.

Lemma rot_of_cases k :
  (k mod 4 = 0 /\ rot_of k = Rot0)%Z \/ (k mod 4 = 1 /\ rot_of k = Rot1)%Z
  \/ (k mod 4 = 2 /\ rot_of k = Rot2)%Z
  \/ (k mod 4 = 3 /\ rot_of k = Rot3)%Z.
Proof.
  unfold rot_of. pose proof (Z.mod_pos_bound k 4 eq_refl) as Hk.
  assert (k mod 4 = 0 \/ k mod 4 = 1 \/ k mod 4 = 2 \/ k mod 4 = 3)%Z
    as [H|[H|[H|H]]] by lia; rewrite H; simpl; auto.
Qed.

Lemma rot90_act n m k : square n m -> rot90 m k = act n (rot_of k) m.
Proof.
  intros Hsq.
  destruct (rot_of_cases k) as [[H ->]|[[H ->]|[[H ->]|[H ->]]]].
  - unfold rot90. rewrite H. simpl. by rewrite act_Rot0.
  - rewrite <- (rot90_1_act n) by done. unfold rot90. by rewrite H.
  - rewrite <- (rot90_2_act n) by done. unfold rot90. by rewrite H.
  - rewrite <- (rot90_3_act n) by done. unfold rot90. by rewrite H.
Qed.

Lemma compose_rot_of a b :
  compose (rot_of b) (rot_of a) = rot_of (a + b).
Proof.
  assert (Hsum : ((a + b) mod 4 = (a mod 4 + b mod 4) mod 4)%Z)
    by apply Zplus_mod.
  destruct (rot_of_cases a) as [[Ha ->]|[[Ha ->]|[[Ha ->]|[Ha ->]]]];
    destruct (rot_of_cases b) as [[Hb ->]|[[Hb ->]|[[Hb ->]|[Hb ->]]]];
    unfold rot_of at 1; rewrite Hsum, Ha, Hb; reflexivity.
Qed.

End Algebra.

(** X1.  Reflecting a tile twice the same way gives the tile back, whatever
    its image: [reflect_up_down] and [reflect_left_right] are involutions. *)
Theorem reflect_twice (t : Tile.t) :
  Tile.reflect_up_down (Tile.reflect_up_down t) = t
  /\ Tile.reflect_left_right (Tile.reflect_left_right t) = t.
Proof.
  destruct t as [id m].
  unfold Tile.reflect_up_down, Tile.reflect_left_right, flipud, fliplr.
  simpl. split; f_equal.
  - apply rev_involutive.
  - rewrite map_map. rewrite <- (map_id m) at 2. apply map_ext.
    intros r. apply rev_involutive.
Qed.

(** X2.  On a square image rotations add up: [rotate a] followed by
    [rotate b] is [rotate (a + b)], for all integers, negative ones
    included.  So a multiple of four quarter turns changes nothing and
    [rotate (- k)] undoes [rotate k]. *)
Theorem rotate_rotate (n : nat) (t : Tile.t) :
  square n (Tile.image t) ->
  (forall a b : Z,
      Tile.rotate (Tile.rotate t a) b = Tile.rotate t (a + b))
  /\ (forall k : Z, Tile.rotate t (4 * k) = t)
  /\ (forall k : Z, Tile.rotate (Tile.rotate t k) (- k) = t).
Proof.
  intros Hsq. destruct t as [id m]. simpl in Hsq.
  assert (Hadd : forall a b, rot90 (rot90 m a) b = rot90 m (a + b)).
  { intros a b. rewrite (rot90_act n m a) by done.
    rewrite (rot90_act n _ b) by apply square_act.
    rewrite (rot90_act n m (a + b)) by done.
    by rewrite act_compose, compose_rot_of. }
  assert (Hfour : forall k, rot90 m (4 * k) = m).
  { intros k. unfold rot90.
    replace ((4 * k) mod 4) with 0; [done|].
    symmetry. rewrite Z.mul_comm. apply Z_mod_mult. }
  unfold Tile.rotate. simpl. split; [|split].
  - intros a b. f_equal. apply Hadd.
  - intros k. f_equal. apply Hfour.
  - intros k. f_equal. rewrite Hadd.
    replace (k + - k) with (4 * 0) by lia. apply Hfour.
Qed.

Lemma rotate_rotate_witness :
  square 3 (Tile.image static_ex)
  /\ Tile.rotate (Tile.rotate static_ex (-1)) 6 = Tile.rotate static_ex 5.
Proof.
  assert (Hsq : square 3 (Tile.image static_ex)).
  { split; [reflexivity|]. repeat constructor. }
  split; [exact Hsq|].
  exact (proj1 (rotate_rotate 3 static_ex Hsq) (-1) 6).
Defined.

(** X3.  On a square image the reflections and the rotations obey the
    relations of the symmetries of the square: [reflect_up_down] is
    [reflect_left_right] followed by half a turn, and rotating a reflected
    tile by [k] quarter turns is reflecting the tile rotated by [- k]. *)
Theorem reflect_rotate (n : nat) (t : Tile.t) :
  square n (Tile.image t) ->
  Tile.reflect_up_down t = Tile.rotate (Tile.reflect_left_right t) 2
  /\ (forall k : Z,
        Tile.rotate (Tile.reflect_left_right t) k
        = Tile.reflect_left_right (Tile.rotate t (- k)))
  /\ (forall k : Z,
        Tile.rotate (Tile.reflect_up_down t) k
        = Tile.reflect_up_down (Tile.rotate t (- k))).
Proof.
  intros Hsq. destruct t as [id m]. simpl in Hsq.
  unfold Tile.rotate, Tile.reflect_up_down, Tile.reflect_left_right. simpl.
  assert (Hneg : forall k, rot_of (- k)
                           = match rot_of k with
                             | Rot1 => Rot3 | Rot3 => Rot1 | g => g
                             end).
  { intros k.
    assert (Hm : (- k) mod 4 = (4 - k mod 4) mod 4).
    { replace (- k) with ((4 - k mod 4) + (- (k / 4) - 1) * 4)
        by (pose proof (Z.div_mod k 4); lia).
      apply Z_mod_plus_full. }
    destruct (rot_of_cases k) as [[H ->]|[[H ->]|[[H ->]|[H ->]]]];
      unfold rot_of; rewrite Hm, H; reflexivity. }
  split; [|split].
  - f_equal. rewrite (flipud_act n), (fliplr_act n) by done.
    rewrite (rot90_act n) by apply square_act.
    by rewrite act_compose.
  - intros k. f_equal.
    rewrite (fliplr_act n m) by done.
    rewrite (rot90_act n _ k) by apply square_act.
    rewrite (rot90_act n m (- k)) by done.
    rewrite (fliplr_act n) by apply square_act.
    rewrite !act_compose, Hneg.
    by destruct (rot_of_cases k) as [[H ->]|[[H ->]|[[H ->]|[H ->]]]].
  - intros k. f_equal.
    rewrite (flipud_act n m) by done.
    rewrite (rot90_act n _ k) by apply square_act.
    rewrite (rot90_act n m (- k)) by done.
    rewrite (flipud_act n) by apply square_act.
    rewrite !act_compose, Hneg.
    by destruct (rot_of_cases k) as [[H ->]|[[H ->]|[[H ->]|[H ->]]]].
Qed.

Lemma reflect_rotate_witness :
  square 3 (Tile.image static_ex)
  /\ Tile.reflect_up_down static_ex
     = Tile.rotate (Tile.reflect_left_right static_ex) 2.
Proof.
  assert (Hsq : square 3 (Tile.image static_ex)).
  { split; [reflexivity|]. repeat constructor. }
  split; [exact Hsq|].
  exact (proj1 (reflect_rotate 3 static_ex Hsq)).
Defined.

(** ** The edges of a transformed tile *)
Section EdgesAfter.

Lemma list_edges_act n (t t' : Tile.t) g top bottom left right :
  square n (Tile.image t) -> (0 < n)%nat ->
  Tile.list_edges t = Ok [top; bottom; left; right] ->
  Tile.image t' = act n g (Tile.image t) ->
  Tile.list_edges t' = Ok (edges_after g [top; bottom; left; right]).
Proof.
  intros Hsq Hn Hold Himg.
  rewrite (list_edges_pixels n) in Hold by done.
  injection Hold as <- <- <- <-.
  rewrite (list_edges_image n t t' g) by done.
  destruct g; simpl; rewrite ?rev_tabulate;
    apply edges4_eq; apply tabulate_ext; intros i Hi; f_equal; lia.
Qed.

Lemma list_edges_four n (t : Tile.t) :
  square n (Tile.image t) -> (0 < n)%nat ->
  exists top bottom left right,
    Tile.list_edges t = Ok [top; bottom; left; right]
    /\ length top = n /\ length bottom = n
    /\ length left = n /\ length right = n.
Proof.
  intros Hsq Hn. rewrite (list_edges_pixels n) by done.
  do 4 eexists. split; [done|]. by rewrite !length_tabulate.
Qed.

Lemma rev_swap (e x : list Z) : rev e = x <-> e = rev x.
Proof.
  split; [intros <-|intros ->]; by rewrite rev_involutive.
Qed.

Lemma same_borders_after g top bottom left right :
  same_borders [top; bottom; left; right]
               (edges_after g [top; bottom; left; right]).
Proof.
  intros e. destruct g; simpl;
    rewrite !elem_of_cons, !elem_of_nil, !rev_swap, ?rev_involutive; tauto.
Qed.

Lemma edges_list_edges (t : Tile.t) l :
  Tile.list_edges t = Ok l -> Tile.edges t = Ok (remove_dups l).
Proof. unfold Tile.edges, Tile.list_edges. by intros ->. Qed.

Lemma same_borders_remove_dups l l' :
  same_borders l l' -> same_borders (remove_dups l) (remove_dups l').
Proof.
  intros H e. rewrite !elem_of_remove_dups. apply H.
Qed.

(** A symmetry of the image keeps the borders of the tile. *)
Lemma edges_act n (t t' : Tile.t) g :
  square n (Tile.image t) -> (0 < n)%nat ->
  Tile.image t' = act n g (Tile.image t) ->
  exists es es',
    Tile.edges t = Ok es /\ Tile.edges t' = Ok es' /\ same_borders es es'.
Proof.
  intros Hsq Hn Himg.
  destruct (list_edges_four n t Hsq Hn) as (tp & b & l & r & Hl & _).
  exists (remove_dups [tp; b; l; r]),
         (remove_dups (edges_after g [tp; b; l; r])).
  split; [by apply edges_list_edges|].
  split; [by apply edges_list_edges, (list_edges_act n t)|].
  apply same_borders_remove_dups, same_borders_after.
Qed.

End EdgesAfter.

(** X4.  A rotation or a reflection keeps the borders of a tile: on a
    square image with at least one pixel, the edge set of the transformed
    tile and the edge set of the tile hold the same edges up to reading
    direction (an edge of one is an edge of the other or the reverse of
    one), for [rotate] by any number of turns, [reflect_up_down] and
    [reflect_left_right]. *)
Theorem transforms_keep_borders (n : nat) (t : Tile.t) :
  square n (Tile.image t) -> (0 < n)%nat ->
  exists es,
    Tile.edges t = Ok es
    /\ (forall k : Z,
          exists es', Tile.edges (Tile.rotate t k) = Ok es'
                      /\ same_borders es es')
    /\ (exists es', Tile.edges (Tile.reflect_up_down t) = Ok es'
                    /\ same_borders es es')
    /\ (exists es', Tile.edges (Tile.reflect_left_right t) = Ok es'
                    /\ same_borders es es').
Proof.
  intros Hsq Hn.
  assert (Hone : forall t', (exists g, Tile.image t' = act n g (Tile.image t)) ->
            forall es, Tile.edges t = Ok es ->
            exists es', Tile.edges t' = Ok es' /\ same_borders es es').
  { intros t' [g Hg] es Hes.
    destruct (edges_act n t t' g Hsq Hn Hg) as (es0 & es' & H0 & H' & Hs).
    rewrite Hes in H0. injection H0 as <-. eauto. }
  destruct (edges_act n t t Rot0 Hsq Hn) as (es & _ & Hes & _ & _).
  { by rewrite act_Rot0. }
  exists es. split; [done|]. split; [|split].
  - intros k. apply Hone; [|done]. exists (rot_of k). simpl.
    by apply rot90_act.
  - apply Hone; [|done]. exists FlipUD. simpl. by apply flipud_act.
  - apply Hone; [|done]. exists FlipLR. simpl. by apply fliplr_act.
Qed.

Lemma transforms_keep_borders_witness :
  square 3 (Tile.image static_ex)
  /\ exists es,
      Tile.edges static_ex = Ok es
      /\ exists es', Tile.edges (Tile.rotate static_ex 1) = Ok es'
                     /\ same_borders es es'.
Proof.
  assert (Hsq : square 3 (Tile.image static_ex)).
  { split; [reflexivity|]. repeat constructor. }
  split; [exact Hsq|].
  destruct (transforms_keep_borders 3 static_ex Hsq)
    as (es & Hes & Hrot & _); [lia|].
  exists es. split; [exact Hes|]. exact (Hrot 1).
Defined.

(** ** Shape of the adjacency map *)
Section AdjacencyShape.

Lemma add_neighbour_nonempty i j (d : gmap Z (gset Z)) :
  (forall k s, d !! k = Some s -> s <> ∅) ->
  forall k s, add_neighbour i j d !! k = Some s -> s <> ∅.
Proof.
  intros Hd k s. unfold add_neighbour.
  destruct (decide (i = k)) as [->|Hne].
  - rewrite lookup_insert_eq. intros [= <-]. set_solver.
  - rewrite lookup_insert_ne by done. apply Hd.
Qed.

Lemma find_pairs_nonempty tiles pairs d d' :
  find_pairs tiles pairs d = Ok d' ->
  (forall k s, d !! k = Some s -> s <> ∅) ->
  forall k s, d' !! k = Some s -> s <> ∅.
Proof.
  revert d. induction pairs as [|[i j] pairs IH]; intros d H Hd.
  - simpl in H. by injection H as <-.
  - simpl in H. inv_bind H. inv_bind H. inv_bind H. inv_bind H.
    case_bool_decide.
    + apply (IH _ H). by do 2 apply add_neighbour_nonempty.
    + by apply (IH _ H).
Qed.

Lemma find_possible_neighbours_nonempty tiles d :
  find_possible_neighbours tiles = Ok d ->
  forall k s, d !! k = Some s -> s <> ∅.
Proof.
  intros H. apply (find_pairs_nonempty _ _ _ _ H).
  intros k s. by rewrite lookup_empty.
Qed.

Lemma lookup_neighbours (d : gmap Z (gset Z)) :
  (forall k s, d !! k = Some s -> s <> ∅) ->
  forall t, d !! t = if decide (neighbours d t = ∅) then None
                     else Some (neighbours d t).
Proof.
  intros Hd t. unfold neighbours. destruct (d !! t) as [s|] eqn:Ht; simpl.
  - rewrite decide_False; [done|]. by eapply Hd.
  - by rewrite decide_True.
Qed.

End AdjacencyShape.

(** X5.  The adjacency map of [find_possible_neighbours] is a symmetric
    relation without loops on the tiles of the dictionary: if [u] is listed
    for [t] then [t] is listed for [u], no tile is listed for itself, every
    key of the map and every listed neighbour is a key of [tiles], and no
    key maps to an empty collection (a tile without candidate neighbour is
    not a key at all). *)
Theorem adjacency_symmetric (tiles : tile_dict) (d : gmap Z (gset Z)) :
  NoDup (keys tiles) ->
  find_possible_neighbours tiles = Ok d ->
  (forall t u, u ∈ neighbours d t -> t ∈ neighbours d u)
  /\ (forall t, t ∉ neighbours d t)
  /\ (forall t ns,
        d !! t = Some ns ->
        ns <> ∅ /\ t ∈ keys tiles /\ forall u, u ∈ ns -> u ∈ keys tiles).
Proof.
  intros Hnd Hfind.
  pose proof (find_possible_neighbours_candidates tiles d Hnd Hfind) as Hc.
  split; [|split].
  - intros t u Hu. apply Hc. apply Hc in Hu as [Hne Hm].
    split; [done|]. by apply tiles_match_sym.
  - intros t Ht. by apply Hc in Ht as [Hne _].
  - intros t ns Ht.
    pose proof (find_possible_neighbours_nonempty tiles d Hfind t ns Ht) as Hns.
    assert (Hn : neighbours d t = ns) by (unfold neighbours; by rewrite Ht).
    split; [done|]. split.
    + apply set_choose_L in Hns as [u Hu]. rewrite <- Hn in Hu.
      apply Hc in Hu as (_ & tt & tu & et & eu & Hg & _).
      by eapply getitem_keys.
    + intros u Hu. rewrite <- Hn in Hu.
      apply Hc in Hu as (_ & tt & tu & et & eu & _ & Hg & _).
      by eapply getitem_keys.
Qed.

Lemma adjacency_symmetric_witness :
  NoDup (keys three_tiles)
  /\ exists d,
      find_possible_neighbours three_tiles = Ok d
      /\ forall t u, u ∈ neighbours d t -> t ∈ neighbours d u.
Proof.
  assert (Hnd : NoDup (keys three_tiles)).
  { apply (bool_decide_unpack _). vm_compute. reflexivity. }
  split; [exact Hnd|].
  destruct (find_possible_neighbours three_tiles) as [d|e] eqn:Hfind.
  - exists d. split; [reflexivity|].
    exact (proj1 (adjacency_symmetric three_tiles d Hnd Hfind)).
  - exfalso. vm_compute in Hfind. discriminate Hfind.
Defined.

(** ** The adjacency map does not depend on the orientation of the tiles *)
Section Reoriented.

Lemma same_borders_sym es es' : same_borders es es' -> same_borders es' es.
Proof. intros H e. symmetry. apply H. Qed.

Lemma edges_match_borders ei ei' ej ej' :
  same_borders ei ei' -> same_borders ej ej' ->
  edges_match ei ej -> edges_match ei' ej'.
Proof.
  intros Hi Hj (e & Hej & Hei).
  assert (H1 : e ∈ ei' \/ rev e ∈ ei') by (apply Hi; tauto).
  assert (H2 : e ∈ ej' \/ rev e ∈ ej') by (apply Hj; tauto).
  destruct H2 as [H2|H2].
  - exists e. tauto.
  - exists (rev e). rewrite rev_involutive. tauto.
Qed.

Lemma oriented_as_act n (t t' : Tile.t) :
  square n (Tile.image t) -> oriented_as t t' ->
  Tile.id t' = Tile.id t
  /\ exists g, Tile.image t' = act n g (Tile.image t).
Proof.
  intros Hsq. induction 1 as [|t' k _ [Hid [g Hg]]
                              |t' _ [Hid [g Hg]]|t' _ [Hid [g Hg]]].
  - split; [done|]. exists Rot0. by rewrite act_Rot0.
  - split; [done|]. exists (compose (rot_of k) g). simpl.
    rewrite Hg, (rot90_act n) by apply square_act. apply act_compose.
  - split; [done|]. exists (compose FlipUD g). simpl.
    rewrite Hg, (flipud_act n) by apply square_act. apply act_compose.
  - split; [done|]. exists (compose FlipLR g). simpl.
    rewrite Hg, (fliplr_act n) by apply square_act. apply act_compose.
Qed.

Lemma getitem_elem_of tiles k t : getitem tiles k = Ok t -> (k, t) ∈ tiles.
Proof.
  induction tiles as [|[k' t'] tiles IH]; simpl; [done|].
  destruct (decide (k' = k)) as [->|Hne].
  - intros [= ->]. by left.
  - intros H. right. by apply IH.
Qed.

Lemma keys_getitem tiles k :
  k ∈ keys tiles -> exists t, getitem tiles k = Ok t.
Proof.
  induction tiles as [|[k' t'] tiles IH]; simpl.
  - by intros ?%elem_of_nil.
  - destruct (decide (k' = k)) as [->|Hne]; [eauto|].
    intros [?|Hin]%elem_of_cons; [done|]. by apply IH.
Qed.

Lemma reoriented_keys tiles tiles' :
  reoriented tiles tiles' -> keys tiles' = keys tiles.
Proof.
  induction 1 as [|[k t] [k' t'] tiles tiles' [Hk _] _ IH]; [done|].
  simpl in *. by rewrite IH, Hk.
Qed.

Lemma reoriented_getitem tiles tiles' k :
  reoriented tiles tiles' ->
  (forall t, getitem tiles k = Ok t ->
             exists t', getitem tiles' k = Ok t' /\ oriented_as t t')
  /\ (forall t', getitem tiles' k = Ok t' ->
                 exists t, getitem tiles k = Ok t /\ oriented_as t t').
Proof.
  induction 1 as [|[k0 t0] [k0' t0'] tiles tiles' [Hk Ho] _ IH];
    [done|].
  simpl in *. subst k0'.
  destruct (decide (k0 = k)) as [->|Hne]; [|done].
  split; intros ? [= <-]; eauto.
Qed.

Lemma has_pixel_edges (t : Tile.t) :
  has_pixel t <-> exists es, Tile.edges t = Ok es.
Proof.
  unfold has_pixel, Tile.edges, Tile.borders.
  destruct (Tile.image t) as [|[|x r] m]; simpl; split;
    try done; try (by intros [es H]); eauto.
Qed.

Lemma edges_Raise (t : Tile.t) e : Tile.edges t = Raise e -> e = IndexError.
Proof.
  unfold Tile.edges, Tile.borders.
  destruct (Tile.image t) as [|[|x r] m]; simpl; by intros [= <-].
Qed.

Lemma square_has_pixel n (t : Tile.t) :
  square n (Tile.image t) -> (0 < n)%nat -> has_pixel t.
Proof.
  intros Hsq Hn. pose proof (square_row n _ 0%nat Hsq Hn) as Hrow.
  destruct Hsq as [Hlen _]. unfold has_pixel.
  destruct (Tile.image t) as [|[|x r] m]; simpl in *; done || lia.
Qed.

(** The loop over the pairs ends without exception when every tile it
    looks up can give its borders. *)
Lemma find_pairs_total tiles pairs d :
  (forall i j, (i, j) ∈ pairs -> i ∈ keys tiles /\ j ∈ keys tiles) ->
  (forall k t, getitem tiles k = Ok t -> has_pixel t) ->
  exists d', find_pairs tiles pairs d = Ok d'.
Proof.
  intros Hkeys Hpix. revert d.
  induction pairs as [|[i j] pairs IH]; intros d; simpl; [eauto|].
  destruct (Hkeys i j) as [Hi Hj]; [by left|].
  apply keys_getitem in Hi as [ti Hti], Hj as [tj Htj].
  destruct (proj1 (has_pixel_edges ti) (Hpix _ _ Hti)) as [ei Hei].
  destruct (proj1 (has_pixel_edges tj) (Hpix _ _ Htj)) as [ej Hej].
  rewrite Hti, bind_Ok_l, Hei, bind_Ok_l, Htj, bind_Ok_l, Hej, bind_Ok_l.
  assert (Hrest : forall i' j', (i', j') ∈ pairs ->
                                i' ∈ keys tiles /\ j' ∈ keys tiles).
  { intros i' j' Hin. apply Hkeys. by right. }
  case_bool_decide; by apply IH.
Qed.

Lemma combinations2_keys {A : Type} (l : list A) a b :
  (a, b) ∈ combinations2 l -> a ∈ l /\ b ∈ l.
Proof.
  intros (l1 & l2 & l3 & ->)%elem_of_combinations2. set_solver.
Qed.

Lemma find_possible_neighbours_total tiles :
  (forall k t, getitem tiles k = Ok t -> has_pixel t) ->
  exists d, find_possible_neighbours tiles = Ok d.
Proof.
  intros Hpix. apply find_pairs_total; [|done].
  intros i j. apply combinations2_keys.
Qed.

End Reoriented.

(** X6.  The adjacency map does not depend on how the tiles are turned: for
    a dictionary of [n] by [n] tiles (distinct keys, [n] positive),
    [find_possible_neighbours] returns a map, and it returns the same map
    when any of the tiles has first been rotated or reflected, any number of
    times. *)
Theorem adjacency_orientation_independent (n : nat)
    (tiles tiles' : tile_dict) :
  (0 < n)%nat ->
  NoDup (keys tiles) ->
  Forall (fun kt => square n (Tile.image kt.2)) tiles ->
  reoriented tiles tiles' ->
  exists d,
    find_possible_neighbours tiles = Ok d
    /\ find_possible_neighbours tiles' = Ok d.
Proof.
  intros Hn Hnd Hsq Hre.
  assert (Hsq1 : forall k t, getitem tiles k = Ok t -> square n (Tile.image t)).
  { intros k t Hg%getitem_elem_of.
    by apply (proj1 (Forall_forall _ _) Hsq (k, t)). }
  assert (Hact : forall k t t', getitem tiles k = Ok t ->
                   getitem tiles' k = Ok t' ->
                   exists g, Tile.image t' = act n g (Tile.image t)).
  { intros k t t' Hg Hg'.
    destruct (proj2 (reoriented_getitem _ _ k Hre) t' Hg') as (t0 & Hg0 & Ho).
    rewrite Hg in Hg0. injection Hg0 as <-.
    by destruct (oriented_as_act n t t' (Hsq1 _ _ Hg) Ho) as [_ Hg2]. }
  assert (Hsq2 : forall k t', getitem tiles' k = Ok t' ->
                              square n (Tile.image t')).
  { intros k t' Hg'.
    destruct (proj2 (reoriented_getitem _ _ k Hre) t' Hg') as (t & Hg & _).
    destruct (Hact k t t' Hg Hg') as [g ->]. apply square_act. }
  destruct (find_possible_neighbours_total tiles) as [d Hd].
  { intros k t Hg. apply (square_has_pixel n); eauto. }
  destruct (find_possible_neighbours_total tiles') as [d' Hd'].
  { intros k t Hg. apply (square_has_pixel n); eauto. }
  exists d. split; [done|]. rewrite Hd'. f_equal.
  assert (Hnd' : NoDup (keys tiles'))
    by (by rewrite (reoriented_keys _ _ Hre)).
  assert (Hmatch : forall t u, tiles_match tiles' t u <-> tiles_match tiles t u).
  { intros t u. split.
    - intros (tt' & tu' & et' & eu' & Ht' & Hu' & Het' & Heu' & Hm).
      destruct (proj2 (reoriented_getitem _ _ t Hre) tt' Ht') as (tt & Ht & _).
      destruct (proj2 (reoriented_getitem _ _ u Hre) tu' Hu') as (tu & Hu & _).
      destruct (Hact t tt tt' Ht Ht') as [g Hg].
      destruct (Hact u tu tu' Hu Hu') as [h Hh].
      destruct (edges_act n tt tt' g (Hsq1 _ _ Ht) Hn Hg)
        as (et & et0 & Het & Het0 & Hbt).
      destruct (edges_act n tu tu' h (Hsq1 _ _ Hu) Hn Hh)
        as (eu & eu0 & Heu & Heu0 & Hbu).
      rewrite Het' in Het0. injection Het0 as <-.
      rewrite Heu' in Heu0. injection Heu0 as <-.
      exists tt, tu, et, eu. repeat (split; [done|]).
      by apply (edges_match_borders et' et eu' eu);
        [apply same_borders_sym|apply same_borders_sym|].
    - intros (tt & tu & et & eu & Ht & Hu & Het & Heu & Hm).
      destruct (proj1 (reoriented_getitem _ _ t Hre) tt Ht) as (tt' & Ht' & _).
      destruct (proj1 (reoriented_getitem _ _ u Hre) tu Hu) as (tu' & Hu' & _).
      destruct (Hact t tt tt' Ht Ht') as [g Hg].
      destruct (Hact u tu tu' Hu Hu') as [h Hh].
      destruct (edges_act n tt tt' g (Hsq1 _ _ Ht) Hn Hg)
        as (et0 & et' & Het0 & Het' & Hbt).
      destruct (edges_act n tu tu' h (Hsq1 _ _ Hu) Hn Hh)
        as (eu0 & eu' & Heu0 & Heu' & Hbu).
      rewrite Het in Het0. injection Het0 as <-.
      rewrite Heu in Heu0. injection Heu0 as <-.
      exists tt', tu', et', eu'. repeat (split; [done|]).
      by apply (edges_match_borders et et' eu eu'). }
  assert (Hnb : forall t, neighbours d' t = neighbours d t).
  { intros t. apply set_eq. intros u.
    rewrite (find_possible_neighbours_candidates tiles' d' Hnd' Hd').
    rewrite (find_possible_neighbours_candidates tiles d Hnd Hd).
    unfold candidate. by rewrite Hmatch. }
  apply map_eq. intros t.
  rewrite (lookup_neighbours d'
             (find_possible_neighbours_nonempty _ _ Hd')).
  rewrite (lookup_neighbours d
             (find_possible_neighbours_nonempty _ _ Hd)).
  by rewrite Hnb.
Qed.

Lemma adjacency_orientation_independent_witness :
  NoDup (keys three_tiles)
  /\ reoriented three_tiles three_tiles_turned
  /\ exists d,
      find_possible_neighbours three_tiles = Ok d
      /\ find_possible_neighbours three_tiles_turned = Ok d.
Proof.
  assert (Hnd : NoDup (keys three_tiles)).
  { apply (bool_decide_unpack _). vm_compute. reflexivity. }
  assert (Hre : reoriented three_tiles three_tiles_turned).
  { unfold reoriented, three_tiles, three_tiles_turned.
    constructor; [split; [reflexivity|apply oriented_refl]|].
    constructor;
      [split; [reflexivity|apply oriented_rotate, oriented_refl]|].
    constructor;
      [split; [reflexivity|apply oriented_reflect_up_down, oriented_refl]|].
    constructor. }
  split; [exact Hnd|]. split; [exact Hre|].
  apply (adjacency_orientation_independent 2 three_tiles three_tiles_turned);
    [lia|exact Hnd| |exact Hre].
  repeat constructor.
Defined.

(** ** Exceptions of the adjacency finder *)
Section AdjacencyErrors.

Lemma elem_of_getitem tiles k t :
  NoDup (keys tiles) -> (k, t) ∈ tiles -> getitem tiles k = Ok t.
Proof.
  induction tiles as [|[k' t'] tiles IH]; simpl; intros Hnd Hin.
  - by apply elem_of_nil in Hin.
  - apply NoDup_cons in Hnd as [Hnin Hnd].
    apply elem_of_cons in Hin as [[= -> ->]|Hin].
    + by rewrite decide_True.
    + rewrite decide_False; [by apply IH|].
      intros ->. apply Hnin. apply list_elem_of_fmap. by exists (k, t).
Qed.

Lemma find_pairs_raise tiles pairs d :
  (forall i j, (i, j) ∈ pairs -> i ∈ keys tiles /\ j ∈ keys tiles) ->
  (exists i j t, (i, j) ∈ pairs
                 /\ (getitem tiles i = Ok t \/ getitem tiles j = Ok t)
                 /\ ~ has_pixel t) ->
  find_pairs tiles pairs d = Raise IndexError.
Proof.
  intros Hkeys. revert d.
  induction pairs as [|[i j] pairs IH]; intros d (i0 & j0 & t & Hin & Hg & Hbad).
  - by apply elem_of_nil in Hin.
  - simpl. destruct (Hkeys i j) as [Hi Hj]; [by left|].
    apply keys_getitem in Hi as [ti Hti], Hj as [tj Htj].
    rewrite Hti, bind_Ok_l.
    destruct (Tile.edges ti) as [ei|e] eqn:Hei;
      [|by rewrite (edges_Raise _ _ Hei)].
    rewrite bind_Ok_l, Htj, bind_Ok_l.
    destruct (Tile.edges tj) as [ej|e] eqn:Hej;
      [|by rewrite (edges_Raise _ _ Hej)].
    rewrite bind_Ok_l.
    assert (Htail : exists i j t, (i, j) ∈ pairs
               /\ (getitem tiles i = Ok t \/ getitem tiles j = Ok t)
               /\ ~ has_pixel t).
    { apply elem_of_cons in Hin as [[= -> ->]|Hin]; [|by eauto 10].
      exfalso. apply Hbad, has_pixel_edges.
      destruct Hg as [Hg|Hg].
      - rewrite Hti in Hg. injection Hg as <-. eauto.
      - rewrite Htj in Hg. injection Hg as <-. eauto. }
    assert (Hrest : forall i' j', (i', j') ∈ pairs ->
                                  i' ∈ keys tiles /\ j' ∈ keys tiles).
    { intros i' j' Hin'. apply Hkeys. by right. }
    case_bool_decide; by apply IH.
Qed.

End AdjacencyErrors.

(** X7.  Exceptions of [find_possible_neighbours], for a dictionary with
    distinct keys.  With fewer than two tiles no tile is looked at and the
    map is empty.  When every tile image has a first row with a first pixel
    the call returns a map.  With two tiles or more, one tile whose image
    has no row, or whose first row has no pixel, makes the call raise
    [IndexError]. *)
Theorem adjacency_exceptions (tiles : tile_dict) :
  NoDup (keys tiles) ->
  ((length tiles < 2)%nat -> find_possible_neighbours tiles = Ok ∅)
  /\ (Forall (fun kt => has_pixel kt.2) tiles ->
      exists d, find_possible_neighbours tiles = Ok d)
  /\ ((2 <= length tiles)%nat ->
      Exists (fun kt => ~ has_pixel kt.2) tiles ->
      find_possible_neighbours tiles = Raise IndexError).
Proof.
  intros Hnd. split; [|split].
  - intros Hlen. destruct tiles as [|kt [|kt' tiles]]; simpl in Hlen;
      [done|done|lia].
  - intros Hall. apply find_possible_neighbours_total.
    intros k t Hg%getitem_elem_of.
    by apply (proj1 (Forall_forall _ _) Hall (k, t)).
  - intros Hlen Hex. apply Exists_exists in Hex as ([k t] & Hin & Hbad).
    simpl in Hbad.
    assert (Hother : exists k', k' ∈ keys tiles /\ k' <> k).
    { destruct tiles as [|[k1 t1] [|[k2 t2] tiles]]; simpl in Hlen; try lia.
      simpl in Hnd. apply NoDup_cons in Hnd as [Hnin _].
      destruct (decide (k1 = k)) as [->|Hne].
      - exists k2. split; [simpl; right; by left|].
        intros ->. apply Hnin. by left.
      - exists k1. split; [by left|done]. }
    destruct Hother as (k' & Hk' & Hne).
    assert (Hk : k ∈ keys tiles).
    { apply list_elem_of_fmap. by exists (k, t). }
    apply find_pairs_raise; [intros i j; apply combinations2_keys|].
    destruct (proj2 (combinations2_pair (keys tiles) k k' Hnd))
      as [Hp|Hp]; [done| |].
    + exists k, k', t. split; [done|]. split; [|done].
      left. by apply elem_of_getitem.
    + exists k', k, t. split; [done|]. split; [|done].
      right. by apply elem_of_getitem.
Qed.

Lemma adjacency_exceptions_witness :
  NoDup (keys tiles_with_blank)
  /\ find_possible_neighbours tiles_with_blank = Raise IndexError.
Proof.
  assert (Hnd : NoDup (keys tiles_with_blank)).
  { apply (bool_decide_unpack _). vm_compute. reflexivity. }
  split; [exact Hnd|].
  apply (proj2 (proj2 (adjacency_exceptions tiles_with_blank Hnd))).
  - simpl. lia.
  - apply Exists_cons_tl, Exists_cons_hd. simpl. tauto.
Defined.

(** ** What the search leaves behind *)
Section MatcherResult.

Variable pop : nat -> edge_set -> edge.

Lemma tile_step_oriented i t : oriented_as t (tile_step i t).
Proof.
  unfold tile_step. destruct (i =? 4)%nat; repeat constructor.
Qed.

Lemma oriented_as_trans t1 t2 t3 :
  oriented_as t1 t2 -> oriented_as t2 t3 -> oriented_as t1 t3.
Proof. intros H12. induction 1; by try constructor. Qed.

Lemma tiles_from_oriented steps t t' :
  t' ∈ tiles_from steps t -> oriented_as t t'.
Proof.
  revert t. induction steps as [|i steps IH]; intros t; simpl.
  - by intros ?%elem_of_nil.
  - intros [->|Hin]%elem_of_cons; [apply tile_step_oriented|].
    eapply oriented_as_trans; [apply tile_step_oriented|by apply IH].
Qed.

Lemma last_tiles_from steps t :
  steps <> [] -> List.last (tiles_from steps t) t ∈ tiles_from steps t.
Proof.
  revert t. induction steps as [|i steps IH]; intros t Hne; [done|].
  simpl tiles_from. rewrite last_cons_default.
  destruct steps as [|i' steps]; [by left|]. right. by apply IH.
Qed.

(** The loop ends on the last tile it looked at with [m] unassigned or
    [None], or on an earlier one with a side. *)
Lemma match_loop_result static_tile steps other_tile m t' m' :
  match_loop pop static_tile steps other_tile m = Ok (t', m') ->
  (t' = List.last (tiles_from steps other_tile) other_tile
   /\ (m' = m \/ m' = Bound None))
  \/ (t' ∈ tiles_from steps other_tile /\ exists side, m' = Bound (Some side)).
Proof.
  revert other_tile m.
  induction steps as [|i steps IH]; intros other_tile m H.
  - injection H as <- <-. left. by split; [|left].
  - simpl in H. fold (tile_step i other_tile) in H.
    simpl tiles_from. rewrite last_cons_default.
    inv_bind H. inv_bind H.
    assert (Hlater : forall m0,
      match_loop pop static_tile steps (tile_step i other_tile) m0
      = Ok (t', m') ->
      (m0 = m \/ m0 = Bound None) ->
      (t' = List.last (tiles_from steps (tile_step i other_tile))
              (tile_step i other_tile)
       /\ (m' = m \/ m' = Bound None))
      \/ (t' ∈ tile_step i other_tile
                :: tiles_from steps (tile_step i other_tile)
          /\ exists side, m' = Bound (Some side))).
    { intros m0 H0 Hm0. apply IH in H0 as [[-> Hm']|[Hin Hside]].
      - left. split; [done|]. destruct Hm' as [->| ->]; tauto.
      - right. split; [by right|done]. }
    case_bool_decide.
    + inv_bind H. destruct a1 as [side|].
      * injection H as <- <-. right. split; [by left|eauto].
      * apply (Hlater _ H). by right.
    + apply (Hlater _ H). by left.
Qed.

Lemma last_map {A B : Type} (f : A -> B) (l : list A) (d : A) :
  f (List.last l d) = List.last (map f l) (f d).
Proof.
  revert d. induction l as [|x l IH]; intros d; [done|]. simpl map.
  by rewrite !last_cons_default.
Qed.

Lemma searched_tiles_last n (other_tile : Tile.t) :
  square n (Tile.image other_tile) ->
  List.last (searched_tiles other_tile) other_tile
  = Tile.reflect_left_right other_tile.
Proof.
  intros Hsq.
  assert (Hid : Tile.id (List.last (searched_tiles other_tile) other_tile)
                = Tile.id other_tile).
  { apply (oriented_as_act n); [done|]. apply tiles_from_oriented with (range 8).
    by apply last_tiles_from. }
  assert (Himg : Tile.image (List.last (searched_tiles other_tile) other_tile)
                 = fliplr (Tile.image other_tile)).
  { rewrite (last_map Tile.image). unfold searched_tiles.
    rewrite tiles_from_orientations.
    fold (orientations (Tile.image other_tile)).
    rewrite (orientations_act n) by done. simpl.
    symmetry. by apply fliplr_act. }
  destruct (List.last (searched_tiles other_tile) other_tile) as [i m].
  simpl in *. unfold Tile.reflect_left_right. by rewrite Hid, Himg.
Qed.

End MatcherResult.

(** X8.  Whatever [match_two_tiles] returns, the other tile is left as one
    of the eight tiles of the search: it keeps its identifier, and its image
    is a symmetry of the image it had.  When the returned value is [None],
    the search went through all eight orientations and the other tile is
    left as its own mirror image, the result of [reflect_left_right], not as
    it was passed in. *)
Theorem match_two_tiles_keeps_tile (pop : nat -> edge_set -> edge)
    (n : nat) (static_tile other_tile other' : Tile.t) (v : option nat) :
  square n (Tile.image other_tile) ->
  match_two_tiles pop static_tile other_tile = Ok (other', v) ->
  other' ∈ searched_tiles other_tile
  /\ Tile.id other' = Tile.id other_tile
  /\ (exists g, Tile.image other' = act n g (Tile.image other_tile))
  /\ (v = None -> other' = Tile.reflect_left_right other_tile).
Proof.
  intros Hsq H. apply match_two_tiles_Ok in H.
  assert (Hin : other' ∈ searched_tiles other_tile).
  { apply match_loop_result in H as [[-> _]|[Hin _]]; [|done].
    by apply last_tiles_from. }
  split; [done|].
  pose proof (oriented_as_act n _ _ Hsq (tiles_from_oriented _ _ _ Hin))
    as [Hid Hg].
  split; [done|]. split; [done|].
  intros ->. apply match_loop_result in H as [[-> _]|[_ [side Hside]]].
  - by apply (searched_tiles_last n).
  - discriminate Hside.
Qed.

Lemma match_two_tiles_keeps_tile_witness :
  square 3 (Tile.image other_ex)
  /\ match_two_tiles pop_first static_ex other_ex = Ok (other_ex_final, None)
  /\ other_ex_final = Tile.reflect_left_right other_ex.
Proof.
  assert (Hsq : square 3 (Tile.image other_ex)).
  { split; [reflexivity|]. repeat constructor. }
  assert (Hrun : match_two_tiles pop_first static_ex other_ex
                 = Ok (other_ex_final, None)) by (vm_compute; reflexivity).
  split; [exact Hsq|]. split; [exact Hrun|].
  exact (proj2 (proj2 (proj2
    (match_two_tiles_keeps_tile pop_first 3 static_ex other_ex
       other_ex_final None Hsq Hrun))) eq_refl).
Defined.

(** ** A search that finds the join *)
Section MatcherFinds.

Variable pop : nat -> edge_set -> edge.
Hypothesis pop_in : pop_member pop.

Lemma index_at (L : list edge) e q :
  L !! q = Some e ->
  (forall p x, (p < q)%nat -> L !! p = Some x -> x <> e) ->
  index L e = Ok q.
Proof.
  revert q. induction L as [|y L IH]; intros q Hq Hfirst; [done|].
  simpl. destruct q as [|q].
  - injection Hq as ->. by rewrite decide_True.
  - rewrite decide_False by (apply (Hfirst 0%nat); [lia|done]).
    rewrite (IH q); [done|done|].
    intros p x Hp Hx. apply (Hfirst (S p)); [lia|done].
Qed.

(** Two edge sets that can only share [e] share nothing or [e] alone. *)
Lemma shared_only (L ls : list edge) e :
  (forall x, x ∈ L -> x ∈ ls -> x = e) ->
  list_intersection (remove_dups L) (remove_dups ls) = []
  /\ (e ∉ L \/ e ∉ ls)
  \/ list_intersection (remove_dups L) (remove_dups ls) = [e]
     /\ e ∈ L /\ e ∈ ls.
Proof.
  intros Honly.
  set (s := list_intersection (remove_dups L) (remove_dups ls)).
  assert (Hs : forall x, x ∈ s <-> x ∈ L /\ x ∈ ls).
  { intros x. unfold s.
    by rewrite list_elem_of_intersection, !elem_of_remove_dups. }
  assert (Hnd : NoDup s).
  { apply NoDup_list_intersection, NoDup_remove_dups. }
  destruct s as [|x [|y s]].
  - left. split; [done|].
    destruct (decide (e ∈ L)) as [HL|HL]; [|by left].
    right. intros Hls. by apply (elem_of_nil e), Hs.
  - right. assert (Hx : x ∈ [x]) by by left.
    apply Hs in Hx as [HL Hls]. by rewrite <- (Honly x HL Hls) at 1 2 3.
  - exfalso.
    assert (Hx : x ∈ x :: y :: s) by by left.
    assert (Hy : y ∈ x :: y :: s) by (right; by left).
    apply Hs in Hx as [HxL Hxl]. apply Hs in Hy as [HyL Hyl].
    apply NoDup_cons in Hnd as [Hnin _]. apply Hnin.
    rewrite (Honly x HxL Hxl), <- (Honly y HyL Hyl). by left.
Qed.

Lemma shared_edges_Ok static_tile t ls L :
  Tile.list_edges static_tile = Ok ls -> Tile.list_edges t = Ok L ->
  shared_edges static_tile t
  = Ok (list_intersection (remove_dups L) (remove_dups ls)).
Proof.
  intros Hls HL. unfold shared_edges.
  by rewrite (edges_list_edges _ _ HL), (edges_list_edges _ _ Hls).
Qed.

Lemma check_match_single step static_tile t ls L e i q :
  Tile.list_edges static_tile = Ok ls -> index ls e = Ok i ->
  Tile.list_edges t = Ok L -> index L e = Ok q ->
  check_match pop step static_tile t [e]
  = Ok (if bool_decide ((i, q) ∈ opposite_sides) then Some i else None).
Proof.
  intros Hls Hi HL Hq. unfold check_match.
  rewrite (set_pop_singleton pop pop_in), bind_Ok_l.
  rewrite Hls, bind_Ok_l, Hi, bind_Ok_l, HL, bind_Ok_l, Hq, bind_Ok_l.
  by case_bool_decide.
Qed.

Lemma match_loop_stop static_tile i steps other_tile m s side :
  shared_edges static_tile (tile_step i other_tile) = Ok s ->
  s <> [] ->
  check_match pop i static_tile (tile_step i other_tile) s
  = Ok (Some side) ->
  match_loop pop static_tile (i :: steps) other_tile m
  = Ok (tile_step i other_tile, Bound (Some side)).
Proof.
  unfold shared_edges. intros H Hne Hcheck.
  simpl. fold (tile_step i other_tile).
  inv_bind H. inv_bind H. inversion H as [Hs]. rewrite Ha, Ha0. simpl.
  rewrite Hs, bool_decide_eq_true_2 by done.
  by rewrite Hcheck.
Qed.

(** When [e] is the only edge that the static tile can share with the
    tiles of the search, and one of them carries it opposite to the side
    [i] where the static tile has it, the loop stops on such a tile. *)
Lemma match_loop_finds static_tile ls e i steps other_tile m :
  Tile.list_edges static_tile = Ok ls -> index ls e = Ok i ->
  (forall t, t ∈ tiles_from steps other_tile ->
     exists L, Tile.list_edges t = Ok L
               /\ forall x, x ∈ L -> x ∈ ls -> x = e) ->
  (exists t L q, t ∈ tiles_from steps other_tile
     /\ Tile.list_edges t = Ok L /\ index L e = Ok q
     /\ (i, q) ∈ opposite_sides) ->
  exists t L q, t ∈ tiles_from steps other_tile
     /\ Tile.list_edges t = Ok L /\ index L e = Ok q
     /\ (i, q) ∈ opposite_sides
     /\ match_loop pop static_tile steps other_tile m
        = Ok (t, Bound (Some i)).
Proof.
  intros Hls Hi. revert other_tile m.
  induction steps as [|i0 steps IH]; intros other_tile m Honly Hex.
  - destruct Hex as (t & L & q & Hin & _). by apply elem_of_nil in Hin.
  - set (t1 := tile_step i0 other_tile).
    change (tiles_from (i0 :: steps) other_tile)
      with (t1 :: tiles_from steps t1) in *.
    destruct (Honly t1) as (L1 & HL1 & Honly1); [by left|].
    assert (Hlater : forall m0,
      match_loop pop static_tile (i0 :: steps) other_tile m
      = match_loop pop static_tile steps t1 m0 ->
      (forall q, index L1 e = Ok q -> (i, q) ∉ opposite_sides) ->
      exists t L q, t ∈ t1 :: tiles_from steps t1
        /\ Tile.list_edges t = Ok L /\ index L e = Ok q
        /\ (i, q) ∈ opposite_sides
        /\ match_loop pop static_tile (i0 :: steps) other_tile m
           = Ok (t, Bound (Some i))).
    { intros m0 Hrun Hnot.
      destruct (IH t1 m0) as (t & L & q & Hin & HL & Hq & Hopp & Hres).
      - intros t Hin. apply Honly. by right.
      - destruct Hex as (t & L & q & Hin & HL & Hq & Hopp).
        apply elem_of_cons in Hin as [->|Hin]; [|by eauto 8].
        rewrite HL1 in HL. injection HL as <-. by destruct (Hnot q).
      - exists t, L, q. rewrite Hrun. by repeat split; [right|..]. }
    pose proof (shared_edges_Ok _ _ _ _ Hls HL1) as Hshared.
    destruct (shared_only L1 ls e Honly1) as [[Hs Hout]|[Hs [HeL Hels]]];
      rewrite Hs in Hshared.
    + apply (Hlater m); [by apply match_loop_skip|].
      intros q Hq _. apply index_lookup, list_elem_of_lookup_2 in Hq.
      apply index_lookup, list_elem_of_lookup_2 in Hi. tauto.
    + destruct (index_member L1 e HeL) as [q1 Hq1].
      pose proof (check_match_single i0 _ _ _ _ _ _ _ Hls Hi HL1 Hq1)
        as Hcheck.
      case_bool_decide as Hopp.
      * exists t1, L1, q1. split; [by left|]. do 3 (split; [done|]).
        by apply (match_loop_stop _ _ _ _ _ [e]).
      * apply (Hlater (Bound None)).
        { by apply (match_loop_continue pop _ _ _ _ _ [e]). }
        intros q Hq. rewrite Hq1 in Hq. by injection Hq as <-.
Qed.

Lemma edges_after_elem g (t0 t1 t2 t3 x : edge) :
  x ∈ edges_after g [t0; t1; t2; t3] ->
  exists b, b ∈ [t0; t1; t2; t3] /\ (x = b \/ x = rev b).
Proof.
  intros Hx.
  destruct (proj1 (same_borders_after g t0 t1 t2 t3 x) (or_introl Hx))
    as [H|H].
  - exists x. by split; [|left].
  - exists (rev x). split; [done|]. right. by rewrite rev_involutive.
Qed.

Lemma not_shared ls lo i j e k b :
  only_shared_border ls lo i j -> ls !! i = Some e ->
  lo !! k = Some b -> k <> j -> b <> e /\ rev b <> e.
Proof.
  intros Hu Hls Hlo Hk.
  split; intros Heq; destruct (Hu i k e b Hls Hlo) as [_ ?]; try done.
  - by left.
  - by right.
Qed.

Ltac other_border Hu Hls :=
  first
    [ exact (proj1 (not_shared _ _ _ _ _ 0%nat _ Hu Hls eq_refl ltac:(lia)))
    | exact (proj2 (not_shared _ _ _ _ _ 0%nat _ Hu Hls eq_refl ltac:(lia)))
    | exact (proj1 (not_shared _ _ _ _ _ 1%nat _ Hu Hls eq_refl ltac:(lia)))
    | exact (proj2 (not_shared _ _ _ _ _ 1%nat _ Hu Hls eq_refl ltac:(lia)))
    | exact (proj1 (not_shared _ _ _ _ _ 2%nat _ Hu Hls eq_refl ltac:(lia)))
    | exact (proj2 (not_shared _ _ _ _ _ 2%nat _ Hu Hls eq_refl ltac:(lia)))
    | exact (proj1 (not_shared _ _ _ _ _ 3%nat _ Hu Hls eq_refl ltac:(lia)))
    | exact (proj2 (not_shared _ _ _ _ _ 3%nat _ Hu Hls eq_refl ltac:(lia)))
    ].

Ltac try_symmetry g q He Hu Hls :=
  exists g, q; split;
  [ apply index_at;
    [ simpl; rewrite He, ?rev_involutive; reflexivity
    | let p := fresh "p" in
      let x := fresh "x" in
      let Hp := fresh "Hp" in
      let Hx := fresh "Hx" in
      intros p x Hp Hx;
      destruct p as [|[|[|p]]]; try lia;
      simpl in Hx; injection Hx as <-; other_border Hu Hls ]
  | apply list_elem_of_In; simpl; tauto ].

Ltac some_symmetry q He Hu Hls :=
  first
    [ try_symmetry Rot0 q He Hu Hls | try_symmetry Rot1 q He Hu Hls
    | try_symmetry Rot2 q He Hu Hls | try_symmetry Rot3 q He Hu Hls
    | try_symmetry Transpose q He Hu Hls | try_symmetry FlipUD q He Hu Hls
    | try_symmetry AntiTranspose q He Hu Hls
    | try_symmetry FlipLR q He Hu Hls ].

(** Some symmetry brings the shared border opposite to side [i], in the
    reading direction of the static tile, and first among the ordered
    edges. *)
Lemma edges_after_opposite (t0 t1 t2 t3 : edge) ls i j e e' :
  (i < 4)%nat ->
  ls !! i = Some e -> [t0; t1; t2; t3] !! j = Some e' ->
  e = e' \/ e = rev e' ->
  only_shared_border ls [t0; t1; t2; t3] i j ->
  exists g q, index (edges_after g [t0; t1; t2; t3]) e = Ok q
              /\ (i, q) ∈ opposite_sides.
Proof.
  intros Hi Hls Hlo He Hu.
  destruct j as [|[|[|[|j]]]]; try discriminate Hlo;
    injection Hlo as <-;
    (destruct i as [|[|[|[|i]]]]; [| | | |lia]);
    destruct He as [He|He].
  all: first [ some_symmetry 1%nat He Hu Hls | some_symmetry 0%nat He Hu Hls
             | some_symmetry 3%nat He Hu Hls | some_symmetry 2%nat He Hu Hls ].
Qed.

End MatcherFinds.

Section SearchedTiles.

Lemma list_edges_length (t : Tile.t) l :
  Tile.list_edges t = Ok l -> length l = 4%nat.
Proof.
  unfold Tile.list_edges, Tile.borders.
  destruct (Tile.image t) as [|[|x r] m]; try done. by intros [= <-].
Qed.

(** Every symmetry of the image is the image of a tile of the search. *)
Lemma searched_tiles_all n (other_tile : Tile.t) g :
  square n (Tile.image other_tile) ->
  exists t, t ∈ searched_tiles other_tile
            /\ Tile.image t = act n g (Tile.image other_tile).
Proof.
  intros Hsq.
  assert (Hin : act n g (Tile.image other_tile)
                ∈ map Tile.image (searched_tiles other_tile)).
  { unfold searched_tiles. rewrite tiles_from_orientations.
    fold (orientations (Tile.image other_tile)).
    rewrite (orientations_act n) by done.
    apply list_elem_of_In, in_map_iff. exists g. split; [done|].
    destruct g; simpl; tauto. }
  apply list_elem_of_In, in_map_iff in Hin as (t & Himg & Hin).
  apply list_elem_of_In in Hin. eauto.
Qed.

(** The loop of the matcher on two tiles with one border in common. *)
Lemma match_loop_finds_border (pop : nat -> edge_set -> edge)
    (n : nat) (static_tile other_tile : Tile.t) (ls lo : list edge)
    (i j : nat) (e e' : edge) :
  pop_member pop ->
  square n (Tile.image other_tile) -> (0 < n)%nat ->
  Tile.list_edges static_tile = Ok ls ->
  Tile.list_edges other_tile = Ok lo ->
  ls !! i = Some e -> lo !! j = Some e' -> e = e' \/ e = rev e' ->
  only_shared_border ls lo i j ->
  exists other' lo' q,
    other' ∈ searched_tiles other_tile
    /\ Tile.list_edges other' = Ok lo'
    /\ index lo' e = Ok q
    /\ (i, q) ∈ opposite_sides
    /\ match_loop pop static_tile (range 8) other_tile Unbound
       = Ok (other', Bound (Some i)).
Proof.
  intros Hpop Hsq Hn Hls Hlo Hi Hj He Hu.
  destruct (list_edges_four n other_tile Hsq Hn)
    as (t0 & t1 & t2 & t3 & Hfour & _).
  rewrite Hfour in Hlo. injection Hlo as <-.
  assert (Hlt : (i < 4)%nat).
  { rewrite <- (list_edges_length _ _ Hls). by apply lookup_lt_Some in Hi. }
  assert (Hindex : index ls e = Ok i).
  { apply index_at; [done|]. intros p x Hp Hx ->.
    destruct (Hu p j e e' Hx Hj He) as [-> _]. lia. }
  assert (Hedges : forall t g,
            Tile.image t = act n g (Tile.image other_tile) ->
            Tile.list_edges t = Ok (edges_after g [t0; t1; t2; t3])).
  { intros t g Hg. by apply (list_edges_act n other_tile). }
  destruct (match_loop_finds pop Hpop static_tile ls e i (range 8)
              other_tile Unbound Hls Hindex)
    as (t & L & q & Hin & HL & Hq & Hopp & Hrun).
  - intros t Hin.
    destruct (oriented_as_act n _ _ Hsq (tiles_from_oriented _ _ _ Hin))
      as [_ [g Hg]].
    exists (edges_after g [t0; t1; t2; t3]). split; [by apply Hedges|].
    intros x Hx Hxs. apply edges_after_elem in Hx as (b & Hb & Hxb).
    apply list_elem_of_lookup_1 in Hxs as [i' Hi'].
    apply list_elem_of_lookup_1 in Hb as [j' Hj'].
    destruct (Hu i' j' x b Hi' Hj' Hxb) as [-> _].
    rewrite Hi in Hi'. by injection Hi'.
  - destruct (edges_after_opposite t0 t1 t2 t3 ls i j e e' Hlt Hi Hj He Hu)
      as (g & q & Hq & Hopp).
    destruct (searched_tiles_all n other_tile g Hsq) as (t & Hin & Hg).
    exists t, (edges_after g [t0; t1; t2; t3]), q.
    split; [done|]. split; [by apply Hedges|done].
  - by exists t, L, q.
Qed.

End SearchedTiles.

(** X9.  The search finds the join of two tiles that have one border in
    common.  Let the static tile carry the edge [e] on its side [i], let
    the square other tile carry [e], in either reading direction, on its
    side [j], and let no other pair of sides of the two tiles hold equal
    edges in either direction.  Then, whatever elements [set.pop] picks,
    [match_two_tiles] returns [i], and it leaves the other tile in an
    orientation of the search in which [e] is first found on the side
    opposite to [i]. *)
Theorem match_two_tiles_finds_border (pop : nat -> edge_set -> edge)
    (n : nat) (static_tile other_tile : Tile.t) (ls lo : list edge)
    (i j : nat) (e e' : edge) :
  pop_member pop ->
  square n (Tile.image other_tile) -> (0 < n)%nat ->
  Tile.list_edges static_tile = Ok ls ->
  Tile.list_edges other_tile = Ok lo ->
  ls !! i = Some e -> lo !! j = Some e' -> e = e' \/ e = rev e' ->
  only_shared_border ls lo i j ->
  exists other' lo' q,
    match_two_tiles pop static_tile other_tile = Ok (other', Some i)
    /\ other' ∈ searched_tiles other_tile
    /\ Tile.list_edges other' = Ok lo'
    /\ index lo' e = Ok q
    /\ (i, q) ∈ opposite_sides.
Proof.
  intros Hpop Hsq Hn Hls Hlo Hi Hj He Hu.
  destruct (match_loop_finds_border pop n static_tile other_tile ls lo i j
              e e' Hpop Hsq Hn Hls Hlo Hi Hj He Hu)
    as (t & L & q & Hin & HL & Hq & Hopp & Hrun).
  exists t, L, q. split; [|done].
  unfold match_two_tiles. rewrite Hrun, bind_Ok_l. reflexivity.
Qed.

Lemma match_two_tiles_finds_border_witness :
  pop_member pop_first
  /\ square 4 (Tile.image right_ex)
  /\ only_shared_border
       [[0; 1; 1; 1]; [1; 1; 1; 0]; [0; 1; 0; 1]; [1; 1; 0; 0]]
       [[1; 1; 0; 0]; [1; 0; 0; 0]; [1; 0; 1; 1]; [0; 1; 1; 0]] 3 0
  /\ exists other' lo' q,
      match_two_tiles pop_first left_ex right_ex = Ok (other', Some 3%nat)
      /\ other' ∈ searched_tiles right_ex
      /\ Tile.list_edges other' = Ok lo'
      /\ index lo' [1; 1; 0; 0] = Ok q
      /\ (3%nat, q) ∈ opposite_sides.
Proof.
  assert (Hsq : square 4 (Tile.image right_ex)).
  { split; [reflexivity|]. repeat constructor. }
  assert (Hu : only_shared_border
                 [[0; 1; 1; 1]; [1; 1; 1; 0]; [0; 1; 0; 1]; [1; 1; 0; 0]]
                 [[1; 1; 0; 0]; [1; 0; 0; 0]; [1; 0; 1; 1]; [0; 1; 1; 0]]
                 3 0).
  { intros i' j' a b Ha Hb Hab.
    destruct i' as [|[|[|[|i']]]]; try discriminate Ha;
      injection Ha as <-;
      (destruct j' as [|[|[|[|j']]]]; try discriminate Hb);
      injection Hb as <-;
      simpl in Hab; destruct Hab as [Hab|Hab]; try discriminate Hab;
      split; reflexivity. }
  split; [exact pop_first_member|]. split; [exact Hsq|]. split; [exact Hu|].
  apply (match_two_tiles_finds_border pop_first 4 left_ex right_ex
           [[0; 1; 1; 1]; [1; 1; 1; 0]; [0; 1; 0; 1]; [1; 1; 0; 0]]
           [[1; 1; 0; 0]; [1; 0; 0; 0]; [1; 0; 1; 1]; [0; 1; 1; 0]]
           3 0 [1; 1; 0; 0] [1; 1; 0; 0]).
  - exact pop_first_member.
  - exact Hsq.
  - lia.
  - reflexivity.
  - reflexivity.
  - reflexivity.
  - reflexivity.
  - left. reflexivity.
  - exact Hu.
Defined.

(** ** [np.where]: the first cell in row-major order *)
Section WhereFirst.

Lemma find_in_row_spec v r :
  match find_in_row v r with
  | Some b => r !! b = Some v /\ forall b', (b' < b)%nat -> r !! b' <> Some v
  | None => v ∉ r
  end.
Proof.
  induction r as [|x r IH]; simpl.
  - apply not_elem_of_nil.
  - destruct (decide (x = v)) as [->|Hne].
    + split; [done|]. intros b' Hb'. lia.
    + destruct (find_in_row v r) as [b|]; simpl.
      * destruct IH as [Hb Hfirst]. split; [done|].
        intros [|b'] Hb'; simpl; [congruence|]. apply Hfirst. lia.
      * intros [?|?]%elem_of_cons; [congruence|done].
Qed.

Lemma where_from_spec k g v :
  match where_from k g v with
  | Ok (i, j) =>
      exists a b, i = Z.of_nat (k + a) /\ j = Z.of_nat b
        /\ cell g a b = Some v
        /\ forall a' b', row_major_before a' b' a b -> cell g a' b' <> Some v
  | Raise e => e = IndexError /\ forall r, r ∈ g -> v ∉ r
  end.
Proof.
  revert k. induction g as [|r g IH]; intros k; simpl.
  - split; [done|]. by intros r ?%elem_of_nil.
  - pose proof (find_in_row_spec v r) as Hrow.
    destruct (find_in_row v r) as [b|].
    + destruct Hrow as [Hb Hfirst]. exists 0%nat, b.
      split; [f_equal; lia|]. split; [done|]. split; [done|].
      intros a' b' [Ha'|[-> Hb']]; [lia|]. simpl. by apply Hfirst.
    + specialize (IH (S k)).
      destruct (where_from (S k) g v) as [[i j]|e].
      * destruct IH as (a & b & -> & -> & Hcell & Hfirst).
        exists (S a), b. split; [f_equal; lia|]. split; [done|].
        split; [done|].
        intros [|a'] b' Hbefore.
        { unfold cell. simpl. intros Hv. apply Hrow.
          by apply list_elem_of_lookup_2 in Hv. }
        apply Hfirst. destruct Hbefore as [?|[? ?]]; [left; lia|right].
        split; [lia|done].
      * destruct IH as [-> Hnone]. split; [done|].
        intros r' [->|Hin]%elem_of_cons; [done|by apply Hnone].
Qed.

End WhereFirst.

(** X10.  [np.where(id_grid == v)] followed by [ind[0][0], ind[1][0]] gives
    the first cell that holds [v] in row-major order: the cell returned
    holds [v] and no cell before it does, so that an identifier written
    twice is found at its first place; and the lookup raises [IndexError]
    exactly when no row of the grid holds [v]. *)
Theorem where_first_row_major (id_grid : grid) (v : Z) :
  (forall i j, where_first id_grid v = Ok (i, j) ->
     exists a b, i = Z.of_nat a /\ j = Z.of_nat b
       /\ cell id_grid a b = Some v
       /\ forall a' b', row_major_before a' b' a b ->
                        cell id_grid a' b' <> Some v)
  /\ (forall e, where_first id_grid v = Raise e ->
        e = IndexError /\ forall r, r ∈ id_grid -> v ∉ r)
  /\ ((exists r, r ∈ id_grid /\ v ∈ r) ->
      exists i j, where_first id_grid v = Ok (i, j)).
Proof.
  unfold where_first. pose proof (where_from_spec 0 id_grid v) as H.
  destruct (where_from 0 id_grid v) as [[i j]|e].
  - split; [|split].
    + intros i' j' [= <- <-]. destruct H as (a & b & -> & -> & Hcell & Hfirst).
      by exists a, b.
    + intros e. discriminate.
    + eauto.
  - destruct H as [-> Hnone]. split; [|split].
    + intros i j. discriminate.
    + by intros e [= <-].
    + intros (r & Hr & Hv). by destruct (Hnone r Hr).
Qed.

(** ** The assignment of the neighbour's cell *)
Section PlaceCases.

Lemma normalize_index_high k n :
  Z.of_nat n <= k -> normalize_index k n = Raise IndexError.
Proof.
  intros Hk. unfold normalize_index.
  destruct (Z.leb_spec 0 k), (Z.ltb_spec k (Z.of_nat n)); simpl; try lia.
  - destruct (Z.ltb_spec k 0); [lia|]. by rewrite andb_false_r.
Qed.

Lemma place_side id_grid current_id neighbour a b (side : nat) :
  where_first id_grid current_id = Ok (a, b) ->
  place id_grid current_id neighbour (Some side)
  = setitem id_grid (side_cell side a b) neighbour.
Proof.
  intros Hw. unfold place. rewrite Hw, bind_Ok_l.
  by destruct side as [|[|[|side]]].
Qed.

Lemma setitem_in_range n g a b v :
  square n g -> int64 v ->
  0 <= a < Z.of_nat n -> 0 <= b < Z.of_nat n ->
  exists g', setitem g (a, b) v = Ok g'
             /\ written n g g' (Z.to_nat a) (Z.to_nat b) v.
Proof.
  intros Hsq Hv Ha Hb.
  apply (setitem_written n); try done; try lia;
    by apply normalize_index_nonneg.
Qed.

Lemma setitem_row_high n g a b v :
  square n g -> Z.of_nat n <= a -> setitem g (a, b) v = Raise IndexError.
Proof.
  intros [Hlen _] Ha. unfold setitem. cbn [fst snd]. unfold shape0.
  by rewrite Hlen, (normalize_index_high a n).
Qed.

Lemma setitem_column_high n g a b v :
  square n g -> 0 <= a < Z.of_nat n -> Z.of_nat n <= b ->
  setitem g (a, b) v = Raise IndexError.
Proof.
  intros Hsq Ha Hb. unfold setitem. cbn [fst snd]. unfold shape0.
  rewrite (square_shape1 n) by done. destruct Hsq as [Hlen _].
  rewrite Hlen, (normalize_index_nonneg a n), bind_Ok_l by done.
  by rewrite (normalize_index_high b n).
Qed.

End PlaceCases.

(** X11.  Away from the border of the grid the placement writes the
    neighbour's identifier into the cell next to the first cell of the
    current tile, on the matched side: above for 0, below for 1, to the
    left for 2, and to the right for every other value, [None] included.
    The grid keeps its shape, every other cell keeps its value, and the
    cell written is not looked at first: what it held is replaced. *)
Theorem place_writes_adjacent (n : nat) (id_grid : grid)
    (current_id neighbour : Z) (a b : Z) :
  square n id_grid -> int64 neighbour ->
  where_first id_grid current_id = Ok (a, b) ->
  (0 < a ->
   exists g', place id_grid current_id neighbour (Some 0%nat) = Ok g'
     /\ written n id_grid g' (Z.to_nat (a - 1)) (Z.to_nat b) neighbour)
  /\ (a + 1 < Z.of_nat n ->
      exists g', place id_grid current_id neighbour (Some 1%nat) = Ok g'
        /\ written n id_grid g' (Z.to_nat (a + 1)) (Z.to_nat b) neighbour)
  /\ (0 < b ->
      exists g', place id_grid current_id neighbour (Some 2%nat) = Ok g'
        /\ written n id_grid g' (Z.to_nat a) (Z.to_nat (b - 1)) neighbour)
  /\ (b + 1 < Z.of_nat n ->
      forall v, v <> Some 0%nat -> v <> Some 1%nat -> v <> Some 2%nat ->
      exists g', place id_grid current_id neighbour v = Ok g'
        /\ written n id_grid g' (Z.to_nat a) (Z.to_nat (b + 1)) neighbour).
Proof.
  intros Hsq Hv Hw.
  destruct (where_first_Ok n _ _ _ _ Hsq Hw) as [Ha Hb].
  split; [|split; [|split]].
  - intros Hpos. rewrite (place_side _ _ _ a b) by done.
    apply setitem_in_range; done || lia.
  - intros Hlt. rewrite (place_side _ _ _ a b) by done.
    apply setitem_in_range; done || lia.
  - intros Hpos. rewrite (place_side _ _ _ a b) by done.
    apply setitem_in_range; done || lia.
  - intros Hlt v H0 H1 H2. rewrite (place_other _ _ _ a b) by done.
    apply setitem_in_range; done || lia.
Qed.

Lemma place_writes_adjacent_witness :
  square 3 grid_ex /\ int64 0
  /\ where_first grid_ex 6 = Ok (1, 1)
  /\ exists g', place grid_ex 6 0 (Some 0%nat) = Ok g'
       /\ written 3 grid_ex g' 0 1 0.
Proof.
  assert (Hsq : square 3 grid_ex).
  { split; [reflexivity|]. repeat constructor. }
  assert (Hv : int64 0) by (unfold int64; lia).
  split; [exact Hsq|]. split; [exact Hv|]. split; [reflexivity|].
  refine (proj1 (place_writes_adjacent 3 grid_ex 6 0 1 1 Hsq Hv _) _).
  - reflexivity.
  - lia.
Defined.

(** X12.  On the far border the placement fails where on the near border
    it wraps around: with the current tile in the last row, side 1 (below)
    raises [IndexError]; with the current tile in the last column, every
    result of the matcher other than 0, 1 and 2, so side 3 and [None],
    raises [IndexError].  No cell is written, whatever the identifier. *)
Theorem place_far_border_raises (n : nat) (id_grid : grid)
    (current_id neighbour : Z) (a b : Z) :
  square n id_grid ->
  where_first id_grid current_id = Ok (a, b) ->
  (a = Z.of_nat n - 1 ->
   place id_grid current_id neighbour (Some 1%nat) = Raise IndexError)
  /\ (b = Z.of_nat n - 1 ->
      forall v, v <> Some 0%nat -> v <> Some 1%nat -> v <> Some 2%nat ->
      place id_grid current_id neighbour v = Raise IndexError).
Proof.
  intros Hsq Hw.
  destruct (where_first_Ok n _ _ _ _ Hsq Hw) as [Ha Hb].
  split.
  - intros ->. rewrite (place_side _ _ _ (Z.of_nat n - 1) b) by done.
    apply (setitem_row_high n); [done|]. simpl. lia.
  - intros -> v H0 H1 H2.
    rewrite (place_other _ _ _ a (Z.of_nat n - 1)) by done.
    apply (setitem_column_high n); [done|lia|lia].
Qed.

Lemma place_far_border_raises_witness :
  square 3 grid_ex
  /\ where_first grid_ex 5 = Ok (2, 2)
  /\ place grid_ex 5 0 (Some 1%nat) = Raise IndexError
  /\ place grid_ex 5 0 None = Raise IndexError.
Proof.
  assert (Hsq : square 3 grid_ex).
  { split; [reflexivity|]. repeat constructor. }
  split; [exact Hsq|]. split; [reflexivity|].
  destruct (place_far_border_raises 3 grid_ex 5 0 2 2 Hsq eq_refl)
    as [Hrow Hcol].
  split; [exact (Hrow eq_refl)|].
  apply (Hcol eq_refl); discriminate.
Defined.

(** X13.  One step of the construction, from the matcher to the grid.  When
    the current tile and the neighbour have one border in common, on side
    [i] of the current tile, and the cell next to the current tile on that
    side is inside the grid, [match_two_tiles] followed by the assignment
    leaves the neighbour in an orientation of the search that carries the
    common edge on the side opposite to [i], and writes the neighbour's
    identifier into that cell, all other cells unchanged. *)
Theorem place_neighbour_joins (pop : nat -> edge_set -> edge)
    (n m : nat) (tiles : tile_dict) (id_grid : grid)
    (current_id neighbour : Z) (static_tile other_tile : Tile.t)
    (ls lo : list edge) (i j : nat) (e e' : edge) (a b : Z) :
  pop_member pop ->
  getitem tiles current_id = Ok static_tile ->
  getitem tiles neighbour = Ok other_tile ->
  square n (Tile.image other_tile) -> (0 < n)%nat ->
  Tile.list_edges static_tile = Ok ls ->
  Tile.list_edges other_tile = Ok lo ->
  ls !! i = Some e -> lo !! j = Some e' -> e = e' \/ e = rev e' ->
  only_shared_border ls lo i j ->
  square m id_grid -> int64 neighbour ->
  where_first id_grid current_id = Ok (a, b) ->
  0 <= (side_cell i a b).1 < Z.of_nat m ->
  0 <= (side_cell i a b).2 < Z.of_nat m ->
  exists other' lo' q g',
    place_neighbour pop tiles id_grid current_id neighbour = Ok (other', g')
    /\ other' ∈ searched_tiles other_tile
    /\ Tile.list_edges other' = Ok lo'
    /\ index lo' e = Ok q /\ (i, q) ∈ opposite_sides
    /\ written m id_grid g' (Z.to_nat (side_cell i a b).1)
         (Z.to_nat (side_cell i a b).2) neighbour.
Proof.
  intros Hpop Hs Ho Hsq Hn Hls Hlo Hi Hj He Hu Hg Hv Hw Hrow Hcol.
  destruct (match_loop_finds_border pop n static_tile other_tile ls lo i j
              e e' Hpop Hsq Hn Hls Hlo Hi Hj He Hu)
    as (t & L & q & Hin & HL & Hq & Hopp & Hrun).
  destruct (setitem_in_range m id_grid _ _ neighbour Hg Hv Hrow Hcol)
    as (g' & Hset & Hwritten).
  exists t, L, q, g'. split; [|done].
  unfold place_neighbour, match_two_tiles.
  rewrite Hs, bind_Ok_l, Ho, bind_Ok_l, Hrun, !bind_Ok_l.
  rewrite (place_side _ _ _ a b) by done.
  rewrite <- surjective_pairing in Hset. by rewrite Hset.
Qed.

Lemma place_neighbour_joins_witness :
  pop_member pop_first
  /\ only_shared_border
       [[0; 1; 1; 1]; [1; 1; 1; 0]; [0; 1; 0; 1]; [1; 1; 0; 0]]
       [[1; 1; 0; 0]; [1; 0; 0; 0]; [1; 0; 1; 1]; [0; 1; 1; 0]] 3 0
  /\ exists other' lo' q g',
      place_neighbour pop_first pair_ex pair_grid_ex 7 9 = Ok (other', g')
      /\ other' ∈ searched_tiles right_ex
      /\ Tile.list_edges other' = Ok lo'
      /\ index lo' [1; 1; 0; 0] = Ok q /\ (3%nat, q) ∈ opposite_sides
      /\ written 2 pair_grid_ex g' 0 1 9.
Proof.
  assert (Hu : only_shared_border
                 [[0; 1; 1; 1]; [1; 1; 1; 0]; [0; 1; 0; 1]; [1; 1; 0; 0]]
                 [[1; 1; 0; 0]; [1; 0; 0; 0]; [1; 0; 1; 1]; [0; 1; 1; 0]]
                 3 0).
  { intros i' j' a b Ha Hb Hab.
    destruct i' as [|[|[|[|i']]]]; try discriminate Ha;
      injection Ha as <-;
      (destruct j' as [|[|[|[|j']]]]; try discriminate Hb);
      injection Hb as <-;
      simpl in Hab; destruct Hab as [Hab|Hab]; try discriminate Hab;
      split; reflexivity. }
  split; [exact pop_first_member|]. split; [exact Hu|].
  apply (place_neighbour_joins pop_first 4 2 pair_ex pair_grid_ex 7 9
           left_ex right_ex
           [[0; 1; 1; 1]; [1; 1; 1; 0]; [0; 1; 0; 1]; [1; 1; 0; 0]]
           [[1; 1; 0; 0]; [1; 0; 0; 0]; [1; 0; 1; 1]; [0; 1; 1; 0]]
           3 0 [1; 1; 0; 0] [1; 1; 0; 0] 0 0).
  - exact pop_first_member.
  - reflexivity.
  - reflexivity.
  - split; [reflexivity|]. repeat constructor.
  - lia.
  - reflexivity.
  - reflexivity.
  - reflexivity.
  - reflexivity.
  - left. reflexivity.
  - exact Hu.
  - split; [reflexivity|]. repeat constructor.
  - unfold int64. lia.
  - reflexivity.
  - simpl. lia.
  - simpl. lia.
Defined.

(** ** Counting loops *)
Section Counting.

Lemma fold_left_count {A : Type} (t : A -> bool) (l : list A) acc :
  fold_left (fun num x => num + (if t x then 1 else 0)) l acc
  = acc + Z.of_nat (length (List.filter t l)).
Proof.
  revert acc. induction l as [|x l IH]; intros acc; simpl; [lia|].
  rewrite IH. destruct (t x); simpl; lia.
Qed.

Lemma filter_pair_length {A B : Type} (t : A -> B -> bool) (i : A)
    (l : list B) :
  length (List.filter (fun ij : A * B => t ij.1 ij.2) (map (pair i) l))
  = length (List.filter (t i) l).
Proof.
  induction l as [|x l IH]; simpl; [done|].
  destruct (t i x); simpl; by rewrite IH.
Qed.

Lemma fold_left_count2 {A B : Type} (t : A -> B -> bool)
    (I : list A) (J : list B) acc :
  fold_left
    (fun num i =>
       fold_left (fun num j => num + (if t i j then 1 else 0)) J num)
    I acc
  = acc + Z.of_nat (length (List.filter (fun ij : A * B => t ij.1 ij.2)
                              (list_prod I J))).
Proof.
  revert acc. induction I as [|i I IH]; intros acc; simpl; [lia|].
  rewrite IH, fold_left_count, List.filter_app, length_app.
  rewrite filter_pair_length. lia.
Qed.

(** A sum of zeros and ones reaches the number of its terms when every
    term is one, and only then. *)
Lemma sum_all_ones (l : list Z) :
  Forall (fun x => x = 0 \/ x = 1) l ->
  sumZ l <= Z.of_nat (length l)
  /\ (sumZ l = Z.of_nat (length l) <-> Forall (fun x => x = 1) l).
Proof.
  induction 1 as [|x l Hx _ [Hle IH]]; simpl.
  - split; [lia|]. split; [constructor|done].
  - split; [lia|]. split.
    + intros Hsum. constructor; [lia|]. apply IH. lia.
    + intros Hall. apply Forall_cons in Hall as [-> Hall].
      apply IH in Hall. lia.
Qed.

End Counting.

(** ** One window of the scan *)
Section Window.

Lemma take_drop_nth {A : Type} (d : A) (l : list A) (j h : nat) :
  (j + h <= length l)%nat ->
  take h (drop j l) = map (fun b => nth (j + b) l d) (seq 0 h).
Proof.
  intros Hlen. apply (nth_ext _ _ d d).
  - rewrite length_take, length_drop, length_map, length_seq. lia.
  - intros b Hb. rewrite length_take, length_drop in Hb.
    set (g := fun b => nth (j + b) l d).
    rewrite (nth_indep (map g (seq 0 h)) d (g 0%nat)) by
      (rewrite length_map, length_seq; lia).
    rewrite (map_nth g), seq_nth by lia. unfold g.
    rewrite !nth_lookup, lookup_take_lt, lookup_drop by lia. done.
Qed.

(** The slice [m[i : i + w, j : j + h]] inside a square array holds the
    pixels of the rows from [i] and the columns from [j]. *)
Lemma sub_image_pixels n m i j w h :
  square n m -> (i + w <= n)%nat -> (j + h <= n)%nat ->
  sub_image m i j w h
  = map (fun a => map (fun b => pixel_at m (i + a) (j + b)) (seq 0 h))
      (seq 0 w).
Proof.
  intros Hsq Hi Hj. unfold sub_image.
  rewrite (take_drop_nth [] m i w) by (destruct Hsq; lia).
  rewrite map_map. apply map_ext_in. intros a Ha. apply in_seq in Ha.
  rewrite (take_drop_nth 0); [done|].
  rewrite (square_row n) by (done || lia). lia.
Qed.

Lemma monster_rows :
  monster
  = [[0; 0; 0; 0; 0; 0; 0; 0; 0; 0; 0; 0; 0; 0; 0; 0; 0; 0; 1; 0];
     [1; 0; 0; 0; 0; 1; 1; 0; 0; 0; 0; 1; 1; 0; 0; 0; 0; 1; 1; 1];
     [0; 1; 0; 0; 1; 0; 0; 1; 0; 0; 1; 0; 0; 1; 0; 0; 1; 0; 0; 0]].
Proof. vm_compute. reflexivity. Qed.

Lemma monster_cells_list :
  monster_cells
  = [(0, 18); (1, 0); (1, 5); (1, 6); (1, 11); (1, 12); (1, 17); (1, 18);
     (1, 19); (2, 1); (2, 4); (2, 7); (2, 10); (2, 13); (2, 16)]%nat.
Proof. vm_compute. reflexivity. Qed.

(** The sum of the pattern times a window is the sum of the pixels of the
    window under the [#] cells. *)
Lemma window_sum (f : nat -> nat -> Z) :
  image_sum
    (mul_images monster
       (map (fun a => map (f a) (seq 0 20)) (seq 0 3)))
  = sumZ (map (fun ab : nat * nat => f ab.1 ab.2) monster_cells).
Proof.
  rewrite monster_rows, monster_cells_list.
  cbv [image_sum mul_images zip_with map seq concat app sumZ fold_right
       fst snd].
  lia.
Qed.

Lemma bitmap_pixel m i j :
  bitmap m -> pixel_at m i j = 0 \/ pixel_at m i j = 1.
Proof.
  intros Hm. unfold bitmap in Hm. unfold pixel_at.
  destruct (nth_in_or_default i m []) as [Hin|Hd].
  - rewrite Forall_forall in Hm.
    specialize (Hm _ (proj2 (list_elem_of_In _ _) Hin)).
    destruct (nth_in_or_default j (nth i m []) 0) as [Hin'|Hd']; [|by left].
    rewrite Forall_forall in Hm. by apply Hm, list_elem_of_In.
  - rewrite Hd. left. by destruct j.
Qed.

(** On a bitmap the test of the scan holds exactly when the pattern lies
    on set pixels. *)
Lemma window_test n m i j :
  square n m -> bitmap m -> (i + 3 <= n)%nat -> (j + 20 <= n)%nat ->
  window_matches m i j = monster_at m i j.
Proof.
  intros Hsq Hm Hi Hj. unfold window_matches.
  destruct monster_weight as (-> & -> & ->).
  rewrite (sub_image_pixels n) by done.
  rewrite (window_sum (fun a b => pixel_at m (i + a) (j + b))).
  set (l := map (fun ab : nat * nat => pixel_at m (i + ab.1) (j + ab.2))
              monster_cells).
  assert (Hl : Forall (fun x => x = 0 \/ x = 1) l).
  { apply Forall_forall. intros x Hx.
    apply list_elem_of_In, in_map_iff in Hx as (ab & <- & _).
    by apply bitmap_pixel. }
  assert (Hlen : Z.of_nat (length l) = 15).
  { unfold l. by rewrite length_map, monster_cells_list. }
  destruct (sum_all_ones l Hl) as [_ Hiff]. rewrite Hlen in Hiff.
  unfold monster_at.
  destruct (Z.eqb_spec (sumZ l) 15) as [Heq|Hne].
  - symmetry. apply forallb_forall. intros ab Hab. apply Z.eqb_eq.
    apply Hiff in Heq. rewrite Forall_forall in Heq.
    apply Heq, list_elem_of_In. unfold l.
    by apply (in_map (fun ab : nat * nat => pixel_at m (i + ab.1) (j + ab.2))).
  - symmetry. apply not_true_is_false. intros Hall. apply Hne, Hiff.
    rewrite forallb_forall in Hall.
    apply Forall_forall. intros x Hx.
    apply list_elem_of_In, in_map_iff in Hx as (ab & <- & Hab).
    by apply Z.eqb_eq, Hall.
Qed.

Lemma range_windows n :
  range (Z.of_nat n - Z.of_nat (shape0 monster) + 1) = seq 0 (n - 2)
  /\ range (Z.of_nat n - Z.of_nat (shape1 monster) + 1) = seq 0 (n - 19).
Proof.
  destruct monster_weight as (-> & -> & _). unfold range.
  split; f_equal; lia.
Qed.

(** The two loops of [count_monsters] count the windows that pass the
    test. *)
Lemma count_monsters_windows n m :
  count_monsters n m
  = Z.of_nat
      (length (List.filter
                 (fun ij : nat * nat => window_matches m ij.1 ij.2)
                 (windows n))).
Proof.
  unfold count_monsters. destruct (range_windows n) as [-> ->].
  rewrite (fold_left_count2
             (fun i j =>
                image_sum (mul_images monster
                  (sub_image m i j (shape0 monster) (shape1 monster)))
                =? image_sum monster)).
  unfold window_matches, windows. rewrite Z.add_0_l. reflexivity.
Qed.

Lemma windows_bitmap n m :
  square n m -> bitmap m ->
  List.filter (fun ij : nat * nat => window_matches m ij.1 ij.2)
    (windows n)
  = monsters_found n m.
Proof.
  intros Hsq Hm. unfold monsters_found, windows.
  apply List.filter_ext_in. intros [i j] Hij.
  apply in_prod_iff in Hij as [Hi Hj].
  apply in_seq in Hi. apply in_seq in Hj. cbn [fst snd].
  apply (window_test n); done || lia.
Qed.


Lemma bitmap_act n g m : bitmap m -> bitmap (act n g m).
Proof.
  intros Hm. unfold act, bitmap.
  apply Forall_forall. intros r Hr.
  apply list_elem_of_In, in_map_iff in Hr as (i & <- & _).
  apply Forall_forall. intros x Hx.
  apply list_elem_of_In, in_map_iff in Hx as (j & <- & _).
  by apply bitmap_pixel.
Qed.

(** The eight bitmaps of the loop: squares with the pixel total of the
    image, and bitmaps when the image is one. *)
Lemma orientation_facts n image k :
  square n image -> (k < 8)%nat ->
  square n (nth k (orientations image) [])
  /\ image_sum (nth k (orientations image) []) = image_sum image
  /\ (bitmap image -> bitmap (nth k (orientations image) [])).
Proof.
  intros Hsq Hk.
  destruct (orientations_from_content n (range 8) image k Hsq)
    as (Hsq' & _ & Hsum); [simpl; lia|].
  split; [done|]. split; [done|].
  intros Hm. rewrite (orientations_act n) by done.
  do 8 (destruct k as [|k]; [by apply bitmap_act|]). lia.
Qed.

End Window.

(** X14.  On a square bitmap, [count_monsters] counts the windows in which
    the pattern lies on set pixels: the corners (i, j) with i + 3 <= n and
    j + 20 <= n such that each of the fifteen [#] cells (a, b) of the
    pattern has the pixel (i + a, j + b) equal to 1.  Windows that overlap
    are each counted, and an image with fewer than 20 columns has none. *)
Theorem count_monsters_bitmap (n : nat) (transformed_image : array) :
  square n transformed_image -> bitmap transformed_image ->
  count_monsters n transformed_image
  = Z.of_nat (length (monsters_found n transformed_image))
  /\ (forall i j, (i, j) ∈ monsters_found n transformed_image <->
        (i + 3 <= n)%nat /\ (j + 20 <= n)%nat
        /\ forall a b, (a, b) ∈ monster_cells ->
                       pixel_at transformed_image (i + a) (j + b) = 1).
Proof.
  intros Hsq Hm. split.
  - by rewrite count_monsters_windows, (windows_bitmap n).
  - intros i j. unfold monsters_found, windows, monster_at.
    rewrite list_elem_of_In, filter_In, in_prod_iff, !in_seq, forallb_forall.
    cbn [fst snd]. split.
    + intros [[Hi Hj] Hall]. split; [lia|]. split; [lia|].
      intros a b Hab. apply Z.eqb_eq.
      by apply (Hall (a, b)), list_elem_of_In.
    + intros (Hi & Hj & Hall). split; [lia|].
      intros [a b] Hab. apply Z.eqb_eq. by apply Hall, list_elem_of_In.
Qed.

Lemma count_monsters_bitmap_witness :
  square 20 monster_image /\ bitmap monster_image
  /\ count_monsters 20 monster_image = 1.
Proof.
  assert (Hm : bitmap monster_image).
  { vm_compute.
    repeat first [ apply Forall_nil_2 | apply Forall_cons_2
                 | left; reflexivity | right; reflexivity ]. }
  split; [exact square_20_monster_image|]. split; [exact Hm|].
  rewrite (proj1 (count_monsters_bitmap 20 monster_image
                    square_20_monster_image Hm)).
  vm_compute. reflexivity.
Defined.

(** X15.  The result of [measure_water_roughness] on a square bitmap: the
    number of set pixels of the bitmap minus fifteen for each window on
    which the pattern lies, counted in the first of the eight orientations
    that has such a window; when no orientation has one, the eighth is
    used and nothing is subtracted. *)
Theorem roughness_bitmap (n : nat) (image : array) :
  square n image -> bitmap image ->
  exists k,
    (k < 8)%nat
    /\ (forall k', (k' < k)%nat ->
          monsters_found n (nth k' (orientations image) []) = [])
    /\ ((k < 7)%nat -> monsters_found n (nth k (orientations image) []) <> [])
    /\ measure_water_roughness image
       = image_sum image
         - 15 * Z.of_nat
                  (length (monsters_found n (nth k (orientations image) []))).
Proof.
  intros Hsq Hm.
  assert (Hcount : forall k, (k < 8)%nat ->
            count_monsters n (nth k (orientations image) [])
            = Z.of_nat
                (length (monsters_found n (nth k (orientations image) [])))).
  { intros k Hk. destruct (orientation_facts n image k Hsq Hk) as (? & _ & ?).
    rewrite count_monsters_windows, (windows_bitmap n); auto. }
  assert (Hsum : forall k, (k < 8)%nat ->
            image_sum (nth k (orientations image) []) = image_sum image).
  { intros k Hk. by apply (orientation_facts n). }
  assert (Hnil : forall k, (k < 8)%nat ->
            count_monsters n (nth k (orientations image) []) = 0 ->
            monsters_found n (nth k (orientations image) []) = []).
  { intros k Hk H0. rewrite Hcount in H0 by done.
    apply length_zero_iff_nil. lia. }
  unfold measure_water_roughness.
  replace (shape0 image) with n by (by destruct Hsq).
  destruct monster_weight as (_ & _ & ->).
  unfold orientations in *.
  change (range 8) with [0; 1; 2; 3; 4; 5; 6; 7]%nat in *.
  destruct (scan_loop_cases n [0; 1; 2; 3; 4; 5; 6; 7]%nat image 0)
    as [(k & Hk & Hc & Hbefore & Hres)|[Hall Hres]].
  - exists k. rewrite Hres. cbv beta iota.
    split; [exact Hk|]. split; [|split].
    + intros k' Hk'. apply Hnil; [simpl in Hk; lia|]. by apply Hbefore.
    + intros _ Hfound. rewrite Hcount, Hfound in Hc by exact Hk.
      simpl in Hc. lia.
    + rewrite Hsum, Hcount by exact Hk. ring.
  - exists 7%nat. rewrite Hres. cbv beta iota.
    change (List.last (orientations_from [0; 1; 2; 3; 4; 5; 6; 7]%nat image)
              image)
      with (nth 7 (orientations_from [0; 1; 2; 3; 4; 5; 6; 7]%nat image) []).
    split; [lia|]. split; [|split].
    + intros k' Hk'. apply Hnil; [lia|]. apply Hall. simpl. lia.
    + lia.
    + rewrite Hsum, Hcount by lia. ring.
Qed.

Lemma roughness_bitmap_witness :
  square 20 monster_image /\ bitmap monster_image
  /\ exists k,
      (k < 8)%nat
      /\ measure_water_roughness monster_image
         = image_sum monster_image
           - 15 * Z.of_nat
                    (length (monsters_found 20
                               (nth k (orientations monster_image) []))).
Proof.
  assert (Hm : bitmap monster_image).
  { vm_compute.
    repeat first [ apply Forall_nil_2 | apply Forall_cons_2
                 | left; reflexivity | right; reflexivity ]. }
  split; [exact square_20_monster_image|]. split; [exact Hm|].
  destruct (roughness_bitmap 20 monster_image square_20_monster_image Hm)
    as (k & Hk & _ & _ & Hres).
  exists k. split; [exact Hk|exact Hres].
Defined.



(** ** The edges that no neighbour carries *)
Section Unmatched.

Lemma elem_of_reversed (x : list Z) es :
  x ∈ reversed_edges es <-> rev x ∈ es.
Proof.
  unfold reversed_edges. rewrite elem_of_remove_dups, list_elem_of_In.
  rewrite in_map_iff. split.
  - intros (y & <- & Hy). rewrite rev_involutive.
    by apply list_elem_of_In.
  - intros Hx. exists (rev x). rewrite rev_involutive.
    split; [done|]. by apply list_elem_of_In.
Qed.

Lemma matched_by_rev tiles ids e :
  matched_by tiles ids (rev e) <-> matched_by tiles ids e.
Proof.
  unfold matched_by. split; intros (k & t & es & Hk & Ht & Hes & Hin);
    exists k, t, es; rewrite ?rev_involutive in *; tauto.
Qed.

(** The loop of lines 127 to 130 keeps the edges that no neighbour
    carries. *)
Lemma unmatched_loop_spec tiles ids ue :
  (forall k, k ∈ ids -> exists t, getitem tiles k = Ok t /\ has_pixel t) ->
  exists r,
    unmatched_loop tiles ids ue = Ok r
    /\ (forall e, e ∈ r <-> e ∈ ue /\ ~ matched_by tiles ids e)
    /\ (NoDup ue -> NoDup r).
Proof.
  revert ue. induction ids as [|k ids IH]; intros ue Hids.
  - exists ue. split; [done|]. split; [|done].
    intros e. split; [|tauto]. intros He. split; [done|].
    intros (k & _ & _ & Hk & _). by apply elem_of_nil in Hk.
  - destruct (Hids k) as (t & Ht & Hpix); [by left|].
    apply has_pixel_edges in Hpix as [es Hes].
    set (ue' := list_difference ue
                  (list_intersection ue
                     (list_union es (reversed_edges es)))).
    destruct (IH ue') as (r & Hr & Hmem & Hnd).
    { intros k' Hk'. apply Hids. by right. }
    exists r. split; [|split].
    + simpl. by rewrite Ht, bind_Ok_l, Hes, bind_Ok_l.
    + intros e. rewrite Hmem. unfold ue'.
      rewrite list_elem_of_difference, list_elem_of_intersection,
        list_elem_of_union, elem_of_reversed.
      split.
      * intros [[He Hnot] Hrest]. split; [done|].
        intros (k' & t' & es' & Hk' & Ht' & Hes' & Hin).
        apply elem_of_cons in Hk' as [->|Hk'].
        { rewrite Ht in Ht'. injection Ht' as <-.
          rewrite Hes in Hes'. injection Hes' as <-. tauto. }
        apply Hrest. by exists k', t', es'.
      * intros [He Hnot]. split; [split; [done|]|].
        { intros [_ Hin]. apply Hnot. exists k, t, es.
          split; [by left|done]. }
        intros (k' & t' & es' & Hk' & Hrest). apply Hnot.
        exists k', t', es'. split; [by right|done].
    + intros Hue. by apply Hnd, NoDup_list_difference.
Qed.

Lemma index_NoDup (l : list edge) e p :
  NoDup l -> l !! p = Some e -> index l e = Ok p.
Proof.
  intros Hnd Hp. apply index_at; [done|].
  intros p' x Hp' Hx ->. pose proof (NoDup_lookup _ _ _ _ Hnd Hp Hx). lia.
Qed.

(** A duplicate-free list whose elements are all [e] is empty or [e]
    alone. *)
Lemma NoDup_all_equal (l : list edge) e :
  NoDup l -> (forall x, x ∈ l -> x = e) -> l = [] \/ l = [e].
Proof.
  intros Hnd Hall. destruct l as [|x [|y l]]; [by left| |].
  - right. f_equal. apply Hall. by left.
  - exfalso. apply NoDup_cons in Hnd as [Hnin _]. apply Hnin.
    rewrite (Hall x), <- (Hall y); [by left|right; by left|by left].
Qed.

End Unmatched.

(** ** The two pops *)
Section Pops.

Variable pop : nat -> edge_set -> edge.
Hypothesis pop_in : pop_member pop.

Lemma unmatched_indices_empty first_corner l :
  Tile.list_edges first_corner = Ok l ->
  unmatched_indices pop first_corner [] = Raise KeyError.
Proof. intros Hl. unfold unmatched_indices. by rewrite Hl. Qed.

Lemma unmatched_indices_single first_corner l e :
  Tile.list_edges first_corner = Ok l -> e ∈ l ->
  unmatched_indices pop first_corner [e] = Raise KeyError.
Proof.
  intros Hl He. unfold unmatched_indices.
  rewrite Hl, bind_Ok_l, (set_pop_singleton pop pop_in), bind_Ok_l.
  destruct (index_member l e He) as [i ->]. rewrite !bind_Ok_l.
  assert (Hnil : list_difference [e] [e] = []).
  { destruct (list_difference [e] [e]) as [|x d] eqn:Hd; [done|].
    assert (Hx : x ∈ list_difference [e] [e]) by (rewrite Hd; by left).
    apply list_elem_of_difference in Hx. tauto. }
  by rewrite Hnil.
Qed.

(** With two unmatched edges the set of their positions is found,
    whichever edge is popped first. *)
Lemma unmatched_indices_two first_corner l r p q ep eq :
  Tile.list_edges first_corner = Ok l -> NoDup l ->
  l !! p = Some ep -> l !! q = Some eq -> p <> q ->
  NoDup r -> (forall e, e ∈ r <-> e = ep \/ e = eq) ->
  unmatched_indices pop first_corner r = Ok ({[p; q]} : gset nat).
Proof.
  intros Hl Hnd Hp Hq Hpq Hr Hmem.
  assert (Hne : ep <> eq).
  { intros ->. by pose proof (NoDup_lookup _ _ _ _ Hnd Hp Hq). }
  assert (Hnonempty : r <> []).
  { intros ->. by apply (elem_of_nil ep), Hmem; left. }
  unfold unmatched_indices. rewrite Hl, bind_Ok_l.
  assert (Hpop : set_pop pop 0 r = Ok (pop 0%nat r)).
  { by destruct r. }
  rewrite Hpop, bind_Ok_l.
  pose proof (pop_in 0%nat r Hnonempty) as Hin.
  assert (Hrest : forall e1 e2 i1 i2,
            pop 0%nat r = e1 -> l !! i1 = Some e1 -> l !! i2 = Some e2 ->
            e1 <> e2 ->
            (forall e, e ∈ r <-> e = e1 \/ e = e2) ->
            (index l e1 ≫= fun i1' =>
               let unmatched_edges := list_difference r [e1] in
               l2 ← Ok l;
               e2' ← set_pop pop 1 unmatched_edges;
               i2' ← index l2 e2';
               Ok ({[i1'; i2']} : gset nat))
            = Ok ({[i1; i2]} : gset nat)).
  { intros e1 e2 i1 i2 He1 Hi1 Hi2 Hne12 Hmem12.
    rewrite (index_NoDup l e1 i1) by done. rewrite bind_Ok_l.
    cbv zeta. rewrite bind_Ok_l.
    assert (Hdiff : list_difference r [e1] = [e2]).
    { destruct (NoDup_all_equal (list_difference r [e1]) e2) as [Hd|Hd].
      - by apply NoDup_list_difference.
      - intros x Hx. apply list_elem_of_difference in Hx as [Hx Hx1].
        apply Hmem12 in Hx as [-> | ->]; [|done].
        exfalso. apply Hx1. by left.
      - exfalso. apply (elem_of_nil e2). rewrite <- Hd.
        apply list_elem_of_difference. split; [apply Hmem12; by right|].
        intros Hx. apply list_elem_of_singleton in Hx. congruence.
      - done. }
    rewrite Hdiff, (set_pop_singleton pop pop_in), bind_Ok_l.
    by rewrite (index_NoDup l e2 i2). }
  apply Hmem in Hin as [Hin|Hin].
  - rewrite Hin. by apply (Hrest ep eq p q).
  - rewrite Hin. etrans.
    + apply (Hrest eq ep q p); try done; try congruence.
      intros e. rewrite Hmem. tauto.
    + f_equal. apply (comm_L (∪)).
Qed.

(** With at least two unmatched edges, all edges of the tile, the two
    pops and the two searches succeed. *)
Lemma unmatched_indices_total first_corner l r e1 e2 :
  Tile.list_edges first_corner = Ok l ->
  (forall e, e ∈ r -> e ∈ l) -> e1 ∈ r -> e2 ∈ r -> e1 <> e2 ->
  exists s, unmatched_indices pop first_corner r = Ok s.
Proof.
  intros Hl Hsub H1 H2 Hne.
  assert (Hnonempty : r <> []).
  { intros ->. by apply elem_of_nil in H1. }
  unfold unmatched_indices. rewrite Hl, bind_Ok_l.
  assert (Hpop : set_pop pop 0 r = Ok (pop 0%nat r)) by (by destruct r).
  rewrite Hpop, bind_Ok_l.
  pose proof (pop_in 0%nat r Hnonempty) as Hin.
  destruct (index_member l _ (Hsub _ Hin)) as [i1 ->].
  rewrite !bind_Ok_l. cbv zeta.
  set (r' := list_difference r [pop 0%nat r]).
  assert (Hr' : r' <> []).
  { assert (Hsome : exists e, e ∈ r').
    { destruct (decide (e1 = pop 0%nat r)) as [Heq|Hneq].
      - exists e2. apply list_elem_of_difference. split; [done|].
        intros Hx. apply list_elem_of_singleton in Hx. congruence.
      - exists e1. apply list_elem_of_difference. split; [done|].
        intros Hx. by apply list_elem_of_singleton in Hx. }
    destruct Hsome as [e He]. intros Hnil. rewrite Hnil in He.
    by apply elem_of_nil in He. }
  assert (Hpop' : set_pop pop 1 r' = Ok (pop 1%nat r')) by (by destruct r').
  rewrite Hpop', bind_Ok_l.
  pose proof (pop_in 1%nat r' Hr') as Hin'.
  apply list_elem_of_difference in Hin' as [Hin' _].
  destruct (index_member l _ (Hsub _ Hin')) as [i2 ->].
  rewrite bind_Ok_l. eauto.
Qed.

End Pops.

Section Oriented.

Lemma orient_first_corner_oriented s c :
  oriented_as c (orient_first_corner s c).
Proof.
  unfold orient_first_corner. repeat case_decide; repeat constructor.
Qed.

Lemma lookup_position (l : list edge) (s p q : nat) :
  ~ (s <> p /\ s <> q) -> s = p \/ s = q.
Proof. lia. Qed.

End Oriented.

(** X17.  When the first corner is oriented, the loop over its neighbours
    keeps the edges of the corner that no neighbour carries in either
    reading direction, and the two pops need two of them.  If all such
    edges are equal, or there is none (a corner whose two outer edges are
    the same tuple, say), the second or the first [set.pop] finds an empty
    set and [KeyError] is raised.  If two different edges of the corner are
    carried by no neighbour, the step succeeds and leaves the corner in one
    of its orientations. *)
Theorem orient_corner_exceptions (pop : nat -> edge_set -> edge)
    (tiles : tile_dict) (first_corner_id : Z) (neighbour_ids : list Z)
    (first_corner : Tile.t) (l : list edge) :
  pop_member pop ->
  getitem tiles first_corner_id = Ok first_corner ->
  Tile.list_edges first_corner = Ok l ->
  (forall k, k ∈ neighbour_ids ->
     exists t, getitem tiles k = Ok t /\ has_pixel t) ->
  ((exists e0, forall e, e ∈ l -> ~ matched_by tiles neighbour_ids e ->
                         e = e0) ->
   orient_corner pop tiles first_corner_id neighbour_ids = Raise KeyError)
  /\ ((exists e1 e2, e1 ∈ l /\ e2 ∈ l /\ e1 <> e2
                     /\ ~ matched_by tiles neighbour_ids e1
                     /\ ~ matched_by tiles neighbour_ids e2) ->
      exists c', orient_corner pop tiles first_corner_id neighbour_ids = Ok c'
                 /\ oriented_as first_corner c').
Proof.
  intros Hpop Hc Hl Hids.
  destruct (unmatched_loop_spec tiles neighbour_ids (remove_dups l) Hids)
    as (r & Hr & Hmem & Hnd).
  specialize (Hnd (NoDup_remove_dups l)).
  assert (Hrun : orient_corner pop tiles first_corner_id neighbour_ids
                 = ui ← unmatched_indices pop first_corner r;
                   Ok (orient_first_corner ui first_corner)).
  { unfold orient_corner.
    by rewrite Hc, bind_Ok_l, (edges_list_edges _ _ Hl), bind_Ok_l, Hr. }
  rewrite Hrun. split.
  - intros [e0 He0].
    assert (Hall : forall x, x ∈ r -> x = e0).
    { intros x Hx. apply Hmem in Hx as [Hx Hnot].
      rewrite elem_of_remove_dups in Hx. by apply He0. }
    destruct (NoDup_all_equal r e0 Hnd Hall) as [-> | ->].
    + by rewrite (unmatched_indices_empty pop first_corner l).
    + rewrite (unmatched_indices_single pop Hpop first_corner l); [done|done|].
      assert (Hin : e0 ∈ [e0]) by by left.
      apply Hmem in Hin as [Hin _]. by rewrite elem_of_remove_dups in Hin.
  - intros (e1 & e2 & H1 & H2 & Hne & Hn1 & Hn2).
    destruct (unmatched_indices_total pop Hpop first_corner l r e1 e2)
      as [s Hs]; try done.
    + intros e He. apply Hmem in He as [He _].
      by rewrite elem_of_remove_dups in He.
    + apply Hmem. by rewrite elem_of_remove_dups.
    + apply Hmem. by rewrite elem_of_remove_dups.
    + rewrite Hs, bind_Ok_l. eexists. split; [done|].
      apply orient_first_corner_oriented.
Qed.

Lemma orient_corner_exceptions_witness :
  pop_member pop_first
  /\ orient_corner pop_first flat_corner_ex 1 [4; 6] = Raise KeyError.
Proof.
  split; [exact pop_first_member|].
  refine (proj1 (orient_corner_exceptions pop_first flat_corner_ex 1 [4; 6]
                   (Tile.mk 1 [[1; 0; 1]; [0; 0; 1]; [1; 1; 0]])
                   [[1; 0; 1]; [1; 1; 0]; [1; 0; 1]; [1; 1; 0]]
                   pop_first_member eq_refl eq_refl _) _).
  - intros k Hk. rewrite !elem_of_cons, elem_of_nil in Hk.
    destruct Hk as [->|[->|[]]]; eexists; (split; [reflexivity|exact I]).
  - exists [1; 0; 1]. intros e He Hnot.
    assert (Hm : matched_by flat_corner_ex [4; 6] [1; 1; 0]).
    { exists 4, (Tile.mk 4 [[1; 1; 0]; [0; 0; 0]; [0; 0; 0]]),
        [[1; 1; 0]; [1; 0; 0]; [0; 0; 0]].
      split; [by left|]. split; [reflexivity|]. split; [reflexivity|].
      left. by left. }
    rewrite !elem_of_cons, elem_of_nil in He.
    destruct He as [->|[->|[->|[->|[]]]]]; done.
Defined.

(** X18.  The first corner ends with its free sides on top and on the
    left.  Let the four ordered edges of the corner be different, let two
    adjacent sides [p] and [q] of it ((top, right), (bottom, right),
    (bottom, left) or (top, left)) carry edges that no neighbour has in
    either reading direction, and let the edges of the two other sides be
    carried by some neighbour.  Then lines 126 to 143 succeed whichever
    edges [set.pop] picks, and they leave the corner, under its identifier,
    with a top edge and a left edge that no neighbour carries and a bottom
    edge and a right edge that some neighbour carries. *)
Theorem orient_corner_top_left (pop : nat -> edge_set -> edge) (n : nat)
    (tiles : tile_dict) (first_corner_id : Z) (neighbour_ids : list Z)
    (first_corner : Tile.t) (l : list edge) (p q : nat) :
  pop_member pop ->
  getitem tiles first_corner_id = Ok first_corner ->
  square n (Tile.image first_corner) -> (0 < n)%nat ->
  Tile.list_edges first_corner = Ok l -> NoDup l ->
  (forall k, k ∈ neighbour_ids ->
     exists t, getitem tiles k = Ok t /\ has_pixel t) ->
  (p, q) ∈ corner_sides ->
  (forall s e, l !! s = Some e ->
     (matched_by tiles neighbour_ids e <-> s <> p /\ s <> q)) ->
  exists c' top' bottom' left' right',
    orient_corner pop tiles first_corner_id neighbour_ids = Ok c'
    /\ Tile.id c' = Tile.id first_corner
    /\ Tile.list_edges c' = Ok [top'; bottom'; left'; right']
    /\ ~ matched_by tiles neighbour_ids top'
    /\ ~ matched_by tiles neighbour_ids left'
    /\ matched_by tiles neighbour_ids bottom'
    /\ matched_by tiles neighbour_ids right'.
Proof.
  intros Hpop Hc Hsq Hn Hl Hnd Hids Hpq Hm.
  destruct (list_edges_four n first_corner Hsq Hn)
    as (t & b & le & ri & Hfour & _).
  rewrite Hfour in Hl. injection Hl as <-.
  destruct (unmatched_loop_spec tiles neighbour_ids
              (remove_dups [t; b; le; ri]) Hids)
    as (r & Hr & Hmem & Hndr).
  specialize (Hndr (NoDup_remove_dups _)).
  assert (Hrun : orient_corner pop tiles first_corner_id neighbour_ids
                 = ui ← unmatched_indices pop first_corner r;
                   Ok (orient_first_corner ui first_corner)).
  { unfold orient_corner.
    by rewrite Hc, bind_Ok_l, (edges_list_edges _ _ Hfour), bind_Ok_l, Hr. }
  assert (Hindices : forall ep eq,
            [t; b; le; ri] !! p = Some ep -> [t; b; le; ri] !! q = Some eq ->
            p <> q ->
            orient_corner pop tiles first_corner_id neighbour_ids
            = Ok (orient_first_corner {[p; q]} first_corner)).
  { intros ep eq Hp Hq Hne. rewrite Hrun.
    rewrite (unmatched_indices_two pop Hpop first_corner [t; b; le; ri] r
               p q ep eq); try done.
    intros e. rewrite Hmem, elem_of_remove_dups. split.
    - intros [He Hnot]. apply list_elem_of_lookup_1 in He as [s Hs].
      destruct (lookup_position [t; b; le; ri] s p q) as [-> | ->].
      + intros Hboth. apply Hnot. by apply (Hm s).
      + left. rewrite Hp in Hs. by injection Hs.
      + right. rewrite Hq in Hs. by injection Hs.
    - intros [-> | ->].
      + split; [by apply list_elem_of_lookup_2 in Hp|].
        intros Hmatched. apply (Hm p) in Hmatched; [|done]. tauto.
      + split; [by apply list_elem_of_lookup_2 in Hq|].
        intros Hmatched. apply (Hm q) in Hmatched; [|done]. tauto. }
  assert (Hfree : forall s e, [t; b; le; ri] !! s = Some e ->
            s = p \/ s = q ->
            ~ matched_by tiles neighbour_ids e
            /\ ~ matched_by tiles neighbour_ids (rev e)).
  { intros s e Hs Hpq'. rewrite matched_by_rev.
    assert (~ matched_by tiles neighbour_ids e); [|done].
    intros Hmatched. apply (Hm s) in Hmatched; [|done]. lia. }
  assert (Hheld : forall s e, [t; b; le; ri] !! s = Some e ->
            s <> p -> s <> q ->
            matched_by tiles neighbour_ids e
            /\ matched_by tiles neighbour_ids (rev e)).
  { intros s e Hs Hp Hq. rewrite matched_by_rev.
    assert (matched_by tiles neighbour_ids e); [|done].
    by apply (Hm s). }
  destruct unmatched_sets_differ as (H1 & H2 & H3 & H4 & H5 & H6).
  assert (Hedges : forall c' g,
            Tile.image c' = act n g (Tile.image first_corner) ->
            Tile.list_edges c' = Ok (edges_after g [t; b; le; ri])).
  { intros c' g Hg. by apply (list_edges_act n first_corner). }
  unfold corner_sides in Hpq.
  rewrite !elem_of_cons, elem_of_nil in Hpq.
  destruct Hpq as [Hpq|[Hpq|[Hpq|[Hpq|[]]]]]; injection Hpq as -> ->.
  - exists (Tile.rotate first_corner 1), ri, le, (rev t), (rev b).
    split.
    { rewrite (Hindices t ri) by done. unfold orient_first_corner.
      by repeat case_decide. }
    split; [done|]. split.
    { apply (Hedges _ Rot1). simpl. by apply rot90_1_act. }
    split; [apply (Hfree 3%nat ri); [done|lia]|].
    split; [apply (Hfree 0%nat t); [done|lia]|].
    split; [apply (Hheld 2%nat le); [done|lia|lia]|].
    apply (Hheld 1%nat b); [done|lia|lia].
  - exists (Tile.rotate first_corner 2), (rev b), (rev t), (rev ri), (rev le).
    split.
    { rewrite (Hindices b ri) by done. unfold orient_first_corner.
      by repeat case_decide. }
    split; [done|]. split.
    { apply (Hedges _ Rot2). simpl. by apply rot90_2_act. }
    split; [apply (Hfree 1%nat b); [done|lia]|].
    split; [apply (Hfree 3%nat ri); [done|lia]|].
    split; [apply (Hheld 0%nat t); [done|lia|lia]|].
    apply (Hheld 2%nat le); [done|lia|lia].
  - exists (Tile.reflect_up_down first_corner), b, t, (rev le), (rev ri).
    split.
    { rewrite (Hindices b le) by done. unfold orient_first_corner.
      by repeat case_decide. }
    split; [done|]. split.
    { apply (Hedges _ FlipUD). simpl. by apply flipud_act. }
    split; [apply (Hfree 1%nat b); [done|lia]|].
    split; [apply (Hfree 2%nat le); [done|lia]|].
    split; [apply (Hheld 0%nat t); [done|lia|lia]|].
    apply (Hheld 3%nat ri); [done|lia|lia].
  - exists first_corner, t, b, le, ri.
    split.
    { rewrite (Hindices t le) by done. unfold orient_first_corner.
      by repeat case_decide. }
    split; [done|]. split; [done|].
    split; [apply (Hfree 0%nat t); [done|lia]|].
    split; [apply (Hfree 2%nat le); [done|lia]|].
    split; [apply (Hheld 1%nat b); [done|lia|lia]|].
    apply (Hheld 3%nat ri); [done|lia|lia].
Qed.

Lemma orient_corner_top_left_witness :
  pop_member pop_first
  /\ NoDup [[1; 1; 0]; [1; 0; 0]; [1; 1; 1]; [0; 1; 0]]
  /\ exists c' top' bottom' left' right',
      orient_corner pop_first corner_ex 1 [4; 6] = Ok c'
      /\ Tile.id c' = 1
      /\ Tile.list_edges c' = Ok [top'; bottom'; left'; right']
      /\ ~ matched_by corner_ex [4; 6] top'
      /\ ~ matched_by corner_ex [4; 6] left'
      /\ matched_by corner_ex [4; 6] bottom'
      /\ matched_by corner_ex [4; 6] right'.
Proof.
  assert (Hnd : NoDup [[1; 1; 0]; [1; 0; 0]; [1; 1; 1]; [0; 1; 0]]).
  { repeat (apply NoDup_cons; split;
            [rewrite ?elem_of_cons, elem_of_nil; intuition discriminate|]).
    apply NoDup_nil_2. }
  assert (Hfree : forall e,
            e = [1; 1; 0] \/ e = [0; 1; 0] ->
            ~ matched_by corner_ex [4; 6] e).
  { intros e He (k & t & es & Hk & Ht & Hes & Hin).
    rewrite !elem_of_cons, elem_of_nil in Hk.
    destruct Hk as [->|[->|[]]]; vm_compute in Ht; injection Ht as <-;
      vm_compute in Hes; injection Hes as <-;
      rewrite !elem_of_cons, !elem_of_nil in Hin;
      destruct He as [-> | ->]; simpl in Hin; intuition discriminate. }
  assert (Hbottom : matched_by corner_ex [4; 6] [1; 0; 0]).
  { exists 4, (Tile.mk 4 [[1; 0; 0]; [0; 0; 0]; [0; 0; 0]]),
      [[1; 0; 0]; [0; 0; 0]].
    split; [by left|]. split; [reflexivity|]. split; [reflexivity|].
    left. by left. }
  assert (Hleft : matched_by corner_ex [4; 6] [1; 1; 1]).
  { exists 6, (Tile.mk 6 [[1; 1; 1]; [0; 0; 0]; [0; 0; 0]]),
      [[1; 1; 1]; [0; 0; 0]; [1; 0; 0]].
    split; [right; by left|]. split; [reflexivity|]. split; [reflexivity|].
    left. by left. }
  split; [exact pop_first_member|]. split; [exact Hnd|].
  apply (orient_corner_top_left pop_first 3 corner_ex 1 [4; 6] static_ex
           [[1; 1; 0]; [1; 0; 0]; [1; 1; 1]; [0; 1; 0]] 0 3).
  - exact pop_first_member.
  - reflexivity.
  - split; [reflexivity|]. repeat constructor.
  - lia.
  - reflexivity.
  - exact Hnd.
  - intros k Hk. rewrite !elem_of_cons, elem_of_nil in Hk.
    destruct Hk as [->|[->|[]]]; eexists; (split; [reflexivity|exact I]).
  - by left.
  - intros s e Hs.
    destruct s as [|[|[|[|s]]]]; try discriminate Hs; injection Hs as <-.
    + split; [intros Hm; exfalso; apply (Hfree [1; 1; 0]); tauto|lia].
    + split; [lia|intros _; exact Hbottom].
    + split; [lia|intros _; exact Hleft].
    + split; [intros Hm; exfalso; apply (Hfree [0; 1; 0]); tauto|lia].
Defined.

(** ** A search without exception *)
Section MatcherTotal.

Variable pop : nat -> edge_set -> edge.
Hypothesis pop_in : pop_member pop.
Variable static_tile : Tile.t.
Variable ls : list edge.
Hypothesis static_edges : Tile.list_edges static_tile = Ok ls.

Lemma check_match_total step t L s :
  Tile.list_edges t = Ok L -> s <> [] ->
  (forall x, x ∈ s -> x ∈ L /\ x ∈ ls) ->
  exists r, check_match pop step static_tile t s = Ok r.
Proof.
  intros HL Hne Hsub. unfold check_match.
  assert (Hpop : set_pop pop step s = Ok (pop step s)) by (by destruct s).
  rewrite Hpop, bind_Ok_l, static_edges, bind_Ok_l.
  destruct (Hsub _ (pop_in step s Hne)) as [HinL Hinls].
  destruct (index_member ls _ Hinls) as [i ->]. rewrite bind_Ok_l.
  rewrite HL, bind_Ok_l.
  destruct (index_member L _ HinL) as [j ->]. rewrite bind_Ok_l.
  case_bool_decide; eauto.
Qed.

(** The loop ends without exception on tiles that have borders, and
    leaves [m] unassigned exactly when it was so before and no tile of
    the search shares an edge with the static tile. *)
Lemma match_loop_total steps other_tile m :
  (forall t, t ∈ tiles_from steps other_tile ->
     exists L, Tile.list_edges t = Ok L) ->
  exists t' m',
    match_loop pop static_tile steps other_tile m = Ok (t', m')
    /\ (m' = Unbound <->
        m = Unbound
        /\ forall t, t ∈ tiles_from steps other_tile ->
                     shared_edges static_tile t = Ok []).
Proof.
  revert other_tile m.
  induction steps as [|i steps IH]; intros other_tile m Hedges.
  - exists other_tile, m. split; [done|]. split; [|tauto].
    intros ->. split; [done|]. by intros t ?%elem_of_nil.
  - set (t1 := tile_step i other_tile).
    change (tiles_from (i :: steps) other_tile)
      with (t1 :: tiles_from steps t1) in *.
    destruct (Hedges t1) as [L1 HL1]; [by left|].
    pose proof (shared_edges_Ok _ _ _ _ static_edges HL1) as Hshared.
    set (s := list_intersection (remove_dups L1) (remove_dups ls)) in *.
    assert (Hlater : forall t, t ∈ tiles_from steps t1 ->
              exists L, Tile.list_edges t = Ok L).
    { intros t Ht. apply Hedges. by right. }
    destruct (decide (s = [])) as [Hnil|Hne].
    + rewrite Hnil in Hshared.
      destruct (IH t1 m Hlater) as (t' & m' & Hrun & Hiff).
      exists t', m'. rewrite match_loop_skip by done.
      split; [done|]. rewrite Hiff. split.
      * intros [-> Hall]. split; [done|].
        by intros t [->|Ht]%elem_of_cons; [|apply Hall].
      * intros [-> Hall]. split; [done|].
        intros t Ht. apply Hall. by right.
    + destruct (check_match_total i t1 L1 s HL1 Hne) as [r Hr].
      { intros x Hx. unfold s in Hx.
        by rewrite list_elem_of_intersection, !elem_of_remove_dups in Hx. }
      assert (Hseen : ~ (m = Unbound
                         /\ forall t, t ∈ t1 :: tiles_from steps t1 ->
                              shared_edges static_tile t = Ok [])).
      { intros [_ Hall]. specialize (Hall t1).
        rewrite Hshared in Hall. apply Hne.
        assert (Hs : Ok s = Ok []) by (apply Hall; by left).
        by injection Hs. }
      destruct r as [side|].
      * exists t1, (Bound (Some side)).
        rewrite (match_loop_stop pop _ _ _ _ _ s side) by done.
        split; [done|]. split; [done|]. intros H. by destruct Hseen.
      * destruct (IH t1 (Bound None) Hlater) as (t' & m' & Hrun & Hiff).
        exists t', m'.
        rewrite (match_loop_continue pop _ _ _ _ _ s) by done.
        split; [done|]. split.
        { intros Hm'. apply Hiff in Hm' as [Hm' _]. discriminate Hm'. }
        intros H. by destruct Hseen.
Qed.

End MatcherTotal.

Section CommonBorder.

Lemma edges_after_Rot2_elem (t0 t1 t2 t3 b : edge) :
  b ∈ [t0; t1; t2; t3] -> rev b ∈ edges_after Rot2 [t0; t1; t2; t3].
Proof.
  simpl. rewrite !elem_of_cons, !elem_of_nil.
  intros [->|[->|[->|[->|[]]]]]; tauto.
Qed.

Lemma shared_edges_nonempty static_tile t ls L e :
  Tile.list_edges static_tile = Ok ls -> Tile.list_edges t = Ok L ->
  e ∈ L -> e ∈ ls -> shared_edges static_tile t <> Ok [].
Proof.
  intros Hls HL HeL Hels. rewrite (shared_edges_Ok _ _ _ _ Hls HL).
  intros [= Hnil].
  apply (elem_of_nil e). rewrite <- Hnil.
  by rewrite list_elem_of_intersection, !elem_of_remove_dups.
Qed.

(** The loop on a square tile: it ends without exception, with [m]
    assigned exactly when the two tiles have a border in common. *)
Lemma match_loop_common_border (pop : nat -> edge_set -> edge)
    (n : nat) (static_tile other_tile : Tile.t) (ls lo : list edge) :
  pop_member pop ->
  square n (Tile.image other_tile) -> (0 < n)%nat ->
  Tile.list_edges static_tile = Ok ls ->
  Tile.list_edges other_tile = Ok lo ->
  exists t' m',
    match_loop pop static_tile (range 8) other_tile Unbound = Ok (t', m')
    /\ (common_border ls lo -> m' <> Unbound)
    /\ (~ common_border ls lo -> m' = Unbound).
Proof.
  intros Hpop Hsq Hn Hls Hlo.
  destruct (list_edges_four n other_tile Hsq Hn)
    as (t0 & t1 & t2 & t3 & Hfour & _).
  rewrite Hfour in Hlo. injection Hlo as <-.
  assert (Hedges : forall t, t ∈ searched_tiles other_tile ->
            exists g, Tile.list_edges t
                      = Ok (edges_after g [t0; t1; t2; t3])).
  { intros t Hin.
    destruct (oriented_as_act n _ _ Hsq (tiles_from_oriented _ _ _ Hin))
      as [_ [g Hg]].
    exists g. by apply (list_edges_act n other_tile). }
  destruct (match_loop_total pop Hpop static_tile ls Hls (range 8)
              other_tile Unbound)
    as (t' & m' & Hrun & Hiff).
  { intros t Hin. destruct (Hedges t Hin) as [g Hg]. eauto. }
  exists t', m'. split; [done|]. split.
  - intros (a & b & Ha & Hb & Hab) Hm'.
    destruct Hiff as [Hiff _]. destruct (Hiff Hm') as [_ Hall].
    destruct Hab as [-> | ->].
    + destruct (searched_tiles_all n other_tile Rot0 Hsq)
        as (t & Hin & Hg).
      apply (shared_edges_nonempty static_tile t ls
               (edges_after Rot0 [t0; t1; t2; t3]) b); try done.
      * by apply (list_edges_act n other_tile).
      * by apply Hall.
    + destruct (searched_tiles_all n other_tile Rot2 Hsq)
        as (t & Hin & Hg).
      apply (shared_edges_nonempty static_tile t ls
               (edges_after Rot2 [t0; t1; t2; t3]) (rev b)); try done.
      * by apply (list_edges_act n other_tile).
      * by apply edges_after_Rot2_elem.
      * by apply Hall.
  - intros Hnone. apply Hiff. split; [done|]. intros t Hin.
    destruct (Hedges t Hin) as [g Hg].
    rewrite (shared_edges_Ok _ _ _ _ Hls Hg). f_equal.
    destruct (list_intersection
                (remove_dups (edges_after g [t0; t1; t2; t3]))
                (remove_dups ls)) as [|x s] eqn:Hs; [done|].
    exfalso. assert (Hx : x ∈ x :: s) by by left.
    rewrite <- Hs, list_elem_of_intersection, !elem_of_remove_dups in Hx.
    destruct Hx as [Hx Hxs].
    apply edges_after_elem in Hx as (b & Hb & Hxb).
    apply Hnone. by exists x, b.
Qed.

(** Edge sets that match come from borders in common. *)
Lemma edges_match_common_border ls lo :
  edges_match (remove_dups ls) (remove_dups lo) -> common_border ls lo.
Proof.
  intros (e & He & Hor). rewrite !elem_of_remove_dups in *.
  destruct Hor as [Hin|Hin].
  - exists e, e. split; [done|]. split; [done|]. by left.
  - exists (rev e), e. split; [done|]. split; [done|]. by right.
Qed.

End CommonBorder.

(** X19.  [match_two_tiles] raises [UnboundLocalError] exactly on tiles
    without a border in common.  For a static tile with borders and a
    square other tile, whatever [set.pop] picks among the members of its
    set: if some border of the static tile is a border of the other tile,
    read in the same direction or backwards, the call returns (a side or
    [None]) without raising; and if no border of one is a border of the
    other in either direction, [m] is never assigned and [return m]
    raises [UnboundLocalError]. *)
Theorem match_two_tiles_unbound_iff (pop : nat -> edge_set -> edge)
    (n : nat) (static_tile other_tile : Tile.t) (ls lo : list edge) :
  pop_member pop ->
  square n (Tile.image other_tile) -> (0 < n)%nat ->
  Tile.list_edges static_tile = Ok ls ->
  Tile.list_edges other_tile = Ok lo ->
  (common_border ls lo ->
   exists other' v,
     match_two_tiles pop static_tile other_tile = Ok (other', v))
  /\ (~ common_border ls lo ->
      match_two_tiles pop static_tile other_tile = Raise UnboundLocalError).
Proof.
  intros Hpop Hsq Hn Hls Hlo.
  destruct (match_loop_common_border pop n static_tile other_tile ls lo
              Hpop Hsq Hn Hls Hlo)
    as (t' & m' & Hrun & Hbound & Hunbound).
  unfold match_two_tiles. rewrite Hrun, bind_Ok_l. split.
  - intros Hcommon. specialize (Hbound Hcommon).
    destruct m' as [|v]; [done|eauto].
  - intros Hnone. by rewrite (Hunbound Hnone).
Qed.

Lemma match_two_tiles_unbound_iff_witness :
  pop_member pop_first /\ square 3 (Tile.image other_ex)
  /\ exists other' v,
      match_two_tiles pop_first static_ex other_ex = Ok (other', v).
Proof.
  assert (Hsq : square 3 (Tile.image other_ex)).
  { split; [reflexivity|]. repeat constructor. }
  split; [exact pop_first_member|]. split; [exact Hsq|].
  refine (proj1 (match_two_tiles_unbound_iff pop_first 3 static_ex other_ex
                   [[1; 1; 0]; [1; 0; 0]; [1; 1; 1]; [0; 1; 0]]
                   [[0; 1; 1]; [0; 1; 1]; [0; 0; 0]; [1; 0; 1]]
                   pop_first_member Hsq _ eq_refl eq_refl) _).
  - lia.
  - exists [1; 1; 0], [0; 1; 1]. split; [by left|]. split; [by left|].
    right. reflexivity.
Defined.

(** X23.  The pairs that the construction hands to the matcher never leave
    [m] unassigned.  In a dictionary of [n] by [n] tiles with distinct
    keys, if [find_possible_neighbours] lists [u] as a neighbour of [t],
    then [match_two_tiles] on the tiles of [t] and [u] returns, a side or
    [None], whatever [set.pop] picks: [UnboundLocalError] cannot arise
    from a listed pair. *)
Theorem listed_neighbours_match (pop : nat -> edge_set -> edge) (n : nat)
    (tiles : tile_dict) (d : gmap Z (gset Z)) (t u : Z) :
  pop_member pop -> (0 < n)%nat -> NoDup (keys tiles) ->
  Forall (fun kt => square n (Tile.image kt.2)) tiles ->
  find_possible_neighbours tiles = Ok d ->
  u ∈ neighbours d t ->
  exists static_tile other_tile other' v,
    getitem tiles t = Ok static_tile /\ getitem tiles u = Ok other_tile
    /\ match_two_tiles pop static_tile other_tile = Ok (other', v).
Proof.
  intros Hpop Hn Hnd Hsq Hfind Hu.
  apply (find_possible_neighbours_candidates tiles d Hnd Hfind) in Hu
    as (_ & tt & tu & et & eu & Ht & Hu & Het & Heu & Hmatch).
  assert (Hsq1 : forall k x, getitem tiles k = Ok x ->
                             square n (Tile.image x)).
  { intros k x Hg%getitem_elem_of.
    by apply (proj1 (Forall_forall _ _) Hsq (k, x)). }
  destruct (list_edges_four n tt (Hsq1 _ _ Ht) Hn)
    as (a0 & a1 & a2 & a3 & Hls & _).
  destruct (list_edges_four n tu (Hsq1 _ _ Hu) Hn)
    as (b0 & b1 & b2 & b3 & Hlo & _).
  pose proof (edges_list_edges _ _ Hls) as Het'.
  pose proof (edges_list_edges _ _ Hlo) as Heu'.
  assert (Hei : et = remove_dups [a0; a1; a2; a3]) by congruence.
  assert (Hej : eu = remove_dups [b0; b1; b2; b3]) by congruence.
  rewrite Hei, Hej in Hmatch.
  apply edges_match_common_border in Hmatch.
  destruct (match_loop_common_border pop n tt tu _ _ Hpop (Hsq1 _ _ Hu) Hn
              Hls Hlo)
    as (t' & m' & Hrun & Hbound & _).
  specialize (Hbound Hmatch).
  exists tt, tu. unfold match_two_tiles. rewrite Hrun, bind_Ok_l.
  destruct m' as [|v]; [done|]. by exists t', v.
Qed.

Lemma listed_neighbours_match_witness :
  pop_member pop_first
  /\ NoDup (keys pair_ex)
  /\ exists d, find_possible_neighbours pair_ex = Ok d
      /\ 9 ∈ neighbours d 7
      /\ exists static_tile other_tile other' v,
          getitem pair_ex 7 = Ok static_tile
          /\ getitem pair_ex 9 = Ok other_tile
          /\ match_two_tiles pop_first static_tile other_tile
             = Ok (other', v).
Proof.
  assert (Hnd : NoDup (keys pair_ex)).
  { repeat (apply NoDup_cons; split;
            [rewrite ?elem_of_cons, elem_of_nil; intuition discriminate|]).
    apply NoDup_nil_2. }
  assert (Hsq : Forall (fun kt : Z * Tile.t => square 4 (Tile.image kt.2))
                  pair_ex).
  { repeat (apply Forall_cons_2;
            [split; [reflexivity|repeat constructor]|]).
    apply Forall_nil_2. }
  destruct (find_possible_neighbours pair_ex) as [d|e] eqn:Hfind;
    [|vm_compute in Hfind; discriminate Hfind].
  assert (Hin : 9 ∈ neighbours d 7).
  { apply (find_possible_neighbours_candidates pair_ex d Hnd Hfind).
    split; [done|].
    exists left_ex, right_ex,
      (remove_dups [[0; 1; 1; 1]; [1; 1; 1; 0]; [0; 1; 0; 1]; [1; 1; 0; 0]]),
      (remove_dups [[1; 1; 0; 0]; [1; 0; 0; 0]; [1; 0; 1; 1]; [0; 1; 1; 0]]).
    split; [reflexivity|]. split; [reflexivity|].
    split; [reflexivity|]. split; [reflexivity|].
    exists [1; 1; 0; 0]. rewrite !elem_of_remove_dups.
    split; [by left|]. left. do 3 right. by left. }
  split; [exact pop_first_member|]. split; [exact Hnd|].
  exists d. split; [reflexivity|]. split; [exact Hin|].
  apply (listed_neighbours_match pop_first 4 pair_ex d 7 9
           pop_first_member); try done. lia.
Defined.

(** ** The inside of a tile *)
Section Interior.

Local Open Scope nat_scope.

Lemma length_inner {A : Type} (l : list A) : length (inner l) = length l - 2.
Proof. unfold inner. rewrite length_drop, length_take. lia. Qed.

Lemma lookup_inner {A : Type} (l : list A) i :
  i < length l - 2 -> inner l !! i = l !! S i.
Proof.
  intros Hi. unfold inner. rewrite lookup_drop, lookup_take_lt by lia. done.
Qed.

Lemma nth_inner {A : Type} (l : list A) i d :
  i < length l - 2 -> nth i (inner l) d = nth (S i) l d.
Proof. intros Hi. by rewrite !nth_lookup, lookup_inner. Qed.

Lemma square_interior n m : square n m -> square (n - 2) (interior m).
Proof.
  intros Hsq. pose proof Hsq as [Hlen Hrows]. unfold interior. split.
  - by rewrite length_map, length_inner, Hlen.
  - apply List.Forall_forall. intros r Hr.
    apply in_map_iff in Hr as (r0 & <- & Hr0).
    rewrite length_inner. f_equal.
    assert (Hin : In r0 m).
    { unfold inner in Hr0. apply list_elem_of_In in Hr0.
      apply list_elem_of_In.
      eapply subseteq_drop, subseteq_take in Hr0. exact Hr0. }
    by apply (proj1 (List.Forall_forall _ _) Hrows).
Qed.

Lemma pixel_at_interior n m i j :
  square n m -> i < n - 2 -> j < n - 2 ->
  pixel_at (interior m) i j = pixel_at m (S i) (S j).
Proof.
  intros Hsq Hi Hj. pose proof Hsq as [Hlen _]. unfold pixel_at, interior.
  rewrite (nth_indep _ [] (inner [])) by
    (rewrite length_map, length_inner; lia).
  rewrite (map_nth inner), (nth_inner m i) by lia.
  rewrite nth_inner; [done|].
  rewrite (square_row n) by (done || lia). done.
Qed.

(** Cutting the border off commutes with every symmetry. *)
Lemma interior_act n g m :
  square n m -> interior (act n g m) = act (n - 2) g (interior m).
Proof.
  intros Hsq. apply (square_ext (n - 2)).
  - apply square_interior, square_act.
  - apply square_act.
  - intros i j Hi Hj.
    rewrite (pixel_at_interior n) by (done || apply square_act).
    rewrite !pixel_at_act by lia.
    destruct (source_pixel_lt (n - 2) g i j Hi Hj) as [H1 H2].
    rewrite (pixel_at_interior n) by done.
    destruct g; simpl in *; f_equal; lia.
Qed.

End Interior.

(** X20.  Cutting the border off a tile commutes with its transforms: for
    a square image, the inside [image[1:-1, 1:-1]] of the rotated tile is
    the inside of the tile rotated by the same number of turns, and the
    inside of a reflected tile is the inside of the tile reflected the same
    way.  So the blocks of the composite image show the tiles in the
    orientations that the construction left them in. *)
Theorem interior_commutes (n : nat) (t : Tile.t) :
  square n (Tile.image t) ->
  (forall k : Z,
     interior (Tile.image (Tile.rotate t k))
     = rot90 (interior (Tile.image t)) k)
  /\ interior (Tile.image (Tile.reflect_up_down t))
     = flipud (interior (Tile.image t))
  /\ interior (Tile.image (Tile.reflect_left_right t))
     = fliplr (interior (Tile.image t)).
Proof.
  intros Hsq. pose proof (square_interior n _ Hsq) as Hin.
  split; [|split]; simpl.
  - intros k. rewrite (rot90_act n), (rot90_act (n - 2)) by done.
    by apply interior_act.
  - rewrite (flipud_act n), (flipud_act (n - 2)) by done.
    by apply interior_act.
  - rewrite (fliplr_act n), (fliplr_act (n - 2)) by done.
    by apply interior_act.
Qed.

Lemma interior_commutes_witness :
  square 4 (Tile.image left_ex)
  /\ interior (Tile.image (Tile.rotate left_ex 1))
     = rot90 (interior (Tile.image left_ex)) 1.
Proof.
  assert (Hsq : square 4 (Tile.image left_ex)).
  { split; [reflexivity|]. repeat constructor. }
  split; [exact Hsq|].
  exact (proj1 (interior_commutes 4 left_ex Hsq) 1).
Defined.

(** ** One block of the composite image *)
Section Block.

Local Open Scope nat_scope.

Lemma nth_imap {A : Type} (f : nat -> A -> A) (l : list A) (d : A) x :
  x < length l -> nth x (imap f l) d = f x (nth x l d).
Proof.
  intros Hx. rewrite !nth_lookup, list_lookup_imap.
  destruct (lookup_lt_is_Some_2 l x Hx) as [r ->]. done.
Qed.

(** An assignment to a block inside a square image writes the pixels of
    the source there and nothing else. *)
Lemma assign_block_spec N image i j src :
  square N image -> i * 8 + 8 <= N -> j * 8 + 8 <= N ->
  exists image',
    assign_block image (i * 8) (j * 8) src 8 8 = Ok image'
    /\ square N image'
    /\ forall x y, x < N -> y < N ->
         pixel_at image' x y
         = if decide (in_block i j x y)
           then pixel_at src (x - i * 8) (y - j * 8)
           else pixel_at image x y.
Proof.
  intros Hsq Hi Hj. pose proof Hsq as [Hlen Hrows].
  unfold assign_block, shape0. rewrite (square_shape1 N), Hlen by done.
  replace (Nat.min 8 (N - i * 8)) with 8 by lia.
  replace (Nat.min 8 (N - j * 8)) with 8 by lia.
  cbn [fits Nat.eqb orb andb].
  eexists. split; [reflexivity|].
  assert (Hrow : forall x, x < N -> length (nth x image []) = N).
  { intros x Hx. by apply (square_row N). }
  split; [split|].
  - by rewrite length_imap.
  - apply List.Forall_nth. intros x d Hx. rewrite length_imap in Hx.
    rewrite (nth_indep _ d []) by (rewrite length_imap; lia).
    rewrite nth_imap by done.
    destruct (_ && _); [rewrite length_imap|]; apply Hrow; lia.
  - intros x y Hx Hy. unfold pixel_at.
    rewrite nth_imap by lia.
    destruct (Nat.leb_spec (i * 8) x), (Nat.ltb_spec x (i * 8 + 8));
      cbn [andb]; try (rewrite decide_False; [done|unfold in_block; lia]).
    rewrite nth_imap by (rewrite Hrow; lia).
    destruct (Nat.leb_spec (j * 8) y), (Nat.ltb_spec y (j * 8 + 8));
      cbn [andb]; try (rewrite decide_False; [done|unfold in_block; lia]).
    rewrite decide_True; [done|unfold in_block; lia].
Qed.

Lemma pixel_at_zeros h w x y : pixel_at (zeros h w) x y = 0%Z.
Proof.
  unfold pixel_at, zeros.
  destruct (decide (x < h)) as [Hx|Hx].
  - rewrite (nth_lookup (replicate h (replicate w 0%Z)) x),
      lookup_replicate_2 by done.
    simpl.
    destruct (decide (y < w)) as [Hy|Hy].
    + by rewrite nth_lookup, lookup_replicate_2.
    + apply nth_overflow. rewrite length_replicate. lia.
  - rewrite (nth_overflow _ []) by (rewrite length_replicate; lia).
    by destruct y.
Qed.

Lemma square_zeros n : square n (zeros n n).
Proof.
  split; [apply length_replicate|].
  apply List.Forall_forall. intros r Hr.
  apply list_elem_of_In, elem_of_replicate in Hr as [-> _].
  apply length_replicate.
Qed.

End Block.

(** ** The loop over the tiles *)
Section CompositeLoop.

Variable g : nat.
Variable id_grid : list (list Z).
Hypothesis grid_square : square g id_grid.

(** The first cell of an identifier that the grid holds. *)
Lemma where_first_placed v :
  placed id_grid v ->
  exists a b : nat,
    where_first id_grid v = Ok (Z.of_nat a, Z.of_nat b)
    /\ (a < g)%nat /\ (b < g)%nat /\ cell id_grid a b = Some v.
Proof.
  intros (r & Hr & Hv). unfold where_first.
  pose proof (where_from_spec 0 id_grid v) as Hspec.
  pose proof (where_first_Ok g id_grid v) as Hrange.
  unfold where_first in Hrange.
  destruct (where_from 0 id_grid v) as [[i j]|e].
  - destruct Hspec as (a & b & -> & -> & Hcell & _).
    destruct (Hrange _ _ grid_square eq_refl) as [Ha Hb].
    exists a, b. split; [done|]. split; [lia|]. split; [lia|done].
  - destruct Hspec as [_ Hnone]. by destruct (Hnone r Hr).
Qed.

Lemma where_first_cell v (a b : nat) :
  where_first id_grid v = Ok (Z.of_nat a, Z.of_nat b) ->
  cell id_grid a b = Some v.
Proof.
  unfold where_first. intros Hw.
  pose proof (where_from_spec 0 id_grid v) as Hspec. rewrite Hw in Hspec.
  destruct Hspec as (a' & b' & Ha & Hb & Hcell & _).
  assert (a' = a) as -> by lia. assert (b' = b) as -> by lia. done.
Qed.

Lemma composite_loop_spec items image0 :
  square (g * 8) image0 -> NoDup (keys items) ->
  (forall tile_id t, (tile_id, t) ∈ items ->
     square 10 (Tile.image t) /\ placed id_grid tile_id) ->
  exists image,
    composite_loop id_grid items image0 = Ok image
    /\ square (g * 8) image
    /\ forall x y, (x < g * 8)%nat -> (y < g * 8)%nat ->
         (forall tile_id t (a b : nat),
            (tile_id, t) ∈ items ->
            where_first id_grid tile_id = Ok (Z.of_nat a, Z.of_nat b) ->
            in_block a b x y ->
            pixel_at image x y
            = pixel_at (interior (Tile.image t))
                (x - a * 8) (y - b * 8))
         /\ ((forall tile_id t (a b : nat),
                (tile_id, t) ∈ items ->
                where_first id_grid tile_id
                = Ok (Z.of_nat a, Z.of_nat b) ->
                ~ in_block a b x y) ->
             pixel_at image x y = pixel_at image0 x y).
Proof.
  revert image0.
  induction items as [|[tile_id t] items IH]; intros image0 Hsq Hnd Hitems.
  - exists image0. split; [done|]. split; [done|].
    intros x y Hx Hy. split; [|done].
    intros tile_id t a b Hin. by apply elem_of_nil in Hin.
  - destruct (Hitems tile_id t) as [Ht Hplaced]; [by left|].
    destruct (where_first_placed tile_id Hplaced)
      as (a & b & Hw & Ha & Hb & Hcell).
    destruct (assign_block_spec (g * 8) image0 a b
                (interior (Tile.image t)) Hsq)
      as (image1 & Hassign & Hsq1 & Hpix1); [lia|lia|].
    simpl in Hnd. apply NoDup_cons in Hnd as [Hfresh Hnd].
    destruct (IH image1 Hsq1 Hnd) as (image & Hrun & Hsqf & Hpix).
    { intros tile_id' t' Hin. apply Hitems. by right. }
    exists image. split; [|split; [done|]].
    + simpl. rewrite Hw, bind_Ok_l. cbv zeta.
      replace (Z.to_nat (Z.of_nat a * 8)) with (a * 8)%nat by lia.
      replace (Z.to_nat (Z.of_nat b * 8)) with (b * 8)%nat by lia.
      destruct Ht as [Hlen Hrows].
      assert (Hs0 : (shape0 (Tile.image t) - 2 = 8)%nat).
      { unfold shape0. by rewrite Hlen. }
      assert (Hs1 : (shape1 (Tile.image t) - 2 = 8)%nat).
      { by rewrite (square_shape1 10). }
      by rewrite Hs0, Hs1, Hassign, bind_Ok_l.
    + intros x y Hx Hy. destruct (Hpix x y Hx Hy) as [Hblocks Hrest].
      assert (Hother : forall tile_id' t' (a' b' : nat),
                (tile_id', t') ∈ items ->
                where_first id_grid tile_id'
                = Ok (Z.of_nat a', Z.of_nat b') ->
                in_block a b x y -> ~ in_block a' b' x y).
      { intros tile_id' t' a' b' Hin Hw' Hab Hab'.
        assert (a' = a /\ b' = b) as [-> ->].
        { unfold in_block in *. lia. }
        apply where_first_cell in Hw'. rewrite Hcell in Hw'.
        injection Hw' as ->. apply Hfresh.
        unfold keys. apply list_elem_of_In, in_map_iff.
        exists (tile_id', t'). split; [done|]. by apply list_elem_of_In. }
      split.
      * intros tile_id' t' a' b' Hin Hw' Hblock.
        apply elem_of_cons in Hin as [Heq|Hin].
        { injection Heq as -> ->. rewrite Hw in Hw'.
          assert (a' = a) as -> by (injection Hw'; lia).
          assert (b' = b) as -> by (injection Hw'; lia).
          rewrite Hrest, Hpix1, decide_True by eauto. done. }
        by apply (Hblocks tile_id' t').
      * intros Hnone. rewrite Hrest.
        { rewrite Hpix1 by done. rewrite decide_False; [done|].
          apply (Hnone tile_id t); [by left|done]. }
        intros tile_id' t' a' b' Hin. apply (Hnone tile_id' t'). by right.
Qed.

End CompositeLoop.

(** X21.  The composite image shows every tile at its place.  For a
    [g] by [g] grid of identifiers and a dictionary of 10 by 10 tiles whose
    identifiers all occur in the grid, lines 171 to 177 raise nothing and
    give an image of [8 g] by [8 g] pixels in which the 8 by 8 block of the
    first cell that holds a tile's identifier is the tile without its
    border, pixel for pixel, and every pixel outside these blocks is 0. *)
Theorem composite_blocks (g : nat) (id_grid : grid) (tiles : tile_dict) :
  square g id_grid -> NoDup (keys tiles) ->
  (forall tile_id t, (tile_id, t) ∈ tiles ->
     square 10 (Tile.image t) /\ placed id_grid tile_id) ->
  exists image,
    composite g id_grid tiles = Ok image
    /\ square (g * 8) image
    /\ (forall tile_id t (i j a b : nat),
          (tile_id, t) ∈ tiles ->
          where_first id_grid tile_id = Ok (Z.of_nat i, Z.of_nat j) ->
          (a < 8)%nat -> (b < 8)%nat ->
          pixel_at image (i * 8 + a) (j * 8 + b)
          = pixel_at (Tile.image t) (S a) (S b))
    /\ (forall x y,
          (forall tile_id t (i j : nat),
             (tile_id, t) ∈ tiles ->
             where_first id_grid tile_id = Ok (Z.of_nat i, Z.of_nat j) ->
             ~ in_block i j x y) ->
          pixel_at image x y = 0).
Proof.
  intros Hgrid Hnd Htiles.
  destruct (composite_loop_spec g id_grid Hgrid tiles
              (zeros (g * 8) (g * 8)) (square_zeros _) Hnd Htiles)
    as (image & Hrun & Hsq & Hpix).
  exists image. split; [done|]. split; [done|]. split.
  - intros tile_id t i j a b Hin Hw Ha Hb.
    destruct (Htiles tile_id t Hin) as [Ht Hplaced].
    destruct (where_first_Ok g _ _ _ _ Hgrid Hw) as [Hi Hj].
    destruct (Hpix (i * 8 + a) (j * 8 + b))%nat as [Hblocks _]; [lia|lia|].
    rewrite (Hblocks tile_id t i j Hin Hw) by (unfold in_block; lia).
    replace (i * 8 + a - i * 8)%nat with a by lia.
    replace (j * 8 + b - j * 8)%nat with b by lia.
    apply (pixel_at_interior 10); done || lia.
  - intros x y Hnone.
    destruct (decide (x < g * 8)%nat) as [Hx|Hx];
      [destruct (decide (y < g * 8)%nat) as [Hy|Hy]|].
    + destruct (Hpix x y Hx Hy) as [_ Hrest].
      rewrite Hrest by done. apply pixel_at_zeros.
    + unfold pixel_at. apply nth_overflow.
      destruct (decide (x < g * 8)%nat) as [Hx'|Hx']; [|lia].
      rewrite (square_row (g * 8)) by done. lia.
    + unfold pixel_at. destruct Hsq as [Hlen _].
      rewrite (nth_overflow image) by lia. by destruct y.
Qed.

Lemma composite_blocks_witness :
  square 2 numbered_grid
  /\ exists image,
      composite 2 numbered_grid [(3, numbered_tile)] = Ok image
      /\ square 16 image
      /\ pixel_at image 0 8 = 11 /\ pixel_at image 7 15 = 88
      /\ pixel_at image 8 8 = 0.
Proof.
  assert (Hgrid : square 2 numbered_grid).
  { split; [reflexivity|]. repeat constructor. }
  split; [exact Hgrid|].
  destruct (composite_blocks 2 numbered_grid [(3, numbered_tile)] Hgrid)
    as (image & Hrun & Hsq & Hblocks & Hzero).
  - repeat constructor. by intros ?%elem_of_nil.
  - intros tile_id t Hin. apply list_elem_of_singleton in Hin.
    injection Hin as -> ->. split.
    + split; [reflexivity|]. repeat constructor.
    + exists [0; 3]. split; [by left|right; by left].
  - exists image. split; [exact Hrun|]. split; [exact Hsq|].
    split; [|split].
    + apply (Hblocks 3 numbered_tile 0%nat 1%nat 0%nat 0%nat);
        [by left|reflexivity|lia|lia].
    + apply (Hblocks 3 numbered_tile 0%nat 1%nat 7%nat 7%nat);
        [by left|reflexivity|lia|lia].
    + apply Hzero. intros tile_id t i j Hin Hw.
      apply list_elem_of_singleton in Hin. injection Hin as -> ->.
      assert (i = 0 /\ j = 1)%nat as [-> ->].
      { change (where_first numbered_grid 3) with (@Ok (Z * Z) (0, 1)) in Hw.
        injection Hw. lia. }
      unfold in_block. lia.
Defined.

(** ** A tile that cannot be drawn *)
Section CompositeErrors.

Lemma composite_loop_app id_grid items items' image0 :
  composite_loop id_grid (items ++ items') image0
  = image ← composite_loop id_grid items image0;
    composite_loop id_grid items' image.
Proof.
  revert image0. induction items as [|[tile_id t] items IH]; intros image0;
    [done|].
  simpl. destruct (where_first id_grid tile_id) as [[i j]|e]; [|done].
  rewrite !bind_Ok_l. cbv zeta.
  destruct (assign_block _ _ _ _ _ _) as [image1|e]; [|done].
  rewrite !bind_Ok_l. apply IH.
Qed.

Lemma where_first_absent id_grid v :
  ~ placed id_grid v -> where_first id_grid v = Raise IndexError.
Proof.
  intros Hnot. unfold where_first.
  pose proof (where_from_spec 0 id_grid v) as Hspec.
  destruct (where_from 0 id_grid v) as [[i j]|e].
  - destruct Hspec as (a & b & _ & _ & Hcell & _). exfalso. apply Hnot.
    unfold cell in Hcell.
    destruct (id_grid !! a) as [r|] eqn:Hr; [|done]. simpl in Hcell.
    exists r. split; by eapply list_elem_of_lookup_2.
  - by destruct Hspec as [-> _].
Qed.

Lemma assign_block_misfit N image i j src p q :
  square N image -> (i * 8 + 8 <= N)%nat -> (j * 8 + 8 <= N)%nat ->
  p <> 8%nat -> p <> 1%nat ->
  assign_block image (i * 8) (j * 8) src p q = Raise ValueError.
Proof.
  intros Hsq Hi Hj H8 H1. pose proof Hsq as [Hlen _].
  unfold assign_block, shape0. rewrite (square_shape1 N), Hlen by done.
  replace (Nat.min 8 (N - i * 8)) with 8%nat by lia.
  unfold fits.
  destruct (Nat.eqb_spec p 8); [done|].
  destruct (Nat.eqb_spec p 1); [done|]. done.
Qed.

End CompositeErrors.

(** X22.  The first tile that cannot be drawn stops the loop.  After
    tiles of 10 by 10 pixels whose identifiers are in the grid, a tile
    whose identifier is in no cell of the grid makes [ind[0][0]] raise
    [IndexError]; a tile that is in the grid but whose square image is not
    10 by 10, nor 3 by 3, has an inside that does not fit the 8 by 8 block
    and the assignment raises [ValueError].  The tiles after it are not
    looked at. *)
Theorem composite_exceptions (g n : nat) (id_grid : grid)
    (before after : tile_dict) (tile_id : Z) (t : Tile.t) :
  square g id_grid -> NoDup (keys before) ->
  (forall tile_id' t', (tile_id', t') ∈ before ->
     square 10 (Tile.image t') /\ placed id_grid tile_id') ->
  (~ placed id_grid tile_id ->
   composite g id_grid (before ++ (tile_id, t) :: after) = Raise IndexError)
  /\ (placed id_grid tile_id ->
      square n (Tile.image t) -> (0 < n)%nat -> n <> 10%nat -> n <> 3%nat ->
      composite g id_grid (before ++ (tile_id, t) :: after)
      = Raise ValueError).
Proof.
  intros Hgrid Hnd Hbefore.
  destruct (composite_loop_spec g id_grid Hgrid before
              (zeros (g * 8) (g * 8)) (square_zeros _) Hnd Hbefore)
    as (image & Hrun & Hsq & _).
  unfold composite. rewrite composite_loop_app, Hrun, bind_Ok_l.
  split.
  - intros Habsent. simpl. by rewrite where_first_absent.
  - intros Hplaced Ht Hn H10 H3.
    destruct (where_first_placed g id_grid Hgrid tile_id Hplaced)
      as (a & b & Hw & Ha & Hb & _).
    simpl. rewrite Hw, bind_Ok_l. cbv zeta.
    replace (Z.to_nat (Z.of_nat a * 8)) with (a * 8)%nat by lia.
    replace (Z.to_nat (Z.of_nat b * 8)) with (b * 8)%nat by lia.
    rewrite (assign_block_misfit (g * 8)); [done|done|lia|lia| |].
    + destruct Ht as [Hlen _]. unfold shape0. lia.
    + destruct Ht as [Hlen _]. unfold shape0. lia.
Qed.

Lemma composite_exceptions_witness :
  square 2 numbered_grid
  /\ composite 2 numbered_grid [(3, numbered_tile); (5, static_ex)]
     = Raise IndexError.
Proof.
  assert (Hgrid : square 2 numbered_grid).
  { split; [reflexivity|]. repeat constructor. }
  split; [exact Hgrid|].
  refine (proj1 (composite_exceptions 2 3 numbered_grid
                   [(3, numbered_tile)] [] 5 static_ex Hgrid _ _) _).
  - repeat constructor. by intros ?%elem_of_nil.
  - intros tile_id t Hin. apply list_elem_of_singleton in Hin.
    injection Hin as -> ->. split.
    + split; [reflexivity|]. repeat constructor.
    + exists [0; 3]. split; [by left|right; by left].
  - intros (r & Hr & H5). unfold numbered_grid in Hr.
    rewrite !elem_of_cons, elem_of_nil in Hr.
    destruct Hr as [->|[->|[]]];
      rewrite !elem_of_cons, elem_of_nil in H5; intuition discriminate.
Defined.

(** ** Sums over the cells of an array *)
Section Sums.

Local Open Scope nat_scope.

Lemma sumZ_app l1 l2 : sumZ (l1 ++ l2) = (sumZ l1 + sumZ l2)%Z.
Proof. induction l1 as [|x l1 IH]; simpl; [done|]. rewrite IH. lia. Qed.

Lemma sumZ_concat (m : list (list Z)) : sumZ (concat m) = sumZ (map sumZ m).
Proof.
  induction m as [|r m IH]; simpl; [done|]. by rewrite sumZ_app, IH.
Qed.

Lemma sumZ_map_ext {A : Type} (f g : A -> Z) l :
  (forall x, In x l -> f x = g x) -> sumZ (map f l) = sumZ (map g l).
Proof. intros H. f_equal. by apply map_ext_in. Qed.

Lemma sumZ_map_add {A : Type} (f g : A -> Z) l :
  sumZ (map (fun x => (f x + g x)%Z) l)
  = (sumZ (map f l) + sumZ (map g l))%Z.
Proof. induction l as [|x l IH]; simpl; [done|]. rewrite IH. lia. Qed.

Lemma sumZ_map_zero {A : Type} (f : A -> Z) l :
  (forall x, In x l -> f x = 0%Z) -> sumZ (map f l) = 0%Z.
Proof.
  induction l as [|x l IH]; intros H; simpl; [done|].
  rewrite (H x), IH; [done| |by left].
  intros y Hy. apply H. by right.
Qed.

Lemma rows_nth_seq (m : list (list Z)) :
  map (fun x => nth x m []) (seq 0 (length m)) = m.
Proof.
  apply (nth_ext _ _ [] []).
  - by rewrite length_map, length_seq.
  - intros i Hi. rewrite length_map, length_seq in Hi.
    rewrite (nth_indep _ _ (nth 0 m []))
      by (by rewrite length_map, length_seq).
    rewrite (map_nth (fun x => nth x m [])), seq_nth by done. done.
Qed.

(** The sum of a square array, cell by cell. *)
Lemma image_sum_pixels N m :
  square N m -> image_sum m = sum_pixels N (pixel_at m).
Proof.
  intros Hsq. pose proof Hsq as [Hlen _].
  unfold image_sum, sum_pixels. rewrite sumZ_concat.
  rewrite <- (rows_nth_seq m) at 1. rewrite map_map, Hlen.
  apply sumZ_map_ext. intros x Hx. apply in_seq in Hx.
  rewrite <- (map_nth_seq (nth x m [])) at 1.
  by rewrite (square_row N) by (done || lia).
Qed.

Lemma sum_pixels_ext N f g :
  (forall x y, x < N -> y < N -> f x y = g x y) ->
  sum_pixels N f = sum_pixels N g.
Proof.
  intros H. unfold sum_pixels. apply sumZ_map_ext. intros x Hx.
  apply in_seq in Hx. apply sumZ_map_ext. intros y Hy. apply in_seq in Hy.
  apply H; lia.
Qed.

Lemma sum_pixels_add N f g :
  sum_pixels N (fun x y => (f x y + g x y)%Z)
  = (sum_pixels N f + sum_pixels N g)%Z.
Proof.
  unfold sum_pixels. rewrite <- sumZ_map_add. apply sumZ_map_ext.
  intros x _. apply sumZ_map_add.
Qed.

Lemma sum_window_inside r0 (v : nat -> Z) len s :
  s + len <= 8 ->
  sumZ (map (fun x => if decide (r0 <= x < r0 + 8) then v (x - r0)
                      else 0%Z)
          (seq (r0 + s) len))
  = sumZ (map v (seq s len)).
Proof.
  revert s. induction len as [|len IH]; intros s Hs; [done|].
  simpl. rewrite decide_True by lia.
  replace (r0 + s - r0) with s by lia.
  replace (S (r0 + s)) with (r0 + S s) by lia.
  by rewrite IH by lia.
Qed.

(** A sum that is zero outside a window of eight indices. *)
Lemma sum_window N r0 (v : nat -> Z) :
  r0 + 8 <= N ->
  sumZ (map (fun x => if decide (r0 <= x < r0 + 8) then v (x - r0)
                      else 0%Z)
          (seq 0 N))
  = sumZ (map v (seq 0 8)).
Proof.
  intros Hr.
  replace N with (r0 + (8 + (N - r0 - 8))) at 1 by lia.
  rewrite !seq_app, !map_app, !sumZ_app.
  rewrite sumZ_map_zero, (sumZ_map_zero _ (seq (0 + r0 + 8) _)).
  - rewrite Z.add_0_l, Z.add_0_r.
    replace (0 + r0) with (r0 + 0) by lia.
    by apply sum_window_inside.
  - intros x Hx. apply in_seq in Hx. rewrite decide_False; [done|lia].
  - intros x Hx. apply in_seq in Hx. rewrite decide_False; [done|lia].
Qed.

End Sums.

(** ** The pixel total of the composite image *)
Section Total.

Local Open Scope nat_scope.

(** Writing a source into a block that held zeros adds the total of the
    source. *)
Lemma block_sum N (A B s : nat -> nat -> Z) a b :
  a * 8 + 8 <= N -> b * 8 + 8 <= N ->
  (forall x y, x < N -> y < N ->
     B x y = if decide (in_block a b x y)
             then s (x - a * 8) (y - b * 8) else A x y) ->
  (forall x y, in_block a b x y -> A x y = 0%Z) ->
  sum_pixels N B = (sum_pixels N A + sum_pixels 8 s)%Z.
Proof.
  intros Ha Hb HB HA.
  set (d := fun x y => if decide (in_block a b x y)
                       then s (x - a * 8) (y - b * 8) else 0%Z).
  rewrite (sum_pixels_ext N B (fun x y => (A x y + d x y)%Z)).
  - rewrite sum_pixels_add. f_equal. unfold sum_pixels.
    rewrite <- (sum_window N (a * 8)
                  (fun j => sumZ (map (s j) (seq 0 8)))) by done.
    apply sumZ_map_ext. intros x Hx.
    destruct (decide (a * 8 <= x < a * 8 + 8)) as [Hin|Hout].
    + rewrite <- (sum_window N (b * 8) (s (x - a * 8))) by done.
      apply sumZ_map_ext. intros y Hy. unfold d, in_block.
      destruct (decide (b * 8 <= y < b * 8 + 8)).
      * by rewrite decide_True.
      * rewrite decide_False; [done|tauto].
    + apply sumZ_map_zero. intros y Hy. unfold d, in_block.
      rewrite decide_False; [done|tauto].
  - intros x y Hx Hy. rewrite HB by done. unfold d.
    destruct (decide (in_block a b x y)) as [Hin|Hout]; [|lia].
    rewrite (HA x y Hin). lia.
Qed.

Lemma bitmap_of_pixels N m :
  square N m ->
  (forall x y, x < N -> y < N ->
     pixel_at m x y = 0%Z \/ pixel_at m x y = 1%Z) ->
  bitmap m.
Proof.
  intros Hsq Hpix. pose proof Hsq as [Hlen _].
  unfold bitmap. apply Forall_forall. intros r Hr.
  apply list_elem_of_lookup_1 in Hr as [x Hx].
  pose proof (lookup_lt_Some _ _ _ Hx) as Hxlt.
  apply Forall_forall. intros v Hv.
  apply list_elem_of_lookup_1 in Hv as [y Hy].
  pose proof (lookup_lt_Some _ _ _ Hy) as Hylt.
  assert (Hrow : length r = N).
  { rewrite <- (square_row N m x) by (done || lia).
    by rewrite nth_lookup, Hx. }
  specialize (Hpix x y ltac:(lia) ltac:(lia)).
  unfold pixel_at in Hpix.
  rewrite (nth_lookup m), Hx in Hpix. simpl in Hpix.
  by rewrite nth_lookup, Hy in Hpix.
Qed.

End Total.

Section CompositeTotal.

Local Open Scope nat_scope.

Variable g : nat.
Variable id_grid : list (list Z).
Hypothesis grid_square : square g id_grid.

Lemma composite_loop_total items image0 :
  square (g * 8) image0 -> NoDup (keys items) ->
  (forall tile_id t, (tile_id, t) ∈ items ->
     square 10 (Tile.image t) /\ placed id_grid tile_id) ->
  (forall tile_id t (a b : nat) x y,
     (tile_id, t) ∈ items ->
     where_first id_grid tile_id = Ok (Z.of_nat a, Z.of_nat b) ->
     in_block a b x y -> pixel_at image0 x y = 0%Z) ->
  exists image,
    composite_loop id_grid items image0 = Ok image
    /\ square (g * 8) image
    /\ image_sum image = (image_sum image0 + interior_total items)%Z
    /\ (bitmap image0 ->
        (forall tile_id t, (tile_id, t) ∈ items ->
                           bitmap (Tile.image t)) ->
        bitmap image).
Proof.
  revert image0.
  induction items as [|[tile_id t] items IH];
    intros image0 Hsq Hnd Hitems Hzero.
  - exists image0. split; [done|]. split; [done|].
    split; [unfold interior_total; simpl; lia|done].
  - destruct (Hitems tile_id t) as [Ht Hplaced]; [by left|].
    destruct (where_first_placed g id_grid grid_square tile_id Hplaced)
      as (a & b & Hw & Ha & Hb & Hcell).
    destruct (assign_block_spec (g * 8) image0 a b
                (interior (Tile.image t)) Hsq)
      as (image1 & Hassign & Hsq1 & Hpix1); [lia|lia|].
    simpl in Hnd. apply NoDup_cons in Hnd as [Hfresh Hnd].
    destruct (IH image1 Hsq1 Hnd) as (image & Hrun & Hsqf & Hsum & Hbit).
    { intros tile_id' t' Hin. apply Hitems. by right. }
    { intros tile_id' t' a' b' x y Hin Hw' Hblock.
      destruct (decide (x < g * 8)) as [Hx|Hx];
        [destruct (decide (y < g * 8)) as [Hy|Hy]|].
      - rewrite Hpix1 by done. rewrite decide_False.
        + apply (Hzero tile_id' t' a' b'); [by right|done|done].
        + intros Hblock0.
          assert (a' = a /\ b' = b) as [-> ->].
          { unfold in_block in *. lia. }
          apply (where_first_cell id_grid) in Hw'. rewrite Hcell in Hw'.
          injection Hw' as ->. apply Hfresh.
          unfold keys. apply list_elem_of_In, in_map_iff.
          exists (tile_id', t'). split; [done|]. by apply list_elem_of_In.
      - unfold pixel_at. apply nth_overflow.
        rewrite (square_row (g * 8)) by done. lia.
      - unfold pixel_at. destruct Hsq1 as [Hlen1 _].
        rewrite (nth_overflow image1) by lia. by destruct y. }
    assert (Hsrc : square 8 (interior (Tile.image t))).
    { by apply (square_interior 10). }
    exists image. split; [|split; [done|split]].
    + simpl. rewrite Hw, bind_Ok_l. cbv zeta.
      replace (Z.to_nat (Z.of_nat a * 8)) with (a * 8) by lia.
      replace (Z.to_nat (Z.of_nat b * 8)) with (b * 8) by lia.
      destruct Ht as [Hlen Hrows].
      assert (Hs0 : shape0 (Tile.image t) - 2 = 8).
      { unfold shape0. by rewrite Hlen. }
      assert (Hs1 : shape1 (Tile.image t) - 2 = 8).
      { by rewrite (square_shape1 10). }
      by rewrite Hs0, Hs1, Hassign, bind_Ok_l.
    + rewrite Hsum. unfold interior_total. simpl.
      rewrite (image_sum_pixels (g * 8) image1) by done.
      rewrite (image_sum_pixels (g * 8) image0) by done.
      rewrite (image_sum_pixels 8 (interior (Tile.image t))) by done.
      rewrite (block_sum (g * 8) (pixel_at image0) (pixel_at image1)
                 (pixel_at (interior (Tile.image t))) a b);
        [lia|lia|lia|done|].
      intros x y Hblock. apply (Hzero tile_id t a b); [by left|done|done].
    + intros Hb0 Hbits. apply Hbit.
      * apply (bitmap_of_pixels (g * 8)); [done|].
        intros x y Hx Hy. rewrite Hpix1 by done.
        destruct (decide (in_block a b x y)).
        { apply bitmap_pixel.
          apply (bitmap_of_pixels 8); [done|].
          intros x' y' Hx' Hy'.
          rewrite (pixel_at_interior 10) by (done || lia).
          apply bitmap_pixel. apply (Hbits tile_id t). by left. }
        by apply bitmap_pixel.
      * intros tile_id' t' Hin. apply (Hbits tile_id' t'). by right.
Qed.

End CompositeTotal.

(** X24.  The pixel total of the composite image is the total of the
    insides of the tiles.  For a [g] by [g] grid of identifiers and a
    dictionary of 10 by 10 tiles whose identifiers all occur in the grid,
    the image built by lines 171 to 177 is a square of [8 g] by [8 g]
    pixels whose sum is the sum, over the tiles, of the pixels of the tile
    without its border; and when every tile is a bitmap the image is a
    bitmap, as [measure_water_roughness] expects. *)
Theorem composite_total (g : nat) (id_grid : grid) (tiles : tile_dict) :
  square g id_grid -> NoDup (keys tiles) ->
  (forall tile_id t, (tile_id, t) ∈ tiles ->
     square 10 (Tile.image t) /\ placed id_grid tile_id) ->
  exists image,
    composite g id_grid tiles = Ok image
    /\ square (g * 8) image
    /\ image_sum image = interior_total tiles
    /\ ((forall tile_id t, (tile_id, t) ∈ tiles -> bitmap (Tile.image t)) ->
        bitmap image).
Proof.
  intros Hgrid Hnd Htiles.
  destruct (composite_loop_total g id_grid Hgrid tiles
              (zeros (g * 8) (g * 8)) (square_zeros _) Hnd Htiles)
    as (image & Hrun & Hsq & Hsum & Hbit).
  { intros. apply pixel_at_zeros. }
  exists image. split; [done|]. split; [done|]. split.
  - rewrite Hsum.
    rewrite (image_sum_pixels (g * 8) (zeros (g * 8) (g * 8)))
      by apply square_zeros.
    assert (Hz : sum_pixels (g * 8) (pixel_at (zeros (g * 8) (g * 8))) = 0).
    { unfold sum_pixels. apply sumZ_map_zero. intros x _.
      apply sumZ_map_zero. intros y _. apply pixel_at_zeros. }
    rewrite Hz. lia.
  - intros Hbits. apply Hbit; [|done].
    apply (bitmap_of_pixels (g * 8)); [apply square_zeros|].
    intros x y _ _. left. apply pixel_at_zeros.
Qed.

Lemma composite_total_witness :
  square 2 numbered_grid
  /\ exists image,
      composite 2 numbered_grid [(3, framed_tile)] = Ok image
      /\ square 16 image /\ image_sum image = 8 /\ bitmap image.
Proof.
  assert (Hgrid : square 2 numbered_grid).
  { split; [reflexivity|]. repeat constructor. }
  split; [exact Hgrid|].
  destruct (composite_total 2 numbered_grid [(3, framed_tile)] Hgrid)
    as (image & Hrun & Hsq & Hsum & Hbit).
  - repeat constructor. by intros ?%elem_of_nil.
  - intros tile_id t Hin. apply list_elem_of_singleton in Hin.
    injection Hin as -> ->. split.
    + split; [reflexivity|]. repeat constructor.
    + exists [0; 3]. split; [by left|right; by left].
  - exists image. split; [exact Hrun|]. split; [exact Hsq|].
    split; [exact Hsum|].
    apply Hbit. intros tile_id t Hin. apply list_elem_of_singleton in Hin.
    injection Hin as -> ->. vm_compute.
    repeat first [ apply Forall_nil_2 | apply Forall_cons_2
                 | left; reflexivity | right; reflexivity ].
Defined.
